(** * A shallow embedding of the RPG session engine

    The development follows the Python sources module by module:
    - [PyFloat]     binary64 arithmetic as Python performs it on [float];
    - [Random]      the [random] module, driven by an explicit supply of draws;
    - [Character]   [character_system.py]: class table, creation, levelling,
                    inventory, damage;
    - [Combat]      [combat_system.py]: the solo combat state machine;
    - [Quest]       [quest_system.py]: bestiary, level scaling, rewards,
                    completion;
    - [Multiplayer] [multiplayer_system.py]: sessions, team scaling, turn
                    order;
    - [Sample]      the characters, enemies and draws used in the examples.

    Python dictionaries with a fixed set of keys are records; dictionaries
    used as maps are [gmap]s; a subscript on a missing key, a division by
    zero or a float overflow is the result [None]. Dicts and lists that the
    source shares between a template and its copy live in an explicit
    store and are addressed by reference. *)

From Stdlib Require Import ZArith Lia SpecFloat.
From stdpp Require Import gmap strings list sorting pretty.

Local Open Scope string_scope.
Local Open Scope Z_scope.
Local Open Scope list_scope.

(** ** Python floats *)

Module PyFloat.

(** CPython's [float] is IEEE-754 binary64: 53 bits of precision, the
    infinities at exponent 1024. *)
Definition prec : Z := 53.
Definition emax : Z := 1024.

Abbreviation float := spec_float.

Definition is_finite (x : float) : bool :=
  match x with
  | S754_zero _ | S754_finite _ _ _ => true
  | S754_infinity _ | S754_nan => false
  end.

(** [x] is a zero or a finite value of magnitude below [2^k]. *)
Definition magnitude_le (k : Z) (x : float) : Prop :=
  match x with
  | S754_zero _ => True
  | S754_finite _ m e => Z.pos (digits2_pos m) + e ≤ k
  | S754_infinity _ | S754_nan => False
  end.

(** The nearest binary64 value of an integer (ties to even). *)
Definition round_int (z : Z) : float := binary_normalize prec emax z 0 false.

(** [float(z)], also the implicit conversion of an [int] operand in mixed
    arithmetic: [OverflowError] when [z] is out of the binary64 range. *)
Definition of_int (z : Z) : option float :=
  let f := round_int z in if is_finite f then Some f else None.

Definition mul : float → float → float := SFmul prec emax.
Definition add : float → float → float := SFadd prec emax.
Definition sub : float → float → float := SFsub prec emax.
Definition ltb : float → float → bool := SFltb.

(** [a / b] on two [int]s: the correctly rounded quotient;
    [ZeroDivisionError] for [b = 0], [OverflowError] when the quotient
    is out of range. *)
Definition truediv (a b : Z) : option float :=
  if b =? 0 then None
  else
    let '(q, e, l) := SFdiv_core_binary prec emax (Z.abs a) 0 (Z.abs b) 0 in
    let f := binary_round_aux prec emax (xorb (a <? 0) (b <? 0)) q e l in
    if is_finite f then Some f else None.

(** [int(x)]: truncation toward zero; [OverflowError] on an infinity,
    [ValueError] on a NaN. *)
Definition to_int (x : float) : option Z :=
  match x with
  | S754_zero _ => Some 0
  | S754_finite s m e =>
      let v := match e with
               | Zneg p => Z.pos m / 2 ^ Z.pos p
               | _ => Z.pos m * 2 ^ e
               end in
      Some (if s then - v else v)
  | S754_infinity _ | S754_nan => None
  end.

(** [z * x] and [z + x] with [z] an [int] and [x] a [float]. *)
Definition int_mul (z : Z) (x : float) : option float :=
  f ← of_int z; Some (mul f x).
Definition int_add (z : Z) (x : float) : option float :=
  f ← of_int z; Some (add f x).

(** [x * z] with [x] a [float] and [z] an [int]. *)
Definition mul_int (x : float) (z : Z) : option float :=
  f ← of_int z; Some (mul x f).

(** [min(a, b)]: the first argument unless the second is smaller. *)
Definition min (a b : float) : float := if ltb b a then b else a.

(** A decimal literal [n/d] written in the source: the nearest binary64
    value of the quotient. *)
Definition lit (n d : Z) : float :=
  SFdiv prec emax (round_int n) (round_int d).

Definition f0_1 : float := Eval vm_compute in lit 1 10.
Definition f0_2 : float := Eval vm_compute in lit 2 10.
Definition f0_3 : float := Eval vm_compute in lit 3 10.
Definition f0_4 : float := Eval vm_compute in lit 4 10.
Definition f0_5 : float := Eval vm_compute in lit 5 10.
Definition f0_6 : float := Eval vm_compute in lit 6 10.
Definition f0_8 : float := Eval vm_compute in lit 8 10.
Definition f0_9 : float := Eval vm_compute in lit 9 10.
Definition f1_0 : float := Eval vm_compute in lit 10 10.
Definition f1_1 : float := Eval vm_compute in lit 11 10.
Definition f1_2 : float := Eval vm_compute in lit 12 10.
Definition f1_25 : float := Eval vm_compute in lit 125 100.
Definition f1_3 : float := Eval vm_compute in lit 13 10.
Definition f1_4 : float := Eval vm_compute in lit 14 10.
Definition f1_5 : float := Eval vm_compute in lit 15 10.
Definition f1_6 : float := Eval vm_compute in lit 16 10.
Definition f2_0 : float := Eval vm_compute in lit 20 10.

End PyFloat.

(** ** The random source *)

Module Random.

(** The generator is a supply of raw 53-bit words, consumed one per call;
    an exhausted supply keeps answering [0]. *)
Definition rng : Type := list N.

(** Computations that draw from the generator and may raise. *)
Definition M (A : Type) : Type := rng → option (A * rng).

Definition ret {A} (a : A) : M A := λ g, Some (a, g).
Definition raise {A} : M A := λ _, None.
Definition bind {A B} (m : M A) (k : A → M B) : M B :=
  λ g, match m g with
       | Some (a, g') => k a g'
       | None => None
       end.
Definition lift {A} (o : option A) : M A :=
  λ g, match o with Some a => Some (a, g) | None => None end.

Definition next : M N :=
  λ g, match g with
       | [] => Some (0%N, [])
       | w :: g' => Some (w, g')
       end.

(** [random.random()]: a 53-bit word scaled by [2^-53], in [[0, 1)]. *)
Definition random : M PyFloat.float :=
  bind next (λ w,
    ret (binary_normalize PyFloat.prec PyFloat.emax
           (Z.of_N w `mod` 2 ^ 53) (-53) false)).

(** [random.randint(a, b)]: uniform on [[a, b]]; [ValueError] on an
    empty range. *)
Definition randint (a b : Z) : M Z :=
  if b <? a then raise
  else bind next (λ w, ret (a + Z.of_N w `mod` (b - a + 1))).

(** [random.choice(seq)]: [IndexError] on an empty sequence. *)
Definition choice {A} (l : list A) : M A :=
  match l with
  | [] => raise
  | _ => bind next (λ w, lift (l !! (N.to_nat w `mod` length l)%nat))
  end.

(** [random.sample(population, k)]: [k] elements at distinct positions;
    [ValueError] when [k] exceeds the population. *)
Fixpoint sample {A} (l : list A) (k : nat) : M (list A) :=
  match k with
  | O => ret []
  | S k' =>
      match l with
      | [] => raise
      | _ =>
          bind next (λ w,
            let i := (N.to_nat w `mod` length l)%nat in
            bind (lift (l !! i)) (λ x,
              bind (sample (delete i l) k') (λ xs, ret (x :: xs))))
      end
  end.

End Random.

Notation "x <- m ;; k" := (Random.bind m (λ x, k))
  (at level 100, m at next level, right associativity, only parsing).

(** ** character_system.py *)

Module Character.

Import Random.

(** An inventory entry: the keys ['name'] and ['type'] of the item dict. *)
Record item := { item_name : string; item_type : string }.

(** The character dict built by [create_character]. *)
Record character := {
  name : string;
  class : string;
  level : Z;
  experience : Z;
  experience_to_next : Z;
  gold : Z;
  stats : gmap string Z;
  current_hp : Z;
  max_hp : Z;
  abilities : list string;
  inventory : gmap string (list item);
  quests_completed : Z;
  monsters_defeated : Z
}.

(** An entry of the class table; ['base_stats'] keeps the order in which
    the source lists the keys, which is the order [level_up] draws in. *)
Record class_data := {
  base_stats : list (string * Z);
  class_abilities : list string
}.

Definition mk_stats (str agi int def mag hp : Z) : list (string * Z) :=
  [("strength", str); ("agility", agi); ("intelligence", int);
   ("defense", def); ("magic_power", mag); ("max_hp", hp)].

Definition _initialize_classes : list (string * class_data) :=
  [ ("swordsman", {| base_stats := mk_stats 18 12 10 16 8 120;
       class_abilities := ["Sword Mastery"; "Heavy Strike"; "Parry"] |});
    ("sniper", {| base_stats := mk_stats 12 20 14 10 8 90;
       class_abilities := ["Eagle Eye"; "Piercing Shot"; "Stealth"] |});
    ("magician", {| base_stats := mk_stats 8 10 20 8 18 80;
       class_abilities := ["Fireball"; "Magic Shield"; "Arcane Blast"] |});
    ("gunman", {| base_stats := mk_stats 14 16 12 12 6 100;
       class_abilities := ["Rapid Fire"; "Reload"; "Precise Aim"] |});
    ("archer", {| base_stats := mk_stats 12 18 12 10 10 95;
       class_abilities := ["Multi-Shot"; "Nature's Blessing"; "Track"] |});
    ("warrior", {| base_stats := mk_stats 16 12 10 18 8 130;
       class_abilities := ["Shield Bash"; "Taunt"; "Endurance"] |});
    ("hunter", {| base_stats := mk_stats 14 16 14 12 8 110;
       class_abilities := ["Beast Lore"; "Trap Setting"; "Camouflage"] |});
    ("assassin", {| base_stats := mk_stats 12 20 12 8 10 85;
       class_abilities := ["Stealth Strike"; "Poison Blade"; "Shadow Step"] |});
    ("hitman", {| base_stats := mk_stats 14 16 16 10 6 95;
       class_abilities :=
         ["Tactical Strike"; "Equipment Mastery"; "Cold Blood"] |}) ].

Definition character_classes : gmap string class_data :=
  list_to_map _initialize_classes.

(** [create_character]: [ValueError] on a class that is not in the table. *)
Definition create_character (nm cls : string) : option character :=
  cd ← character_classes !! cls;
  let st : gmap string Z := list_to_map (base_stats cd) in
  hp ← st !! "max_hp";
  Some {| name := nm; class := cls; level := 1; experience := 0;
          experience_to_next := 100; gold := 100; stats := st;
          current_hp := hp; max_hp := hp;
          abilities := class_abilities cd;
          inventory := list_to_map [("weapons", []); ("armor", []);
                                    ("items", []); ("spells", [])];
          quests_completed := 0; monsters_defeated := 0 |}.

(** [_calculate_stat_growth]: one draw per stat other than ['max_hp'], in
    the order of the class's base stats, the range chosen by the base
    value. *)
Fixpoint _calculate_stat_growth_items (base : list (string * Z))
  : M (list (string * Z)) :=
  match base with
  | [] => ret []
  | (stat, base_value) :: rest =>
      if String.eqb stat "max_hp" then _calculate_stat_growth_items rest
      else
        g <- (if 16 <=? base_value then randint 2 4
              else if 12 <=? base_value then randint 1 3
              else randint 1 2) ;;
        growth <- _calculate_stat_growth_items rest ;;
        ret ((stat, g) :: growth)
  end.

Definition _calculate_stat_growth (cd : class_data) : M (list (string * Z)) :=
  _calculate_stat_growth_items (base_stats cd).

(** [character['stats'][stat] += growth] for every entry of the growth
    dict; a stat the character lacks is a [KeyError]. *)
Fixpoint apply_growth (growth : list (string * Z)) (st : gmap string Z)
  : option (gmap string Z) :=
  match growth with
  | [] => Some st
  | (stat, g) :: rest =>
      v ← st !! stat;
      apply_growth rest (<[stat := v + g]> st)
  end.

Definition level_up (c : character) : M character :=
  let lvl := level c + 1 in
  cd <- lift (character_classes !! class c) ;;
  stat_growth <- _calculate_stat_growth cd ;;
  st <- lift (apply_growth stat_growth (stats c)) ;;
  hp_increase <- randint 8 15 ;;
  hp <- lift (st !! "max_hp") ;;
  let st' := <["max_hp" := hp + hp_increase]> st in
  ret {| name := name c; class := class c;
         level := lvl; experience := 0; experience_to_next := lvl * 100;
         gold := gold c; stats := st';
         current_hp := hp + hp_increase; max_hp := hp + hp_increase;
         abilities := abilities c; inventory := inventory c;
         quests_completed := quests_completed c;
         monsters_defeated := monsters_defeated c |}.

Definition with_inventory (inv : gmap string (list item)) (c : character)
  : character :=
  {| name := name c; class := class c; level := level c;
     experience := experience c;
     experience_to_next := experience_to_next c; gold := gold c;
     stats := stats c; current_hp := current_hp c; max_hp := max_hp c;
     abilities := abilities c; inventory := inv;
     quests_completed := quests_completed c;
     monsters_defeated := monsters_defeated c |}.

(** [add_item], for an item dict that carries its ['type'] (as [item]
    does): appended to the category of that name, [False] when the
    inventory has no such category. *)
Definition add_item (c : character) (it : item) : bool * character :=
  match inventory c !! item_type it with
  | Some items =>
      (true,
       with_inventory (<[item_type it := items ++ [it]]> (inventory c)) c)
  | None => (false, c)
  end.

(** The loop of [remove_item]: the first item of that name is popped. *)
Fixpoint pop_first (nm : string) (items : list item) : option (list item) :=
  match items with
  | [] => None
  | it :: rest =>
      if String.eqb (item_name it) nm then Some rest
      else cons it <$> pop_first nm rest
  end.

Definition remove_item (c : character) (nm ty : string) : bool * character :=
  match inventory c !! ty with
  | Some items =>
      match pop_first nm items with
      | Some items' =>
          (true, with_inventory (<[ty := items']> (inventory c)) c)
      | None => (false, c)
      end
  | None => (false, c)
  end.

(** The table of [_get_ability_damage_modifier]. *)
Definition ability_modifiers : gmap string (gmap string PyFloat.float) :=
  list_to_map
    [ ("swordsman", list_to_map [("Heavy Strike", PyFloat.lit 15 10);
                                 ("Sword Mastery", PyFloat.lit 12 10)]);
      ("sniper", list_to_map [("Piercing Shot", PyFloat.lit 18 10);
                              ("Eagle Eye", PyFloat.lit 13 10)]);
      ("magician", list_to_map [("Fireball", PyFloat.lit 20 10);
                                ("Arcane Blast", PyFloat.lit 17 10)]);
      ("gunman", list_to_map [("Rapid Fire", PyFloat.lit 14 10);
                              ("Precise Aim", PyFloat.lit 16 10)]);
      ("archer", list_to_map [("Multi-Shot", PyFloat.lit 13 10);
                              ("Track", PyFloat.lit 11 10)]);
      ("warrior", list_to_map [("Shield Bash", PyFloat.lit 12 10);
                               ("Endurance", PyFloat.lit 10 10)]);
      ("hunter", list_to_map [("Beast Lore", PyFloat.lit 14 10);
                              ("Trap Setting", PyFloat.lit 13 10)]);
      ("assassin", list_to_map [("Stealth Strike", PyFloat.lit 22 10);
                                ("Poison Blade", PyFloat.lit 16 10)]);
      ("hitman", list_to_map [("Tactical Strike", PyFloat.lit 18 10);
                              ("Equipment Mastery", PyFloat.lit 13 10)]) ].

Definition _get_ability_damage_modifier (cls ability : string)
  : PyFloat.float :=
  default PyFloat.f1_0 (default ∅ (ability_modifiers !! cls) !! ability).

(** [calculate_damage]; [ability] is [None] by default, and the test
    [if ability] also passes over the empty string. *)
Definition calculate_damage (c : character) (ability : option string)
  : M Z :=
  base_damage <- lift (stats c !! "strength") ;;
  base_damage <-
    match ability with
    | Some a =>
        if String.eqb a "" then ret base_damage
        else lift (PyFloat.int_mul base_damage
                     (_get_ability_damage_modifier (class c) a)
                   ≫= PyFloat.to_int)
    | None => ret base_damage
    end ;;
  variance <- randint (-5) 5 ;;
  ret (Z.max 1 (base_damage + variance)).

End Character.

(** ** combat_system.py *)

Module Combat.

Import Random.

(** The enemy dict as combat reads it. ['defense'] is read with
    [.get('defense', 0)], so the key may be missing; ['special_abilities']
    is read with [.get] and tested for truth only, so a missing key and an
    empty list behave alike and both are the empty list here. *)
Record Enemy := {
  name : string;
  attack : Z;
  defense : option Z;
  current_hp : Z;
  max_hp : Z;
  special_abilities : list string
}.

(** The combat state dict; a missing ['player_defending'] key reads as
    [False]. *)
Record CombatState := {
  player : Character.character;
  enemy : Enemy;
  turn : string;
  round : Z;
  status : string;
  log : list string;
  player_defending : bool
}.

Definition set_enemy_hp (hp : Z) (e : Enemy) : Enemy :=
  {| name := name e; attack := attack e; defense := defense e;
     current_hp := hp; max_hp := max_hp e;
     special_abilities := special_abilities e |}.

Definition set_enemy_attack (a : Z) (e : Enemy) : Enemy :=
  {| name := name e; attack := a; defense := defense e;
     current_hp := current_hp e; max_hp := max_hp e;
     special_abilities := special_abilities e |}.

Definition set_player_hp (hp : Z) (p : Character.character)
  : Character.character :=
  {| Character.name := Character.name p;
     Character.class := Character.class p;
     Character.level := Character.level p;
     Character.experience := Character.experience p;
     Character.experience_to_next := Character.experience_to_next p;
     Character.gold := Character.gold p;
     Character.stats := Character.stats p;
     Character.current_hp := hp;
     Character.max_hp := Character.max_hp p;
     Character.abilities := Character.abilities p;
     Character.inventory := Character.inventory p;
     Character.quests_completed := Character.quests_completed p;
     Character.monsters_defeated := Character.monsters_defeated p |}.

(** [player['stats'].get('defense', 0)] *)
Definition player_defense (p : Character.character) : Z :=
  default 0 (Character.stats p !! "defense").

Definition _calculate_player_damage (p : Character.character) : M Z :=
  base_damage <- lift (Character.stats p !! "strength") ;;
  variance <- randint (-3) 3 ;;
  agility <- lift (Character.stats p !! "agility") ;;
  ratio <- lift (PyFloat.truediv agility 100) ;;
  let crit_chance := PyFloat.min PyFloat.f0_2 ratio in
  r <- random ;;
  if PyFloat.ltb r crit_chance then
    boosted <- lift (PyFloat.int_mul base_damage PyFloat.f1_5
                     ≫= PyFloat.to_int) ;;
    ret (Z.max 1 (boosted + Z.abs variance))
  else ret (Z.max 1 (base_damage + variance)).

Definition _calculate_enemy_damage (e : Enemy) : M Z :=
  variance <- randint (-2) 2 ;;
  ret (Z.max 1 (attack e + variance)).

Definition player_attack (cs : CombatState) : M CombatState :=
  let p := player cs in
  let e := enemy cs in
  base_damage <- _calculate_player_damage p ;;
  let damage_dealt := Z.max 1 (base_damage - default 0 (defense e)) in
  let e' := set_enemy_hp (Z.max 0 (current_hp e - damage_dealt)) e in
  let log1 := log cs ++
    [Character.name p +:+ " attacks " +:+ name e +:+ " for "
       +:+ pretty damage_dealt +:+ " damage!"] in
  if current_hp e' <=? 0 then
    ret {| player := p; enemy := e'; turn := turn cs; round := round cs;
           status := "victory";
           log := log1 ++ [name e +:+ " has been defeated!"];
           player_defending := player_defending cs |}
  else
    ret {| player := p; enemy := e'; turn := "enemy"; round := round cs;
           status := status cs; log := log1;
           player_defending := player_defending cs |}.

Definition player_defend (cs : CombatState) : M CombatState :=
  let p := player cs in
  heal_amount <- randint 5 15 ;;
  let p' := set_player_hp
              (Z.min (Character.max_hp p)
                     (Character.current_hp p + heal_amount)) p in
  ret {| player := p'; enemy := enemy cs; turn := "enemy";
         round := round cs; status := status cs;
         log := log cs ++
           [Character.name p +:+ " takes a defensive stance and recovers "
              +:+ pretty heal_amount +:+ " HP!"];
         player_defending := true |}.

Inductive action := Attack | Special.

(** [_determine_enemy_action]; the random draws happen only where the
    short-circuit [and] reaches them. *)
Definition _determine_enemy_action (e : Enemy) (p : Character.character)
  : M action :=
  enemy_hp_ratio <- lift (PyFloat.truediv (current_hp e) (max_hp e)) ;;
  let has_abilities := bool_decide (special_abilities e ≠ []) in
  low <- (if PyFloat.ltb enemy_hp_ratio PyFloat.f0_3 && has_abilities
          then r <- random ;; ret (PyFloat.ltb r PyFloat.f0_6)
          else ret false) ;;
  if (low : bool) then ret Special
  else if has_abilities then
    r <- random ;;
    ret (if PyFloat.ltb r PyFloat.f0_2 then Special else Attack)
  else ret Attack.

(** An entry of the [ability_effects] table. *)
Record Effect := {
  damage_multiplier : option PyFloat.float;
  effect : option string;
  hits : option Z;
  description : string
}.

Definition damaging (m : PyFloat.float) (d : string) : Effect :=
  {| damage_multiplier := Some m; effect := None; hits := None;
     description := d |}.

Definition status_only (k d : string) : Effect :=
  {| damage_multiplier := None; effect := Some k; hits := None;
     description := d |}.

Definition ability_effects (enemy_name : string) : gmap string Effect :=
  list_to_map
    [ ("Crushing Bite",
        damaging PyFloat.f1_5 (enemy_name +:+ " delivers a crushing bite!"));
      ("Intimidating Roar",
        status_only "stun" (enemy_name +:+ " lets out an intimidating roar!"));
      ("Tusk Charge",
        damaging PyFloat.f1_3 (enemy_name +:+ " charges with deadly tusks!"));
      ("Pounce",
        damaging PyFloat.f1_4 (enemy_name +:+ " pounces with feline grace!"));
      ("Saber Strike",
        damaging PyFloat.f1_6
          (enemy_name +:+ " strikes with razor-sharp sabers!"));
      ("Claw Swipe",
        damaging PyFloat.f1_2 (enemy_name +:+ " swipes with massive claws!"));
      ("Bear Hug",
        status_only "grapple" (enemy_name +:+ " attempts to grapple!"));
      ("Heavy Slam",
        damaging PyFloat.f1_3
          (enemy_name +:+ " slams down with tremendous force!"));
      ("Piercing Beak",
        damaging PyFloat.f1_5
          (enemy_name +:+ " strikes with its piercing beak!"));
      ("Swift Strike",
        {| damage_multiplier := Some PyFloat.f1_1; effect := None;
           hits := Some 2;
           description :=
             enemy_name +:+ " strikes twice in rapid succession!" |});
      ("Pack Howl",
        status_only "buff" (enemy_name +:+ " howls, boosting its strength!"));
      ("Venomous Bite",
        {| damage_multiplier := Some PyFloat.f1_2; effect := Some "poison";
           hits := None;
           description := enemy_name +:+ " bites with venomous fangs!" |});
      ("Tail Whip",
        damaging PyFloat.f1_1
          (enemy_name +:+ " lashes out with its powerful tail!")) ].

(** [ability_effects.get(ability, {...})] with the generic fallback. *)
Definition lookup_effect (enemy_name ability : string) : Effect :=
  default (damaging PyFloat.f1_2 (enemy_name +:+ " uses " +:+ ability +:+ "!"))
          (ability_effects enemy_name !! ability).

(** The body of [for _ in range(hits)]: the pair is
    [(total_damage, player['current_hp'])]. *)
Fixpoint hit_loop (n : nat) (special_damage def : Z) (acc : Z * Z) : Z * Z :=
  match n with
  | O => acc
  | S n' =>
      let damage := Z.max 1 (special_damage - def) in
      hit_loop n' special_damage def
               (acc.1 + damage, Z.max 0 (acc.2 - damage))
  end.

Definition with_player_enemy_log (p : Character.character) (e : Enemy)
    (l : list string) (cs : CombatState) : CombatState :=
  {| player := p; enemy := e; turn := turn cs; round := round cs;
     status := status cs; log := l;
     player_defending := player_defending cs |}.

Definition _execute_enemy_special_ability (cs : CombatState)
  : M CombatState :=
  let e := enemy cs in
  let p := player cs in
  match special_abilities e with
  | [] => ret cs
  | abilities =>
      ability <- choice abilities ;;
      let eff := lookup_effect (name e) ability in
      let log1 := log cs ++ [description eff] in
      match damage_multiplier eff with
      | Some mult =>
          base_damage <- _calculate_enemy_damage e ;;
          special_damage <- lift (PyFloat.int_mul base_damage mult
                                  ≫= PyFloat.to_int) ;;
          let n := Z.to_nat (default 1 (hits eff)) in
          let '(total_damage, hp) :=
            hit_loop n special_damage (player_defense p)
                     (0, Character.current_hp p) in
          ret (with_player_enemy_log (set_player_hp hp p) e
                 (log1 ++ [Character.name p +:+ " takes "
                             +:+ pretty total_damage +:+ " damage from "
                             +:+ ability +:+ "!"]) cs)
      | None =>
          if bool_decide (effect eff = Some "stun") then
            ret (with_player_enemy_log p e
                   (log1 ++ [Character.name p
                               +:+ " is intimidated and loses next turn!"])
                   cs)
          else if bool_decide (effect eff = Some "buff") then
            boosted <- lift (PyFloat.int_mul (attack e) PyFloat.f1_1
                             ≫= PyFloat.to_int) ;;
            ret (with_player_enemy_log p (set_enemy_attack boosted e)
                   (log1 ++ [name e +:+ "'s attack power increases!"]) cs)
          else if bool_decide (effect eff = Some "poison") then
            let poison_damage := 5 in
            ret (with_player_enemy_log
                   (set_player_hp
                      (Z.max 0 (Character.current_hp p - poison_damage)) p)
                   e
                   (log1 ++ ["Poison deals " +:+ pretty poison_damage
                               +:+ " additional damage!"]) cs)
          else ret (with_player_enemy_log p e log1 cs)
      end
  end.

Definition enemy_turn (cs : CombatState) : M CombatState :=
  let p := player cs in
  let e := enemy cs in
  act <- _determine_enemy_action e p ;;
  match act with
  | Attack =>
      damage <- _calculate_enemy_damage e ;;
      let defending := player_defending cs in
      let damage := if defending then Z.max 1 (damage `div` 2) else damage in
      let log1 :=
        if defending
        then log cs ++ [Character.name p
                          +:+ "'s defense reduces incoming damage!"]
        else log cs in
      let final_damage := Z.max 1 (damage - player_defense p) in
      let p' := set_player_hp
                  (Z.max 0 (Character.current_hp p - final_damage)) p in
      let log2 := log1 ++
        [name e +:+ " attacks " +:+ Character.name p +:+ " for "
           +:+ pretty final_damage +:+ " damage!"] in
      if Character.current_hp p' <=? 0 then
        ret {| player := p'; enemy := e; turn := turn cs; round := round cs;
               status := "defeat";
               log := log2 ++ [Character.name p +:+ " has been defeated!"];
               player_defending := false |}
      else
        ret {| player := p'; enemy := e; turn := "player";
               round := round cs + 1; status := status cs; log := log2;
               player_defending := false |}
  | Special =>
      cs' <- _execute_enemy_special_ability cs ;;
      ret {| player := player cs'; enemy := enemy cs'; turn := "player";
             round := round cs' + 1; status := status cs'; log := log cs';
             player_defending := player_defending cs' |}
  end.

(** Both combatants have their hit points between 0 and their maximum. *)
Definition hp_in_range (cs : CombatState) : Prop :=
  0 ≤ Character.current_hp (player cs) ≤ Character.max_hp (player cs) ∧
  0 ≤ current_hp (enemy cs) ≤ max_hp (enemy cs).


End Combat.

(** ** quest_system.py *)

Module Quest.

Import Random.

(** A creature dict. The bestiary entries carry no ['max_hp'] and
    ['current_hp'] keys; scaling adds them. ['special_abilities'] holds a
    reference to a list object: a dict copy shares the list. *)
Record Creature := {
  name : string;
  description : string;
  difficulty : string;
  hp : Z;
  attack : Z;
  defense : Z;
  special_abilities : nat;
  lore : string;
  max_hp : option Z;
  current_hp : option Z
}.

(** The objects that quest generation allocates and mutates: creature
    dicts and ability lists, addressed by position. *)
Record Store := {
  dicts : list Creature;
  lists : list (list string)
}.

Definition empty_store : Store := {| dicts := []; lists := [] |}.

Record Template := {
  type : string;
  title_format : string;
  difficulty_modifier : PyFloat.float;
  min_players : option Z;
  max_players : option Z;
  rewards_multiplier : option PyFloat.float
}.

Record QuestSystem := {
  quest_templates : list Template;
  ancient_creatures : list nat;
  quest_givers : list (string * string)
}.

Definition solo_template (ty title : string) (m : PyFloat.float) : Template :=
  {| type := ty; title_format := title; difficulty_modifier := m;
     min_players := None; max_players := None; rewards_multiplier := None |}.

Definition _initialize_quest_templates : list Template :=
  [ solo_template "hunt" "Hunt the {creature}" PyFloat.f1_0;
    solo_template "protect" "Protect {location} from {creature}" PyFloat.f1_2;
    solo_template "investigate" "Investigate {creature} Sightings"
                  PyFloat.f0_9;
    solo_template "urgent" "URGENT: {creature} Attack!" PyFloat.f1_5 ].

(** The literal of [_initialize_ancient_creatures], one row per dict:
    name, description, difficulty, hp, attack, defense, abilities, lore. *)
Definition bestiary_rows
  : list (string * string * string * Z * Z * Z * list string * string) :=
  [ ("Tyrannosaurus Rex", "The apex predator of the ancient world",
     "legendary", 200, 25, 15, ["Crushing Bite"; "Intimidating Roar"],
     "The king of all predators has returned from extinction");
    ("Woolly Mammoth", "Massive ancient elephant with deadly tusks",
     "hard", 180, 20, 18, ["Tusk Charge"; "Trumpet Call"],
     "These giants once roamed frozen lands");
    ("Saber-tooth Tiger", "Fierce predator with razor-sharp fangs",
     "medium", 120, 22, 12, ["Pounce"; "Saber Strike"],
     "Swift and deadly hunter of the ice age");
    ("Cave Bear", "Enormous bear from prehistoric times",
     "medium", 140, 18, 16, ["Claw Swipe"; "Bear Hug"],
     "Massive bears that once ruled mountain caves");
    ("Giant Ground Sloth", "Deceptively dangerous prehistoric giant",
     "easy", 100, 15, 14, ["Heavy Slam"; "Thick Hide"],
     "Slow but incredibly strong ancient herbivore");
    ("Terror Bird", "Flightless predatory bird of enormous size",
     "medium", 110, 20, 10, ["Piercing Beak"; "Swift Strike"],
     "These giant birds were apex predators in their time");
    ("Dire Wolf", "Pack hunter larger than modern wolves",
     "easy", 80, 16, 12, ["Pack Howl"; "Bite and Hold"],
     "Ancestors of modern wolves, but much larger and fiercer");
    ("Megalania", "Giant monitor lizard with venomous bite",
     "hard", 160, 19, 16, ["Venomous Bite"; "Tail Whip"],
     "Massive lizard that dominated ancient Australia") ].

(** Evaluating one dict display: the ability list is allocated, then the
    dict that refers to it. *)
Definition alloc_creature
    (row : string * string * string * Z * Z * Z * list string * string)
    (st : Store) : nat * Store :=
  let '(nm, descr, diff, h, a, d, abil, lr) := row in
  let l := length (lists st) in
  let c := {| name := nm; description := descr; difficulty := diff;
              hp := h; attack := a; defense := d; special_abilities := l;
              lore := lr; max_hp := None; current_hp := None |} in
  (length (dicts st),
   {| dicts := dicts st ++ [c]; lists := lists st ++ [abil] |}).

Fixpoint alloc_creatures
    (rows : list (string * string * string * Z * Z * Z * list string * string))
    (st : Store) : list nat * Store :=
  match rows with
  | [] => ([], st)
  | row :: rest =>
      let '(r, st1) := alloc_creature row st in
      let '(rs, st2) := alloc_creatures rest st1 in
      (r :: rs, st2)
  end.

Definition _initialize_ancient_creatures (st : Store) : list nat * Store :=
  alloc_creatures bestiary_rows st.

Definition _initialize_quest_givers : list (string * string) :=
  [ ("Captain Marcus", "Royal Guard Captain");
    ("Elder Sarah", "Village Elder");
    ("Scout Tobias", "Guild Scout");
    ("Merchant Willem", "Trade Master");
    ("Priestess Elena", "Temple Keeper");
    ("Hunter Gareth", "Senior Monster Hunter");
    ("Scholar Aramis", "Royal Historian");
    ("Knight Commander Lyra", "Knight Commander") ].

(** [QuestSystem()] *)
Definition new_quest_system (st : Store) : QuestSystem * Store :=
  let '(refs, st') := _initialize_ancient_creatures st in
  ({| quest_templates := _initialize_quest_templates;
      ancient_creatures := refs;
      quest_givers := _initialize_quest_givers |}, st').

(** [[c for c in refs if keep(c['difficulty'])]]: the selected references,
    not copies. *)
Fixpoint select_refs (keep : string → bool) (st : Store) (refs : list nat)
  : option (list nat) :=
  match refs with
  | [] => Some []
  | r :: rest =>
      c ← dicts st !! r;
      sel ← select_refs keep st rest;
      Some (if keep (difficulty c) then r :: sel else sel)
  end.

Definition one_of (ds : list string) (d : string) : bool :=
  bool_decide (d ∈ ds).

Definition set_scaled (h a d : Z) (c : Creature) : Creature :=
  {| name := name c; description := description c;
     difficulty := difficulty c; hp := h; attack := a; defense := d;
     special_abilities := special_abilities c; lore := lore c;
     max_hp := Some h; current_hp := Some h |}.

(** [int(z * x)] *)
Definition scale (z : Z) (x : PyFloat.float) : option Z :=
  PyFloat.int_mul z x ≫= PyFloat.to_int.

(** [_select_creature_for_player]: the result is the reference of the new
    dict made by [.copy()]; the assignments that follow go to that dict. *)
Definition _select_creature_for_player (qs : QuestSystem) (level : Z)
    (st : Store) : M (nat * Store) :=
  suitable_creatures <- lift (
    if level <=? 2 then
      select_refs (one_of ["easy"]) st (ancient_creatures qs)
    else if level <=? 5 then
      select_refs (one_of ["easy"; "medium"]) st (ancient_creatures qs)
    else if level <=? 8 then
      select_refs (one_of ["medium"; "hard"]) st (ancient_creatures qs)
    else Some (ancient_creatures qs)) ;;
  chosen <- choice suitable_creatures ;;
  template <- lift (dicts st !! chosen) ;;
  let creature := length (dicts st) in
  level_modifier <- lift (PyFloat.int_mul (level - 1) PyFloat.f0_1
                          ≫= PyFloat.int_add 1) ;;
  h <- lift (scale (hp template) level_modifier) ;;
  a <- lift (scale (attack template) level_modifier) ;;
  d <- lift (scale (defense template) level_modifier) ;;
  ret (creature,
       {| dicts := dicts st ++ [set_scaled h a d template];
          lists := lists st |}).

Definition _generate_location : M string :=
  choice [ "near the Ancient Forest"; "in the Forgotten Ruins";
           "at the Mountain Pass"; "by the Mystic Lake";
           "in the Dark Caverns"; "at the Village Outskirts";
           "near the Old Watchtower"; "in the Haunted Valley";
           "at the Crossroads"; "by the River Bend"; "in the Stone Circle";
           "near the Abandoned Mine"; "at the Merchant's Route";
           "in the Whispering Woods"; "by the Crystal Falls" ].

Record Rewards := {
  gold : Z;
  experience : Z;
  items : list string
}.

Definition difficulty_multipliers : gmap string PyFloat.float :=
  list_to_map [ ("easy", PyFloat.f0_8); ("medium", PyFloat.f1_0);
                ("hard", PyFloat.f1_3); ("legendary", PyFloat.f1_6) ].

Definition _generate_reward_items (c : Creature) : M (list string) :=
  let possible_items :=
    [ name c +:+ " Fang"; name c +:+ " Hide"; name c +:+ " Claw";
      "Ancient Bone Fragment"; "Prehistoric Essence"; "Monster Trophy";
      "Health Potion"; "Strength Elixir" ] in
  num_items <- randint 1 2 ;;
  sample possible_items
         (Z.to_nat (Z.min num_items (Z.of_nat (length possible_items)))).

Definition _calculate_rewards (player : Character.character) (c : Creature)
    (difficulty_modifier : PyFloat.float) : M Rewards :=
  let base_gold := 50 + Character.level player * 25 in
  let base_exp := 40 + Character.level player * 20 in
  let multiplier :=
    PyFloat.mul (default PyFloat.f1_0 (difficulty_multipliers !! difficulty c))
                difficulty_modifier in
  g <- lift (scale base_gold multiplier) ;;
  e <- lift (scale base_exp multiplier) ;;
  r <- random ;;
  if PyFloat.ltb r PyFloat.f0_3 then
    its <- _generate_reward_items c ;;
    ret {| gold := g; experience := e; items := its |}
  else ret {| gold := g; experience := e; items := [] |}.

(** The reward figure as the specification words it: the base amount is
    multiplied by the difficulty multiplier times the template's
    modifier, in binary64 arithmetic, and the product is truncated to an
    integer. The truncation is written on the value [±m·2^e] of the
    product, as the integer quotient rounded toward zero; an infinite
    product or a NaN has no integer. *)
Definition spec_truncate (x : PyFloat.float) : option Z :=
  match x with
  | S754_zero _ => Some 0
  | S754_finite s m e =>
      Some (Z.quot ((if s then - Z.pos m else Z.pos m) * 2 ^ Z.max 0 e)
                   (2 ^ Z.max 0 (- e)))
  | S754_infinity _ | S754_nan => None
  end.

Definition spec_reward_amount (base : Z) (k tm : PyFloat.float)
  : option Z :=
  spec_truncate
    (SFmul 53 1024 (binary_normalize 53 1024 base 0 false)
           (SFmul 53 1024 k tm)).

(** The loop of [complete_quest] over the reward's item names: each is
    appended to [player['inventory']['items']], a [KeyError] when the
    inventory has no such category. *)
Fixpoint add_reward_items (names : list string)
    (inv : gmap string (list Character.item))
  : option (gmap string (list Character.item)) :=
  match names with
  | [] => Some inv
  | item_name :: rest =>
      held ← inv !! "items";
      add_reward_items rest
        (<["items" := held ++ [{| Character.item_name := item_name;
                                  Character.item_type := "items" |}]]> inv)
  end.

(** [complete_quest], on the ['reward'] of the quest. *)
Definition complete_quest (reward : Rewards) (player : Character.character)
  : option Character.character :=
  inv ← add_reward_items (items reward) (Character.inventory player);
  Some {| Character.name := Character.name player;
          Character.class := Character.class player;
          Character.level := Character.level player;
          Character.experience := Character.experience player
                                  + experience reward;
          Character.experience_to_next :=
            Character.experience_to_next player;
          Character.gold := Character.gold player + gold reward;
          Character.stats := Character.stats player;
          Character.current_hp := Character.current_hp player;
          Character.max_hp := Character.max_hp player;
          Character.abilities := Character.abilities player;
          Character.inventory := inv;
          Character.quests_completed :=
            Character.quests_completed player + 1;
          Character.monsters_defeated :=
            Character.monsters_defeated player + 1 |}.

End Quest.

(** ** multiplayer_system.py *)

Module Multiplayer.

Import Random.

(** The [GameSession] dataclass. [created_at] is the clock reading taken
    at creation, in whole seconds; [current_quest] and
    [shared_story_context] are not touched by the operations below and are
    left out. *)
Record GameSession := {
  session_id : string;
  host_player : string;
  players : list Character.character;
  max_players : Z;
  status : string;
  created_at : Z
}.

(** The two dictionaries of [MultiplayerSystem]. *)
Record System := {
  active_sessions : gmap string GameSession;
  player_sessions : gmap string string
}.

Definition empty : System :=
  {| active_sessions := ∅; player_sessions := ∅ |}.

Definition team_template (ty title : string) (lo hi : Z)
    (m r : PyFloat.float) : Quest.Template :=
  {| Quest.type := ty; Quest.title_format := title;
     Quest.difficulty_modifier := m;
     Quest.min_players := Some lo; Quest.max_players := Some hi;
     Quest.rewards_multiplier := Some r |}.

Definition multiplayer_quests : list Quest.Template :=
  [ team_template "raid" "Raid the {creature} Den" 2 4
                  PyFloat.f1_5 PyFloat.f1_3;
    team_template "siege" "Siege of the Ancient {creature}" 3 5
                  PyFloat.f2_0 PyFloat.f1_5;
    team_template "rescue" "Rescue Mission: {creature} Captives" 2 4
                  PyFloat.f1_3 PyFloat.f1_2;
    team_template "defense" "Defend Against {creature} Horde" 2 6
                  PyFloat.f1_4 PyFloat.f1_25 ].

(** [create_session]: [sid] is the identifier cut from a fresh UUID and
    [now] the reading of the clock. There is no failing path. *)
Definition create_session (host : Character.character) (max_pl : Z)
    (sid : string) (now : Z) (sys : System) : string * System :=
  let session := {| session_id := sid;
                    host_player := Character.name host;
                    players := [host]; max_players := max_pl;
                    status := "waiting"; created_at := now |} in
  (sid, {| active_sessions := <[sid := session]> (active_sessions sys);
           player_sessions :=
             <[Character.name host := sid]> (player_sessions sys) |}).

Definition with_players (ps : list Character.character) (s : GameSession)
  : GameSession :=
  {| session_id := session_id s; host_player := host_player s;
     players := ps; max_players := max_players s; status := status s;
     created_at := created_at s |}.

Definition with_host (h : string) (s : GameSession) : GameSession :=
  {| session_id := session_id s; host_player := h;
     players := players s; max_players := max_players s; status := status s;
     created_at := created_at s |}.

Definition with_status (v : string) (s : GameSession) : GameSession :=
  {| session_id := session_id s; host_player := host_player s;
     players := players s; max_players := max_players s; status := v;
     created_at := created_at s |}.

Definition join_session (sid : string) (player : Character.character)
    (sys : System) : bool * System :=
  match active_sessions sys !! sid with
  | None => (false, sys)
  | Some session =>
      if max_players session <=? Z.of_nat (length (players session))
      then (false, sys)
      else if negb (String.eqb (status session) "waiting") then (false, sys)
      else if bool_decide (is_Some (player_sessions sys
                                      !! Character.name player))
      then (false, sys)
      else
        (true,
         {| active_sessions :=
              <[sid := with_players (players session ++ [player]) session]>
                (active_sessions sys);
            player_sessions :=
              <[Character.name player := sid]> (player_sessions sys) |})
  end.

(** [leave_session]: the subscript [active_sessions[session_id]] raises
    [KeyError] when the index names a session that does not exist. *)
Definition leave_session (player_name : string) (sys : System)
  : option (bool * System) :=
  match player_sessions sys !! player_name with
  | None => Some (false, sys)
  | Some sid =>
      session ← active_sessions sys !! sid;
      let remaining :=
        filter (λ p, Character.name p ≠ player_name) (players session) in
      let session1 := with_players remaining session in
      let index := delete player_name (player_sessions sys) in
      if String.eqb (host_player session) player_name then
        match remaining with
        | p :: _ =>
            Some (true,
                  {| active_sessions :=
                       <[sid := with_host (Character.name p) session1]>
                         (active_sessions sys);
                     player_sessions := index |})
        | [] =>
            Some (true,
                  {| active_sessions := delete sid (active_sessions sys);
                     player_sessions := index |})
        end
      else
        match remaining with
        | [] =>
            Some (true,
                  {| active_sessions := delete sid (active_sessions sys);
                     player_sessions := index |})
        | _ =>
            Some (true,
                  {| active_sessions := <[sid := session1]>
                                          (active_sessions sys);
                     player_sessions := index |})
        end
  end.

Definition start_session (sid : string) (sys : System) : bool * System :=
  match active_sessions sys !! sid with
  | None => (false, sys)
  | Some session =>
      if negb (String.eqb (status session) "waiting") then (false, sys)
      else if Z.of_nat (length (players session)) <? 2 then (false, sys)
      else
        (true,
         {| active_sessions :=
              <[sid := with_status "in_progress" session]>
                (active_sessions sys);
            player_sessions := player_sessions sys |})
  end.

Definition get_session (sid : string) (sys : System) : option GameSession :=
  active_sessions sys !! sid.

Definition get_player_session (player_name : string) (sys : System)
  : option GameSession :=
  sid ← player_sessions sys !! player_name;
  active_sessions sys !! sid.

(** The second loop of [cleanup_expired_sessions], for one expired id. *)
Definition remove_expired (sys : System) (sid : string) : option System :=
  session ← active_sessions sys !! sid;
  Some {| active_sessions := delete sid (active_sessions sys);
          player_sessions :=
            foldl (λ index p, delete (Character.name p) index)
                  (player_sessions sys) (players session) |}.

Fixpoint remove_all_expired (sys : System) (expired : list string)
  : option System :=
  match expired with
  | [] => Some sys
  | sid :: rest => sys' ← remove_expired sys sid; remove_all_expired sys' rest
  end.

(** [cleanup_expired_sessions]: [now] is the reading of the clock. The
    expired identifiers come in key order, not in insertion order; the
    removals of distinct sessions commute. *)
Definition cleanup_expired_sessions (max_age_hours : Z) (now : Z)
    (sys : System) : option (Z * System) :=
  let expired_sessions :=
    (map_to_list
       (filter (λ kv, max_age_hours * 3600 < now - created_at kv.2)
               (active_sessions sys))).*1 in
  sys' ← remove_all_expired sys expired_sessions;
  Some (Z.of_nat (length expired_sessions), sys').

(** [creature['special_abilities'].append(x)]: the list object itself is
    extended. *)
Definition append_ability (l : nat) (x : string) (st : Quest.Store)
  : Quest.Store :=
  {| Quest.dicts := Quest.dicts st;
     Quest.lists := alter (λ abilities, abilities ++ [x]) l (Quest.lists st) |}.

(** [_scale_creature_for_multiplayer]: every assignment goes to the dict
    that [creature] refers to. *)
Definition _scale_creature_for_multiplayer (creature : nat) (num_players : Z)
    (difficulty_modifier : PyFloat.float) (st : Quest.Store)
  : option Quest.Store :=
  player_scaling ← PyFloat.int_mul (num_players - 1) PyFloat.f0_4
                   ≫= PyFloat.int_add 1;
  let total_modifier := PyFloat.mul player_scaling difficulty_modifier in
  c ← Quest.dicts st !! creature;
  h ← Quest.scale (Quest.hp c) total_modifier;
  a ← Quest.scale (Quest.attack c) (PyFloat.mul total_modifier PyFloat.f0_8);
  d ← Quest.scale (Quest.defense c) (PyFloat.mul total_modifier PyFloat.f0_6);
  let st1 :=
    {| Quest.dicts := <[creature := Quest.set_scaled h a d c]> (Quest.dicts st);
       Quest.lists := Quest.lists st |} in
  let st2 := if 3 <=? num_players
             then append_ability (Quest.special_abilities c) "Area Attack" st1
             else st1 in
  let st3 := if 4 <=? num_players
             then append_ability (Quest.special_abilities c) "Regeneration" st2
             else st2 in
  Some st3.

(** [sum(p['level'] for p in players) / len(players)] *)
Definition average_level (ps : list Character.character)
  : option PyFloat.float :=
  PyFloat.truediv (foldr Z.add 0 (Character.level <$> ps))
                  (Z.of_nat (length ps)).

(** The creature of a team quest, as [generate_multiplayer_quest] obtains
    it: selected for the truncated average level, then scaled for the
    roster size. *)
Definition team_creature (qs : Quest.QuestSystem)
    (ps : list Character.character) (template : Quest.Template)
    (st : Quest.Store) : M (nat * Quest.Store) :=
  avg_level <- lift (average_level ps ≫= PyFloat.to_int) ;;
  selected <- Quest._select_creature_for_player qs avg_level st ;;
  let creature := selected.1 in
  st2 <- lift (_scale_creature_for_multiplayer creature
                 (Z.of_nat (length ps))
                 (Quest.difficulty_modifier template) selected.2) ;;
  ret (creature, st2).

Definition _calculate_multiplayer_rewards (ps : list Character.character)
    (c : Quest.Creature) (rewards_multiplier : PyFloat.float)
  : M Quest.Rewards :=
  avg_level <- lift (average_level ps) ;;
  base_gold <- lift (PyFloat.mul_int avg_level 20 ≫= PyFloat.int_add 40) ;;
  base_exp <- lift (PyFloat.mul_int avg_level 15 ≫= PyFloat.int_add 30) ;;
  let multiplier :=
    PyFloat.mul (default PyFloat.f1_0
                   (Quest.difficulty_multipliers !! Quest.difficulty c))
                rewards_multiplier in
  g <- lift (PyFloat.to_int (PyFloat.mul base_gold multiplier)) ;;
  e <- lift (PyFloat.to_int (PyFloat.mul base_exp multiplier)) ;;
  r <- random ;;
  if PyFloat.ltb r PyFloat.f0_5 then
    k <- randint 1 2 ;;
    bonus <- sample [ "Teamwork Medal"; "Cooperation Token";
                      "Guild Honor Badge"; "Multiplayer Achievement" ]
                    (Z.to_nat k) ;;
    ret {| Quest.gold := g; Quest.experience := e; Quest.items := bonus |}
  else ret {| Quest.gold := g; Quest.experience := e; Quest.items := [] |}.

Definition suitable_quests (num_players : Z) : list Quest.Template :=
  List.filter (λ q, match Quest.min_players q, Quest.max_players q with
                    | Some lo, Some hi =>
                        (lo <=? num_players) && (num_players <=? hi)
                    | _, _ => false
                    end) multiplayer_quests.

(** The quest dict of [generate_multiplayer_quest], without the
    ['title'] and ['description'] strings; ['target'] refers to the scaled
    creature dict. *)
Record TeamQuest := {
  quest_type : string;
  giver : string;
  target : nat;
  location : string;
  quest_difficulty : string;
  multiplayer : bool;
  required_players : Z;
  reward : Quest.Rewards
}.

(** [generate_multiplayer_quest]: a new [QuestSystem], hence a new
    bestiary, is built on every call. *)
Definition generate_multiplayer_quest (session : GameSession)
    (st : Quest.Store) : M (TeamQuest * Quest.Store) :=
  let built := Quest.new_quest_system st in
  let quest_system := built.1 in
  let num_players := Z.of_nat (length (players session)) in
  template <- choice (match suitable_quests num_players with
                      | [] => Quest.quest_templates quest_system
                      | suitable => suitable
                      end) ;;
  made <- team_creature quest_system (players session) template built.2 ;;
  quest_giver <- choice (Quest.quest_givers quest_system) ;;
  loc <- Quest._generate_location ;;
  creature <- lift (Quest.dicts made.2 !! made.1) ;;
  rw <- _calculate_multiplayer_rewards (players session) creature
          (default PyFloat.f1_0 (Quest.rewards_multiplier template)) ;;
  ret ({| quest_type := Quest.type template;
          giver := quest_giver.1 +:+ ", " +:+ quest_giver.2;
          target := made.1;
          location := loc;
          quest_difficulty := Quest.difficulty creature;
          multiplayer := true;
          required_players := default 2 (Quest.min_players template);
          reward := rw |}, made.2).

(** [sorted(players, key=agility, reverse=True)] is stable: players of
    equal agility keep their roster order. The sort below inserts each
    player in front of the first one that is not more agile. *)
Fixpoint insert_by_agility (x : Z * Character.character)
    (l : list (Z * Character.character)) : list (Z * Character.character) :=
  match l with
  | [] => [x]
  | y :: l' =>
      if y.1 <=? x.1 then x :: y :: l' else y :: insert_by_agility x l'
  end.

Definition sort_by_agility (l : list (Z * Character.character))
  : list (Z * Character.character) :=
  foldr insert_by_agility [] l.

(** The key function [p['stats']['agility']] applied to every player:
    [KeyError] when one has no agility. *)
Definition agility_keys (ps : list Character.character)
  : option (list (Z * Character.character)) :=
  mapM (λ p, a ← Character.stats p !! "agility"; Some (a, p)) ps.

Definition _determine_turn_order (ps : list Character.character)
  : option (list string) :=
  keyed ← agility_keys ps;
  let sorted_players := (sort_by_agility keyed).*2 in
  let turn_order := Character.name <$> sorted_players in
  Some (turn_order ≫= λ player_name, [player_name; "enemy"]).

Record TeamCombatState := {
  tc_session_id : string;
  tc_players : list Character.character;
  tc_enemy : Combat.Enemy;
  turn_order : list string;
  current_turn : Z;
  tc_round : Z;
  tc_status : string;
  tc_log : list string
}.

Definition create_team_combat_state (session : GameSession)
    (enemy : Combat.Enemy) : option TeamCombatState :=
  order ← _determine_turn_order (players session);
  Some {| tc_session_id := session_id session;
          tc_players := players session;
          tc_enemy := enemy;
          turn_order := order;
          current_turn := 0;
          tc_round := 1;
          tc_status := "ongoing";
          tc_log := ["Team combat begins! "
                       +:+ pretty (Z.of_nat (length (players session)))
                       +:+ " hunters vs " +:+ Combat.name enemy] |}.

(** The operations of the session manager, as a caller issues them. *)
Inductive op :=
| CreateSession (host : Character.character) (max_pl : Z) (sid : string)
                (now : Z)
| JoinSession (sid : string) (player : Character.character)
| LeaveSession (player_name : string)
| StartSession (sid : string)
| CleanupExpiredSessions (max_age_hours : Z) (now : Z).

Definition step (sys : System) (o : op) : option System :=
  match o with
  | CreateSession host max_pl sid now =>
      Some (create_session host max_pl sid now sys).2
  | JoinSession sid player => Some (join_session sid player sys).2
  | LeaveSession player_name => snd <$> leave_session player_name sys
  | StartSession sid => Some (start_session sid sys).2
  | CleanupExpiredSessions max_age_hours now =>
      snd <$> cleanup_expired_sessions max_age_hours now sys
  end.

Fixpoint run (sys : System) (ops : list op) : option System :=
  match ops with
  | [] => Some sys
  | o :: rest => sys' ← step sys o; run sys' rest
  end.

(** [nm] is the name of a player on the roster of [s]. *)
Definition on_roster (nm : string) (s : GameSession) : Prop :=
  nm ∈ Character.name <$> players s.

(** Rosters and index agree: a name is on at most one roster, and the
    index maps a name to a session id exactly when that session exists
    with the name on its roster. *)
Definition consistent (sys : System) : Prop :=
  (∀ nm sid1 sid2 s1 s2,
     active_sessions sys !! sid1 = Some s1 →
     active_sessions sys !! sid2 = Some s2 →
     on_roster nm s1 → on_roster nm s2 → sid1 = sid2) ∧
  (∀ nm sid,
     player_sessions sys !! nm = Some sid ↔
     ∃ s, active_sessions sys !! sid = Some s ∧ on_roster nm s).

(** A caller that creates a session only for a host who is in none, and
    under an identifier that is not in use. *)
Definition guarded (sys : System) (o : op) : Prop :=
  match o with
  | CreateSession host _ sid _ =>
      player_sessions sys !! Character.name host = None ∧
      active_sessions sys !! sid = None
  | _ => True
  end.

(** Every operation of the sequence is issued by such a caller. *)
Fixpoint guarded_run (sys : System) (ops : list op) : Prop :=
  match ops with
  | [] => True
  | o :: rest =>
      guarded sys o ∧ ∀ sys', step sys o = Some sys' → guarded_run sys' rest
  end.

End Multiplayer.

(** ** Sample data *)

Module Sample.

(** A character with the magician's starting stats. *)
Definition magician (nm : string) (lvl hp : Z) : Character.character :=
  {| Character.name := nm; Character.class := "magician";
     Character.level := lvl; Character.experience := 0;
     Character.experience_to_next := lvl * 100; Character.gold := 100;
     Character.stats := list_to_map (Character.mk_stats 8 10 20 8 18 80);
     Character.current_hp := hp; Character.max_hp := 80;
     Character.abilities := ["Fireball"; "Magic Shield"; "Arcane Blast"];
     Character.inventory := ∅;
     Character.quests_completed := 0; Character.monsters_defeated := 0 |}.

(** A character with the sniper's starting stats. *)
Definition sniper (nm : string) (lvl hp : Z) : Character.character :=
  {| Character.name := nm; Character.class := "sniper";
     Character.level := lvl; Character.experience := 0;
     Character.experience_to_next := lvl * 100; Character.gold := 100;
     Character.stats := list_to_map (Character.mk_stats 12 20 14 10 8 90);
     Character.current_hp := hp; Character.max_hp := 90;
     Character.abilities := ["Eagle Eye"; "Piercing Shot"; "Stealth"];
     Character.inventory := ∅;
     Character.quests_completed := 0; Character.monsters_defeated := 0 |}.

(** The bestiary's Tyrannosaurus Rex and Megalania at level 1. *)
Definition tyrannosaurus : Combat.Enemy :=
  {| Combat.name := "Tyrannosaurus Rex"; Combat.attack := 25;
     Combat.defense := Some 15; Combat.current_hp := 200;
     Combat.max_hp := 200;
     Combat.special_abilities := ["Crushing Bite"; "Intimidating Roar"] |}.

Definition megalania : Combat.Enemy :=
  {| Combat.name := "Megalania"; Combat.attack := 19;
     Combat.defense := Some 16; Combat.current_hp := 160;
     Combat.max_hp := 160;
     Combat.special_abilities := ["Venomous Bite"; "Tail Whip"] |}.

Definition combat (p : Character.character) (e : Combat.Enemy)
    (whose : string) : Combat.CombatState :=
  {| Combat.player := p; Combat.enemy := e; Combat.turn := whose;
     Combat.round := 1; Combat.status := "ongoing"; Combat.log := [];
     Combat.player_defending := false |}.

(** Draws that make the enemy use its first special ability with a damage
    variance of 0: [random()] is 0.0, [choice] takes position 0 and
    [randint(-2, 2)] answers [-2 + 2]. *)
Definition special_draws : Random.rng := [0%N; 0%N; 2%N].

(** Three level-3 players in a started session, and draws that pick the
    first suitable template, the first suitable creature, the first quest
    giver and location, and no bonus items. *)
Definition party : list Character.character :=
  [magician "Rin" 3 80; sniper "Ann" 3 90; sniper "Bob" 3 90].

Definition team_session : Multiplayer.GameSession :=
  {| Multiplayer.session_id := "A1B2C3D4";
     Multiplayer.host_player := "Rin";
     Multiplayer.players := party;
     Multiplayer.max_players := 4;
     Multiplayer.status := "in_progress";
     Multiplayer.created_at := 0 |}.

Definition team_draws : Random.rng :=
  [0%N; 0%N; 0%N; 0%N; (2 ^ 52)%N].

(** The Saber-tooth Tiger as the bestiary defines it, its abilities in the
    list object number 2. *)
Definition saber_tooth_tiger : Quest.Creature :=
  {| Quest.name := "Saber-tooth Tiger";
     Quest.description := "Fierce predator with razor-sharp fangs";
     Quest.difficulty := "medium";
     Quest.hp := 120; Quest.attack := 22; Quest.defense := 12;
     Quest.special_abilities := 2%nat;
     Quest.lore := "Swift and deadly hunter of the ice age";
     Quest.max_hp := None; Quest.current_hp := None |}.

(** The Dire Wolf as the bestiary defines it. *)
Definition dire_wolf : Quest.Creature :=
  {| Quest.name := "Dire Wolf";
     Quest.description := "Pack hunter larger than modern wolves";
     Quest.difficulty := "easy";
     Quest.hp := 80; Quest.attack := 16; Quest.defense := 12;
     Quest.special_abilities := 6%nat;
     Quest.lore := "Ancestors of modern wolves, but much larger and fiercer";
     Quest.max_hp := None; Quest.current_hp := None |}.

End Sample.

(** * Properties *)

(** ** The random source *)

Lemma bindM_Some {A B} (m : Random.M A) (k : A → Random.M B) g a g' :
  m g = Some (a, g') → Random.bind m k g = k a g'.
Proof. unfold Random.bind. by intros ->. Qed.

Lemma bindM_None {A B} (m : Random.M A) (k : A → Random.M B) g :
  m g = None → Random.bind m k g = None.
Proof. unfold Random.bind. by intros ->. Qed.

Lemma bindM_inv {A B} (m : Random.M A) (k : A → Random.M B) g b g2 :
  Random.bind m k g = Some (b, g2) →
  ∃ a g1, m g = Some (a, g1) ∧ k a g1 = Some (b, g2).
Proof.
  unfold Random.bind. destruct (m g) as [[a g1]|]; [|done]. eauto.
Qed.

Lemma liftM_Some {A} (o : option A) a g :
  o = Some a → Random.lift o g = Some (a, g).
Proof. by intros ->. Qed.

Lemma liftM_inv {A} (o : option A) a g g' :
  Random.lift o g = Some (a, g') → o = Some a ∧ g' = g.
Proof. unfold Random.lift. destruct o; naive_solver. Qed.

Lemma next_total g : ∃ w g', Random.next g = Some (w, g').
Proof. destruct g; simpl; eauto. Qed.

Lemma random_total g : ∃ r g', Random.random g = Some (r, g').
Proof.
  unfold Random.random. destruct (next_total g) as (w & g' & Hw).
  rewrite (bindM_Some _ _ _ _ _ Hw). unfold Random.ret. eauto.
Qed.

(** [randint a b] answers inside [[a, b]] whenever the range is not empty. *)
Lemma randint_range a b g :
  a ≤ b → ∃ r g', Random.randint a b g = Some (r, g') ∧ a ≤ r ≤ b.
Proof.
  intros Hab. unfold Random.randint.
  destruct (Z.ltb_spec b a) as [?|_]; [lia|].
  destruct (next_total g) as (w & g' & Hw).
  rewrite (bindM_Some _ _ _ _ _ Hw). unfold Random.ret.
  eexists _, _. split; [done|].
  pose proof (Z.mod_pos_bound (Z.of_N w) (b - a + 1)). lia.
Qed.

Lemma randint_inv a b g r g' :
  Random.randint a b g = Some (r, g') → a ≤ r ≤ b.
Proof.
  unfold Random.randint. destruct (Z.ltb_spec b a) as [?|Hab]; [done|].
  intros (w & g1 & _ & Hr)%bindM_inv. unfold Random.ret in Hr.
  injection Hr as <- _.
  pose proof (Z.mod_pos_bound (Z.of_N w) (b - a + 1)). lia.
Qed.

Lemma choice_total {A} (l : list A) g :
  l ≠ [] → ∃ x g', Random.choice l g = Some (x, g') ∧ x ∈ l.
Proof.
  intros Hl. destruct l as [|y l]; [done|].
  unfold Random.choice. destruct (next_total g) as (w & g' & Hw).
  rewrite (bindM_Some _ _ _ _ _ Hw).
  set (i := (N.to_nat w `mod` length (y :: l))%nat).
  assert (i < length (y :: l))%nat as Hi
    by (apply Nat.mod_upper_bound; simpl; lia).
  destruct (lookup_lt_is_Some_2 _ _ Hi) as [x Hx].
  exists x, g'. rewrite (liftM_Some _ _ _ Hx). split; [done|].
  by eapply list_elem_of_lookup_2.
Qed.

Lemma choice_inv {A} (l : list A) g x g' :
  Random.choice l g = Some (x, g') → x ∈ l.
Proof.
  destruct l as [|y l]; [done|]. unfold Random.choice.
  intros (w & g1 & _ & [Hx _]%liftM_inv)%bindM_inv.
  by eapply list_elem_of_lookup_2.
Qed.

Lemma sample_total {A} (k : nat) : ∀ (l : list A) g,
  (k ≤ length l)%nat → ∃ xs g', Random.sample l k g = Some (xs, g').
Proof.
  induction k as [|k IH]; intros l g Hk; simpl.
  { unfold Random.ret. eauto. }
  destruct l as [|y l]; [simpl in Hk; lia|].
  destruct (next_total g) as (w & g1 & Hw).
  rewrite (bindM_Some _ _ _ _ _ Hw).
  set (i := (N.to_nat w `mod` length (y :: l))%nat).
  assert (i < length (y :: l))%nat as Hi
    by (apply Nat.mod_upper_bound; simpl; lia).
  destruct (lookup_lt_is_Some_2 _ _ Hi) as [x Hx].
  rewrite (bindM_Some _ _ _ _ _ (liftM_Some _ _ _ Hx)).
  destruct (IH (delete i (y :: l)) g1) as (xs & g2 & Hxs).
  { rewrite length_delete; [|by eauto]. simpl in *. lia. }
  rewrite (bindM_Some _ _ _ _ _ Hxs). unfold Random.ret. eauto.
Qed.

(** ** Binary64 arithmetic stays finite on bounded operands *)

Lemma digits2_pos_size p : digits2_pos p = Pos.size p.
Proof. induction p; simpl; congruence. Qed.

Lemma Zdigits2_log2 m : 0 < m → Zdigits2 m = Z.log2 m + 1.
Proof.
  destruct m as [|p|p]; try lia. intros _. simpl.
  rewrite digits2_pos_size. destruct p; simpl; rewrite ?Pos2Z.inj_succ; lia.
Qed.

Lemma Zdigits2_nonneg m : 0 ≤ Zdigits2 m.
Proof. destruct m; simpl; lia. Qed.

Lemma Zdigits2_mono a b : 0 ≤ a ≤ b → Zdigits2 a ≤ Zdigits2 b.
Proof.
  intros [Ha Hab]. destruct (decide (a = 0)) as [->|]; [apply Zdigits2_nonneg|].
  rewrite !Zdigits2_log2 by lia. pose proof (Z.log2_le_mono a b). lia.
Qed.

Lemma Zdigits2_succ a : 0 ≤ a → Zdigits2 (a + 1) ≤ Zdigits2 a + 1.
Proof.
  intros Ha. destruct (decide (a = 0)) as [->|]; [simpl; lia|].
  rewrite !Zdigits2_log2 by lia. fold (Z.succ a).
  pose proof (Z.log2_succ_le a). lia.
Qed.

Lemma Zdigits2_mul a b :
  0 < a → 0 < b → Zdigits2 (a * b) ≤ Zdigits2 a + Zdigits2 b.
Proof.
  intros Ha Hb. rewrite !Zdigits2_log2 by lia.
  pose proof (Z.log2_mul_above a b). lia.
Qed.

Lemma Zdigits2_lt_pow2 a k : 0 ≤ k → Z.abs a < 2 ^ k → Zdigits2 (Z.abs a) ≤ k.
Proof.
  intros Hk Ha. destruct (decide (a = 0)) as [->|]; [simpl; lia|].
  rewrite Zdigits2_log2 by lia.
  assert (Z.log2 (Z.abs a) < k); [|lia].
  apply Z.log2_lt_pow2; lia.
Qed.

Lemma shr_1_spec r :
  0 ≤ shr_m r →
  0 ≤ shr_m (shr_1 r) ∧
  (0 < shr_m (shr_1 r) →
     0 < shr_m r ∧ Zdigits2 (shr_m (shr_1 r)) + 1 = Zdigits2 (shr_m r)).
Proof.
  destruct r as [m b s]. simpl. intros Hm.
  destruct m as [|[p|p|]|p]; simpl; try lia;
    (split; [lia|]; intros _; split; [lia|]; rewrite ?Pos2Z.inj_succ; lia).
Qed.

Lemma iter_shr_1_spec p : ∀ r,
  0 ≤ shr_m r →
  0 ≤ shr_m (SpecFloat.iter_pos shr_1 p r) ∧
  (0 < shr_m (SpecFloat.iter_pos shr_1 p r) →
     0 < shr_m r ∧
     Zdigits2 (shr_m (SpecFloat.iter_pos shr_1 p r)) + Z.pos p = Zdigits2 (shr_m r)).
Proof.
  induction p as [p IH|p IH|]; intros r Hr; simpl.
  - destruct (shr_1_spec r Hr) as [H1 H1'].
    destruct (IH _ H1) as [H2 H2']. destruct (IH _ H2) as [H3 H3'].
    split; [done|]. intros H. destruct (H3' H) as [H4 E3].
    destruct (H2' H4) as [H5 E2]. destruct (H1' H5) as [H6 E1].
    split; [done|]. lia.
  - destruct (IH _ Hr) as [H2 H2']. destruct (IH _ H2) as [H3 H3'].
    split; [done|]. intros H. destruct (H3' H) as [H4 E3].
    destruct (H2' H4) as [H5 E2]. split; [done|]. lia.
  - apply shr_1_spec, Hr.
Qed.

Lemma shr_fexp_spec m e l :
  0 ≤ m →
  0 ≤ shr_m (shr_fexp PyFloat.prec PyFloat.emax m e l).1 ∧
  (0 < shr_m (shr_fexp PyFloat.prec PyFloat.emax m e l).1 →
     Zdigits2 (shr_m (shr_fexp PyFloat.prec PyFloat.emax m e l).1)
       + (shr_fexp PyFloat.prec PyFloat.emax m e l).2
     = Zdigits2 m + e).
Proof.
  intros Hm. unfold shr_fexp, shr.
  assert (shr_m (shr_record_of_loc m l) = m) as Hrec
    by (by destruct l as [|[]]).
  destruct (fexp _ _ _ - e) as [|p|p] eqn:Hn; simpl; rewrite ?Hrec;
    try (split; [done|lia]).
  destruct (iter_shr_1_spec p (shr_record_of_loc m l)) as [H1 H2];
    [by rewrite Hrec|].
  split; [done|]. intros H. destruct (H2 H) as [_ E]. rewrite Hrec in E. lia.
Qed.

Lemma round_nearest_even_spec m l :
  round_nearest_even m l = m ∨ round_nearest_even m l = m + 1.
Proof. destruct l as [|[]]; simpl; auto. destruct (Z.even m); auto. Qed.

(** The rounding step of every operation: a non-negative mantissa of
    magnitude below [2^k] rounds to a zero or to a finite value below
    [2^(k+1)]. *)
Lemma binary_round_aux_bound s m e l k :
  0 ≤ m → Zdigits2 m + e ≤ k → e ≤ k → -1074 ≤ k → k + 1 ≤ 971 →
  PyFloat.magnitude_le (k + 1)
    (binary_round_aux PyFloat.prec PyFloat.emax s m e l).
Proof.
  intros Hm Hd He Hlo Hhi. unfold binary_round_aux.
  pose proof (shr_fexp_spec m e l Hm) as [H1 H1'].
  destruct (shr_fexp PyFloat.prec PyFloat.emax m e l) as [r1 e1] eqn:E1.
  simpl in H1, H1'.
  set (m2 := round_nearest_even (shr_m r1) (loc_of_shr_record r1)).
  assert (0 ≤ m2 ∧ m2 ≤ shr_m r1 + 1) as [Hm2 Hm2'].
  { subst m2. destruct (round_nearest_even_spec (shr_m r1)
                          (loc_of_shr_record r1)) as [-> | ->]; lia. }
  assert (e1 ≤ k) as He1.
  { revert E1. unfold shr_fexp, shr.
    destruct (fexp _ _ _ - e) as [|p|p] eqn:Hn; intros [= <- <-]; try lia.
    revert Hn. unfold fexp, emin, PyFloat.prec, PyFloat.emax.
    pose proof (Zdigits2_nonneg m). lia. }
  assert (Zdigits2 m2 + e1 ≤ k + 1) as Hd2.
  { destruct (decide (shr_m r1 = 0)) as [E0|].
    - assert (Zdigits2 m2 ≤ 1); [|lia].
      transitivity (Zdigits2 1); [|done]. apply Zdigits2_mono. lia.
    - transitivity (Zdigits2 (shr_m r1 + 1) + e1).
      + pose proof (Zdigits2_mono m2 (shr_m r1 + 1)). lia.
      + pose proof (Zdigits2_succ (shr_m r1)). lia. }
  pose proof (shr_fexp_spec m2 e1 loc_Exact Hm2) as [H2 H2'].
  destruct (shr_fexp PyFloat.prec PyFloat.emax m2 e1 loc_Exact)
    as [r2 e2] eqn:E2.
  simpl in H2, H2'.
  destruct (shr_m r2) as [|p|p] eqn:Hr2; simpl; [done| |lia].
  assert (Z.pos (digits2_pos p) + e2 ≤ k + 1) as Hfin.
  { specialize (H2' ltac:(lia)). simpl in H2'. lia. }
  destruct (Z.leb_spec e2 (PyFloat.emax - PyFloat.prec)) as [_|Hov]; simpl.
  - done.
  - unfold PyFloat.emax, PyFloat.prec in Hov. lia.
Qed.

Lemma digits2_pos_iter_xO m d :
  Z.pos (digits2_pos (Pos.iter xO m d)) = Z.pos (digits2_pos m) + Z.pos d.
Proof.
  induction d as [|d IH] using Pos.peano_ind.
  - simpl. lia.
  - rewrite Pos.iter_succ. simpl. lia.
Qed.

Lemma binary_round_bound s m e k :
  Z.pos (digits2_pos m) + e ≤ k → -1074 ≤ k → k + 1 ≤ 971 →
  PyFloat.magnitude_le (k + 1)
    (binary_round PyFloat.prec PyFloat.emax s m e).
Proof.
  intros Hd Hlo Hhi. unfold binary_round, shl_align.
  destruct (fexp _ _ _ - e) as [|d|d] eqn:Hn;
    apply binary_round_aux_bound; simpl; rewrite ?digits2_pos_iter_xO; lia.
Qed.

Lemma round_int_bound z k :
  0 ≤ k → k + 1 ≤ 971 → Z.abs z < 2 ^ k →
  PyFloat.magnitude_le (k + 1) (PyFloat.round_int z).
Proof.
  intros Hk Hhi Hz. pose proof (Zdigits2_lt_pow2 z k Hk Hz) as Hd.
  unfold PyFloat.round_int, binary_normalize.
  destruct z as [|m|m]; [done|..]; apply binary_round_bound;
    simpl in Hd; lia.
Qed.

Lemma magnitude_le_finite k x :
  PyFloat.magnitude_le k x → PyFloat.is_finite x = true.
Proof. by destruct x. Qed.

Lemma magnitude_le_to_int k x :
  PyFloat.magnitude_le k x → is_Some (PyFloat.to_int x).
Proof. destruct x; simpl; eauto; done. Qed.

Lemma of_int_bound z k :
  0 ≤ k → k + 1 ≤ 971 → Z.abs z < 2 ^ k →
  ∃ f, PyFloat.of_int z = Some f ∧ PyFloat.magnitude_le (k + 1) f.
Proof.
  intros Hk Hhi Hz. pose proof (round_int_bound z k Hk Hhi Hz) as Hb.
  exists (PyFloat.round_int z). unfold PyFloat.of_int.
  by rewrite (magnitude_le_finite _ _ Hb).
Qed.

Lemma mul_bound a b x y :
  PyFloat.magnitude_le a x → PyFloat.magnitude_le b y →
  -1074 ≤ a + b → a + b + 1 ≤ 971 →
  PyFloat.magnitude_le (a + b + 1) (PyFloat.mul x y).
Proof.
  intros Hx Hy Hlo Hhi.
  destruct x as [sx|sx| |sx mx ex], y as [sy|sy| |sy my ey]; try done.
  simpl in Hx, Hy. unfold PyFloat.mul, SFmul.
  pose proof (Zdigits2_mul (Z.pos mx) (Z.pos my) ltac:(lia) ltac:(lia)) as Hm.
  simpl in Hm.
  apply binary_round_aux_bound; simpl. all: lia.
Qed.

(** [int(z * x)] has a value for an integer below [2^k] and a float below
    [2^b]. *)
Lemma int_mul_to_int_total z x k b :
  0 ≤ k ≤ 970 → 0 ≤ b + k → k + b + 2 ≤ 971 → Z.abs z < 2 ^ k →
  PyFloat.magnitude_le b x →
  is_Some (PyFloat.int_mul z x ≫= PyFloat.to_int).
Proof.
  intros Hk Hb Hhi Hz Hx.
  destruct (of_int_bound z k) as (f & Hf & Hfb); [lia..|].
  unfold PyFloat.int_mul. rewrite Hf. simpl.
  apply (magnitude_le_to_int (k + 1 + b + 1)), mul_bound; [done|done|lia..].
Qed.

Lemma truediv_bound a b k :
  0 ≤ k → k + 1 ≤ 971 → Z.abs a < 2 ^ k → b ≠ 0 →
  ∃ f, PyFloat.truediv a b = Some f ∧ PyFloat.magnitude_le (k + 1) f.
Proof.
  intros Hk Hhi Ha Hb. unfold PyFloat.truediv.
  destruct (Z.eqb_spec b 0) as [|_]; [done|].
  unfold SFdiv_core_binary.
  set (e' := Z.min _ _). set (s := 0 - 0 - e').
  assert (e' ≤ 0) as He' by (subst e'; lia).
  set (m' := match s with Z0 => Z.abs a | Z.pos _ => Z.shiftl (Z.abs a) s
             | Z.neg _ => 0 end).
  assert (0 ≤ m' ∧ Zdigits2 m' + e' ≤ k) as [Hm' Hd'].
  { pose proof (Zdigits2_lt_pow2 a k Hk Ha) as Hd.
    subst m'. destruct s as [|p|p] eqn:Hs; [split; lia| |lia].
    rewrite Z.shiftl_mul_pow2 by lia. split; [lia|].
    destruct (decide (Z.abs a = 0)) as [->|]; [simpl; lia|].
    rewrite !Zdigits2_log2 in * by lia.
    rewrite <-Z.shiftl_mul_pow2, Z.log2_shiftl by lia. lia. }
  pose proof (Z_div_mod m' (Z.abs b) ltac:(lia)) as Hdiv.
  destruct (Z.div_eucl m' (Z.abs b)) as [q r]. destruct Hdiv as [Hq Hr].
  assert (0 ≤ q ≤ m') as Hqb by nia.
  pose proof (Zdigits2_mono q m' Hqb).
  eassert (PyFloat.magnitude_le (k + 1) (binary_round_aux _ _ _ q e' _)) as Hb'.
  { apply binary_round_aux_bound; lia. }
  eexists. rewrite (magnitude_le_finite _ _ Hb'). done.
Qed.

(** ** Solo combat *)

Lemma calculate_player_damage_inv p g d g' :
  Combat._calculate_player_damage p g = Some (d, g') → 1 ≤ d.
Proof.
  unfold Combat._calculate_player_damage.
  intros (s & g1 & _ & H)%bindM_inv.
  apply bindM_inv in H as (v & g2 & _ & H).
  apply bindM_inv in H as (a & g3 & _ & H).
  apply bindM_inv in H as (q & g4 & _ & H).
  apply bindM_inv in H as (r & g5 & _ & H).
  destruct (PyFloat.ltb r _).
  - apply bindM_inv in H as (b & g6 & _ & H). injection H as <- _. lia.
  - injection H as <- _. lia.
Qed.

(** The damage roll succeeds on a player whose strength and agility are
    present and below [2^63] in magnitude. *)
Lemma calculate_player_damage_total p g s a :
  Character.stats p !! "strength" = Some s →
  Character.stats p !! "agility" = Some a →
  Z.abs s < 2 ^ 63 → Z.abs a < 2 ^ 63 →
  ∃ d g', Combat._calculate_player_damage p g = Some (d, g').
Proof.
  intros Hs Ha Hsb Hab. unfold Combat._calculate_player_damage.
  rewrite (bindM_Some _ _ _ _ _ (liftM_Some _ _ _ Hs)).
  destruct (randint_range (-3) 3 g) as (v & g1 & Hv & _); [lia|].
  rewrite (bindM_Some _ _ _ _ _ Hv).
  rewrite (bindM_Some _ _ _ _ _ (liftM_Some _ _ _ Ha)).
  destruct (truediv_bound a 100 63) as (q & Hq & _); [lia..|].
  rewrite (bindM_Some _ _ _ _ _ (liftM_Some _ _ _ Hq)).
  destruct (random_total g1) as (r & g2 & Hr).
  rewrite (bindM_Some _ _ _ _ _ Hr).
  destruct (PyFloat.ltb r _); [|unfold Random.ret; eauto].
  destruct (int_mul_to_int_total s PyFloat.f1_5 63 1) as [b Hb];
    [lia..|simpl; lia|].
  rewrite (bindM_Some _ _ _ _ _ (liftM_Some _ _ _ Hb)).
  unfold Random.ret; eauto.
Qed.

(** C7. On an ongoing combat in the player's turn, [player_attack] deals
    at least one point of damage and leaves the enemy's hit points at
    [max(0, hp - damage)], never negative. When they reach 0 the status is
    ['victory'] and the turn stays with the player, the round and the
    player untouched; otherwise the status is unchanged and the turn goes
    to the enemy. The attack returns whenever the player's strength and
    agility are present and below [2^63] in magnitude. *)
Theorem player_attack_outcome cs g :
  Combat.status cs = "ongoing" → Combat.turn cs = "player" →
  (∀ cs' g', Combat.player_attack cs g = Some (cs', g') →
     (∃ damage, 1 ≤ damage ∧
        Combat.current_hp (Combat.enemy cs')
        = Z.max 0 (Combat.current_hp (Combat.enemy cs) - damage)) ∧
     0 ≤ Combat.current_hp (Combat.enemy cs') ∧
     Combat.player cs' = Combat.player cs ∧
     Combat.round cs' = Combat.round cs ∧
     (Combat.current_hp (Combat.enemy cs') = 0 →
        Combat.status cs' = "victory" ∧ Combat.turn cs' = "player") ∧
     (Combat.current_hp (Combat.enemy cs') ≠ 0 →
        Combat.status cs' = "ongoing" ∧ Combat.turn cs' = "enemy")) ∧
  (∀ s a,
     Character.stats (Combat.player cs) !! "strength" = Some s →
     Character.stats (Combat.player cs) !! "agility" = Some a →
     Z.abs s < 2 ^ 63 → Z.abs a < 2 ^ 63 →
     ∃ cs' g', Combat.player_attack cs g = Some (cs', g')).
Proof.
  intros Hst Htu. split.
  - intros cs' g'. unfold Combat.player_attack.
    intros (d & g1 & Hd%calculate_player_damage_inv & H)%bindM_inv.
    set (dmg := Z.max 1 (d - default 0 (Combat.defense (Combat.enemy cs)))).
    fold dmg in H. simpl in H.
    destruct (Z.leb_spec
                (Z.max 0 (Combat.current_hp (Combat.enemy cs) - dmg)) 0)
      as [Hle|Hgt]; injection H as <- _; simpl.
    + split; [exists dmg; lia|]. repeat split; try lia; done.
    + split; [exists dmg; lia|]. repeat split; try lia; done.
  - intros s a Hs Ha Hsb Hab.
    destruct (calculate_player_damage_total _ g s a Hs Ha Hsb Hab)
      as (d & g1 & Hd).
    unfold Combat.player_attack. rewrite (bindM_Some _ _ _ _ _ Hd). simpl.
    destruct (Z.leb _ _); unfold Random.ret; eauto.
Qed.

Lemma hit_loop_nonneg n sd def : ∀ acc,
  0 ≤ acc.2 → 0 ≤ (Combat.hit_loop n sd def acc).2.
Proof.
  induction n as [|n IH]; intros acc Hacc; simpl; [done|].
  apply IH. simpl. lia.
Qed.

(** A special ability touches neither the status nor the turn, whatever it
    does to the player's hit points, and never makes them negative. *)
Lemma execute_enemy_special_ability_inv cs g cs' g' :
  Combat._execute_enemy_special_ability cs g = Some (cs', g') →
  Combat.status cs' = Combat.status cs ∧
  Combat.turn cs' = Combat.turn cs ∧
  Combat.round cs' = Combat.round cs ∧
  (0 ≤ Character.current_hp (Combat.player cs) →
   0 ≤ Character.current_hp (Combat.player cs')).
Proof.
  unfold Combat._execute_enemy_special_ability.
  destruct (Combat.special_abilities (Combat.enemy cs)) as [|a0 abs].
  { intros [= <- _]. done. }
  intros (ability & g1 & _ & H)%bindM_inv.
  destruct (Combat.damage_multiplier _) as [mult|].
  - apply bindM_inv in H as (bd & g2 & _ & H).
    apply bindM_inv in H as (sd & g3 & _ & H).
    pose proof (hit_loop_nonneg
                  (Z.to_nat (default 1 (Combat.hits
                     (Combat.lookup_effect (Combat.name (Combat.enemy cs))
                        ability))))
                  sd (Combat.player_defense (Combat.player cs))
                  (0, Character.current_hp (Combat.player cs))) as Hloop.
    destruct (Combat.hit_loop _ _ _ _) as [total hp].
    injection H as <- _. simpl in *. auto.
  - repeat case_bool_decide.
    + injection H as <- _. done.
    + apply bindM_inv in H as (b & g2 & _ & H). injection H as <- _. done.
    + injection H as <- _. simpl. repeat split; lia.
    + injection H as <- _. done.
Qed.

(** The enemy's turn never leaves the player's hit points negative. *)
Lemma enemy_turn_hp_nonneg cs g cs' g' :
  Combat.enemy_turn cs g = Some (cs', g') →
  0 ≤ Character.current_hp (Combat.player cs) →
  0 ≤ Character.current_hp (Combat.player cs').
Proof.
  unfold Combat.enemy_turn. intros (act & g1 & _ & H)%bindM_inv Hhp.
  destruct act.
  - apply bindM_inv in H as (d & g2 & _ & H). simpl in H.
    destruct (Z.leb _ _); injection H as <- _; simpl; lia.
  - apply bindM_inv in H as (cs1 & g2 & H1 & H).
    apply execute_enemy_special_ability_inv in H1 as (_ & _ & _ & H1).
    injection H as <- _. simpl. auto.
Qed.

(** A plain attack that brings the player to 0 ends the combat in
    ['defeat'] without handing the turn back. *)
Lemma enemy_turn_attack_defeat cs g g1 cs' g' :
  Combat._determine_enemy_action (Combat.enemy cs) (Combat.player cs) g
    = Some (Combat.Attack, g1) →
  Combat.enemy_turn cs g = Some (cs', g') →
  Character.current_hp (Combat.player cs') = 0 →
  Combat.status cs' = "defeat" ∧ Combat.turn cs' = Combat.turn cs.
Proof.
  intros Hact. unfold Combat.enemy_turn. rewrite (bindM_Some _ _ _ _ _ Hact).
  intros (d & g2 & _ & H)%bindM_inv. simpl in H.
  destruct (Z.leb_spec
    (Z.max 0 (Character.current_hp (Combat.player cs)
       - Z.max 1 ((if Combat.player_defending cs
                   then Z.max 1 (d `div` 2) else d)
                  - Combat.player_defense (Combat.player cs)))) 0);
    injection H as <- _; simpl; [done|lia].
Qed.

(** A special ability never ends the combat: whatever is left of the
    player's hit points, the status is as before and the turn goes back to
    the player. *)
Lemma enemy_turn_special_continues cs g g1 cs' g' :
  Combat._determine_enemy_action (Combat.enemy cs) (Combat.player cs) g
    = Some (Combat.Special, g1) →
  Combat.enemy_turn cs g = Some (cs', g') →
  Combat.status cs' = Combat.status cs ∧ Combat.turn cs' = "player" ∧
  Combat.round cs' = Combat.round cs + 1.
Proof.
  intros Hact. unfold Combat.enemy_turn. rewrite (bindM_Some _ _ _ _ _ Hact).
  intros (cs1 & g2 & H1 & H)%bindM_inv.
  apply execute_enemy_special_ability_inv in H1 as (Hs & _ & Hr & _).
  injection H as <- _. simpl. rewrite Hs, Hr. done.
Qed.

(** C1. A magician with 10 hit points left faces the Tyrannosaurus Rex in
    an ongoing combat; the enemy's turn runs its Crushing Bite for 29
    damage. The player's hit points end at 0, not below, yet the status is
    still ['ongoing'] and the turn is handed back to the player for round
    2: the special-ability path has no defeat check. *)
Theorem enemy_turn_special_at_zero_hp :
  let cs := Sample.combat (Sample.magician "Rin" 1 10)
                          Sample.tyrannosaurus "enemy" in
  Combat.status cs = "ongoing" ∧
  ∃ cs', Combat.enemy_turn cs Sample.special_draws = Some (cs', []) ∧
    Combat.log cs' = ["Tyrannosaurus Rex delivers a crushing bite!";
                      "Rin takes 29 damage from Crushing Bite!"] ∧
    Character.current_hp (Combat.player cs') = 0 ∧
    Combat.status cs' = "ongoing" ∧
    Combat.turn cs' = "player" ∧
    Combat.round cs' = 2.
Proof.
  simpl. split; [done|]. eexists. split; [by vm_compute|]. by vm_compute.
Qed.

(** With the Venomous Bite as the enemy's only ability, the special
    ability deals its multiplier damage and nothing else: the hit points
    drop by [max(1, int(base * 1.2) - defense)] and the log gains the
    description and the damage line, no poison line. *)
Lemma venomous_bite_damage_only cs g cs' g' :
  Combat.special_abilities (Combat.enemy cs) = ["Venomous Bite"] →
  Combat._execute_enemy_special_ability cs g = Some (cs', g') →
  ∃ variance special_damage,
    -2 ≤ variance ≤ 2 ∧
    Quest.scale (Z.max 1 (Combat.attack (Combat.enemy cs) + variance))
                PyFloat.f1_2 = Some special_damage ∧
    let damage :=
      Z.max 1 (special_damage - Combat.player_defense (Combat.player cs)) in
    Character.current_hp (Combat.player cs')
    = Z.max 0 (Character.current_hp (Combat.player cs) - damage) ∧
    Combat.log cs'
    = Combat.log cs ++
        [Combat.name (Combat.enemy cs) +:+ " bites with venomous fangs!";
         Character.name (Combat.player cs) +:+ " takes " +:+ pretty damage
           +:+ " damage from Venomous Bite!"].
Proof.
  intros Hab. unfold Combat._execute_enemy_special_ability. rewrite Hab.
  intros (ability & g1 & Hc%choice_inv & H)%bindM_inv.
  apply list_elem_of_singleton in Hc as ->.
  change (Combat.damage_multiplier
            (Combat.lookup_effect (Combat.name (Combat.enemy cs))
               "Venomous Bite")) with (Some PyFloat.f1_2) in H.
  change (Combat.hits
            (Combat.lookup_effect (Combat.name (Combat.enemy cs))
               "Venomous Bite")) with (@None Z) in H.
  change (Combat.description
            (Combat.lookup_effect (Combat.name (Combat.enemy cs))
               "Venomous Bite"))
    with (Combat.name (Combat.enemy cs) +:+ " bites with venomous fangs!")
    in H.
  apply bindM_inv in H as (bd & g2 & Hbd & H).
  apply bindM_inv in H as (sd & g3 & [Hsd _]%liftM_inv & H).
  unfold Combat._calculate_enemy_damage in Hbd.
  apply bindM_inv in Hbd as (v & g4 & Hv%randint_inv & Hbd).
  injection Hbd as <- _. simpl in H. injection H as <- _. simpl.
  exists v, sd. repeat split; try lia; try done.
  by rewrite <-app_assoc.
Qed.

(** C8. The Megalania uses its Venomous Bite on a magician at full health
    (80 hit points, defense 8): the bite deals [int(19 * 1.2) - 8 = 14]
    damage and the player is left with 66 hit points. The 5 points of
    poison are not applied and no poison line is logged: the ability has a
    damage multiplier, and the poison branch sits behind it in the same
    [if]/[elif] chain. *)
Theorem venomous_bite_without_poison :
  let cs := Sample.combat (Sample.magician "Rin" 1 80)
                          Sample.megalania "enemy" in
  ∃ cs', Combat.enemy_turn cs Sample.special_draws = Some (cs', []) ∧
    Combat.log cs' = ["Megalania bites with venomous fangs!";
                      "Rin takes 14 damage from Venomous Bite!"] ∧
    Character.current_hp (Combat.player cs') = 80 - 14 ∧
    Combat.effect (Combat.lookup_effect "Megalania" "Venomous Bite")
      = Some "poison".
Proof.
  simpl. eexists. split; [by vm_compute|]. by vm_compute.
Qed.

(** ** Levelling *)

(** The growth roll always succeeds; it rolls only for stats of the class,
    and never for ['max_hp']. *)
Lemma calculate_stat_growth_items_total base : ∀ g,
  ∃ growth g',
    Character._calculate_stat_growth_items base g = Some (growth, g') ∧
    Forall (λ kv, kv.1 ≠ "max_hp" ∧ kv.1 ∈ base.*1) growth.
Proof.
  induction base as [|[stat v] base IH]; intros g; simpl.
  { unfold Random.ret. eauto. }
  destruct (String.eqb_spec stat "max_hp") as [->|Hne].
  { destruct (IH g) as (growth & g' & -> & Hg). eexists _, _. split; [done|].
    eapply Forall_impl; [exact Hg|]. simpl. intros ? [? ?].
    split; [done|]. by right. }
  set (roll := if 16 <=? v then Random.randint 2 4
               else if 12 <=? v then Random.randint 1 3
               else Random.randint 1 2).
  assert (∃ r g1, roll g = Some (r, g1)) as (r & g1 & Hr).
  { subst roll. destruct (16 <=? v); [|destruct (12 <=? v)];
      (edestruct randint_range as (r & g1 & Hr & _); [|by eauto]); lia. }
  rewrite (bindM_Some _ _ _ _ _ Hr).
  destruct (IH g1) as (growth & g' & Hgr & Hg).
  rewrite (bindM_Some _ _ _ _ _ Hgr). unfold Random.ret.
  eexists _, _. split; [done|]. constructor; simpl.
  - split; [done|]. by left.
  - eapply Forall_impl; [exact Hg|]. simpl. intros ? [? ?].
    split; [done|]. by right.
Qed.

(** Adding the growth succeeds on a character that has every rolled stat,
    and leaves the other stats alone. *)
Lemma apply_growth_total growth : ∀ st : gmap string Z,
  Forall (λ kv, is_Some (st !! kv.1)) growth →
  ∃ st', Character.apply_growth growth st = Some st' ∧
         ∀ k, k ∉ growth.*1 → st' !! k = st !! k.
Proof.
  induction growth as [|[stat v] growth IH]; intros st Hall; simpl.
  { eauto. }
  apply Forall_cons in Hall as [[x Hx] Hall]. simpl in Hx. rewrite Hx. simpl.
  destruct (IH (<[stat := x + v]> st)) as (st' & -> & Hst').
  { eapply Forall_impl; [exact Hall|]. simpl. intros kv Hkv.
    rewrite lookup_insert. by case_decide. }
  exists st'. split; [done|]. intros k Hk.
  apply not_elem_of_cons in Hk as [Hne Hk].
  rewrite (Hst' k Hk). by rewrite lookup_insert_ne.
Qed.

(** C6. [level_up] on a character of a known class that carries the
    stats of its class: the level grows by 1, the experience is 0, the
    next threshold is the new level times 100, the ['max_hp'] stat grows
    by an integer between 8 and 15, the character's [max_hp] is that new
    value and [current_hp] equals it. The character's [max_hp] is strictly
    greater than before whenever it agreed with the stat. *)
Theorem level_up_effects c g cd old_hp :
  Character.character_classes !! Character.class c = Some cd →
  Forall (λ kv, is_Some (Character.stats c !! kv.1))
         (Character.base_stats cd) →
  Character.stats c !! "max_hp" = Some old_hp →
  ∃ c' g' hp_increase,
    Character.level_up c g = Some (c', g') ∧
    Character.level c' = Character.level c + 1 ∧
    Character.experience c' = 0 ∧
    Character.experience_to_next c' = Character.level c' * 100 ∧
    8 ≤ hp_increase ≤ 15 ∧
    Character.stats c' !! "max_hp" = Some (old_hp + hp_increase) ∧
    Character.max_hp c' = old_hp + hp_increase ∧
    Character.current_hp c' = Character.max_hp c' ∧
    (Character.max_hp c = old_hp →
     Character.max_hp c < Character.max_hp c').
Proof.
  intros Hcd Hstats Hhp. unfold Character.level_up.
  rewrite (bindM_Some _ _ _ _ _ (liftM_Some _ _ _ Hcd)).
  unfold Character._calculate_stat_growth.
  destruct (calculate_stat_growth_items_total (Character.base_stats cd) g)
    as (growth & g1 & Hgrowth & Hkeys).
  rewrite (bindM_Some _ _ _ _ _ Hgrowth).
  destruct (apply_growth_total growth (Character.stats c))
    as (st & Hst & Hframe).
  { apply Forall_forall. intros kv Hkv.
    rewrite Forall_forall in Hkeys. destruct (Hkeys kv Hkv) as [_ Hin].
    apply list_elem_of_fmap in Hin as (kv' & -> & Hin).
    rewrite Forall_forall in Hstats. by apply Hstats. }
  rewrite (bindM_Some _ _ _ _ _ (liftM_Some _ _ _ Hst)).
  destruct (randint_range 8 15 g1) as (inc & g2 & Hinc & Hrange); [lia|].
  rewrite (bindM_Some _ _ _ _ _ Hinc).
  assert (st !! "max_hp" = Some old_hp) as Hhp'.
  { rewrite Hframe; [done|]. intros Hin.
    apply list_elem_of_fmap in Hin as (kv & Hk & Hin).
    rewrite Forall_forall in Hkeys. destruct (Hkeys kv Hin) as [Hne _].
    by rewrite <-Hk in Hne. }
  rewrite (bindM_Some _ _ _ _ _ (liftM_Some _ _ _ Hhp')).
  unfold Random.ret. eexists _, g2, inc. split; [done|]. simpl.
  rewrite lookup_insert_eq. repeat split; try done; try lia.
Qed.

(** A character made by [create_character] meets what [level_up] asks
    for: a class of the table, the stats of that class, and a [max_hp]
    equal to the ['max_hp'] stat. *)
Lemma create_character_ready nm cls c :
  Character.create_character nm cls = Some c →
  ∃ cd, Character.character_classes !! Character.class c = Some cd ∧
        Forall (λ kv, is_Some (Character.stats c !! kv.1))
               (Character.base_stats cd) ∧
        Character.stats c !! "max_hp" = Some (Character.max_hp c) ∧
        Character.current_hp c = Character.max_hp c.
Proof.
  unfold Character.create_character.
  intros (cd & Hcd & (hp & Hhp & [= <-])%bind_Some)%bind_Some. simpl.
  exists cd. repeat split; try done.
  apply Forall_forall. intros [k v] Hin. simpl.
  apply not_eq_None_Some. intros Hnone%not_elem_of_list_to_map_2.
  apply Hnone, list_elem_of_fmap. by exists (k, v).
Qed.

(** ** Team turn order *)

Lemma insert_by_agility_perm x l :
  Multiplayer.insert_by_agility x l ≡ₚ x :: l.
Proof.
  induction l as [|y l IH]; simpl; [done|].
  destruct (y.1 <=? x.1); [done|]. rewrite IH. apply perm_swap.
Qed.

Lemma sort_by_agility_perm l : Multiplayer.sort_by_agility l ≡ₚ l.
Proof.
  induction l as [|x l IH]; simpl; [done|].
  by rewrite insert_by_agility_perm, IH.
Qed.

Lemma insert_by_agility_sorted x l :
  StronglySorted (λ y z, z.1 ≤ y.1) l →
  StronglySorted (λ y z, z.1 ≤ y.1) (Multiplayer.insert_by_agility x l).
Proof.
  induction 1 as [|y l Hl IH Hy]; simpl.
  { repeat constructor. }
  destruct (Z.leb_spec y.1 x.1) as [Hle|Hlt].
  - constructor; [by constructor|]. constructor; [done|].
    eapply Forall_impl; [exact Hy|]. simpl. intros. lia.
  - constructor; [done|]. rewrite insert_by_agility_perm.
    constructor; [lia|done].
Qed.

Lemma sort_by_agility_sorted l :
  StronglySorted (λ y z, z.1 ≤ y.1) (Multiplayer.sort_by_agility l).
Proof.
  induction l as [|x l IH]; simpl; [constructor|].
  by apply insert_by_agility_sorted.
Qed.

(** Stability: among the entries of one agility, insertion puts the new
    entry first and keeps the others in place. *)
Lemma insert_by_agility_stable (a : Z) x l :
  filter (λ y, y.1 = a) (Multiplayer.insert_by_agility x l)
  = filter (λ y, y.1 = a) (x :: l).
Proof.
  induction l as [|y l IH]; simpl; [done|].
  destruct (Z.leb_spec y.1 x.1) as [Hle|Hlt]; [done|].
  rewrite (filter_cons _ y), IH, !(filter_cons _ x), (filter_cons _ y).
  repeat case_decide; try done; lia.
Qed.

Lemma sort_by_agility_stable (a : Z) l :
  filter (λ y, y.1 = a) (Multiplayer.sort_by_agility l)
  = filter (λ y, y.1 = a) l.
Proof.
  induction l as [|x l IH]; simpl; [done|].
  by rewrite insert_by_agility_stable, !(filter_cons _ x), IH.
Qed.

Lemma agility_keys_total ps :
  Forall (λ p, is_Some (Character.stats p !! "agility")) ps →
  ∃ keyed, Multiplayer.agility_keys ps = Some keyed ∧ keyed.*2 = ps ∧
    Forall (λ kp, Character.stats kp.2 !! "agility" = Some kp.1) keyed.
Proof.
  induction 1 as [|p ps [a Ha] _ (keyed & Hk & Hps & Hall)].
  { by exists []. }
  exists ((a, p) :: keyed). unfold Multiplayer.agility_keys in *.
  rewrite mapM_Some in Hk. split; [|split].
  - apply mapM_Some. constructor; [|done]. by rewrite Ha.
  - rewrite fmap_cons. simpl. by f_equal.
  - by constructor.
Qed.

Lemma keyed_filter (a : Z) (keyed : list (Z * Character.character)) :
  Forall (λ kp, Character.stats kp.2 !! "agility" = Some kp.1) keyed →
  filter (λ p, Character.stats p !! "agility" = Some a) keyed.*2
  = (filter (λ kp, kp.1 = a) keyed).*2.
Proof.
  induction 1 as [|kp keyed Hkp _ IH]; [done|].
  rewrite fmap_cons, !filter_cons, IH.
  repeat case_decide; try done; congruence.
Qed.

Lemma keyed_sorted (keyed : list (Z * Character.character)) :
  Forall (λ kp, Character.stats kp.2 !! "agility" = Some kp.1) keyed →
  StronglySorted (λ y z, z.1 ≤ y.1) keyed →
  StronglySorted
    (λ p q, ∃ a b, Character.stats p !! "agility" = Some a ∧
                   Character.stats q !! "agility" = Some b ∧ b ≤ a)
    keyed.*2.
Proof.
  intros Hall Hs. induction Hs as [|kp keyed Hs IH Hkp]; [constructor|].
  apply Forall_cons in Hall as [Hk Hall].
  rewrite fmap_cons. constructor; [by apply IH|].
  apply Forall_fmap, Forall_forall. intros kq Hq. simpl.
  rewrite Forall_forall in Hall, Hkp. exists kp.1, kq.1. auto.
Qed.

(** C9. For a roster whose players all have an agility, the turn order is
    the names of the players sorted by agility from high to low, each
    followed by ['enemy']. The sorted roster is a permutation of the
    roster in which players of equal agility keep their order, and
    [create_team_combat_state] stores exactly this order. For two players
    of agility 20 and 10, in either roster order, it is the name of the
    agile one, ['enemy'], the name of the other, ['enemy']. *)
Theorem determine_turn_order_sorted ps :
  Forall (λ p, is_Some (Character.stats p !! "agility")) ps →
  (∃ sorted_players,
     Multiplayer._determine_turn_order ps
     = Some (sorted_players ≫= λ p, [Character.name p; "enemy"]) ∧
     (∀ session enemy, Multiplayer.players session = ps →
        Multiplayer.turn_order
          <$> Multiplayer.create_team_combat_state session enemy
        = Some (sorted_players ≫= λ p, [Character.name p; "enemy"])) ∧
     sorted_players ≡ₚ ps ∧
     StronglySorted
       (λ p q, ∃ a b, Character.stats p !! "agility" = Some a ∧
                      Character.stats q !! "agility" = Some b ∧ b ≤ a)
       sorted_players ∧
     ∀ a, filter (λ p, Character.stats p !! "agility" = Some a)
                 sorted_players
          = filter (λ p, Character.stats p !! "agility" = Some a) ps) ∧
  (∀ high low,
     ps = [high; low] ∨ ps = [low; high] →
     Character.stats high !! "agility" = Some 20 →
     Character.stats low !! "agility" = Some 10 →
     Multiplayer._determine_turn_order ps
     = Some [Character.name high; "enemy"; Character.name low; "enemy"]).
Proof.
  intros Hall. split.
  - destruct (agility_keys_total ps Hall) as (keyed & Hk & Hps & Hkeys).
    assert (Forall (λ kp, Character.stats kp.2 !! "agility" = Some kp.1)
                   (Multiplayer.sort_by_agility keyed)) as Hkeys'
      by (by rewrite sort_by_agility_perm).
    assert (Multiplayer._determine_turn_order ps
            = Some ((Multiplayer.sort_by_agility keyed).*2
                      ≫= λ p, [Character.name p; "enemy"])) as Horder.
    { unfold Multiplayer._determine_turn_order. rewrite Hk. simpl.
      f_equal. by rewrite list_fmap_bind. }
    exists (Multiplayer.sort_by_agility keyed).*2. repeat split.
    + done.
    + intros session enemy <-.
      unfold Multiplayer.create_team_combat_state. by rewrite Horder.
    + by rewrite sort_by_agility_perm, Hps.
    + apply keyed_sorted; [done|apply sort_by_agility_sorted].
    + intros a. rewrite (keyed_filter a _ Hkeys'), sort_by_agility_stable.
      by rewrite <-(keyed_filter a _ Hkeys), Hps.
  - intros high low [-> | ->] Hhigh Hlow;
      unfold Multiplayer._determine_turn_order, Multiplayer.agility_keys;
      simpl; rewrite Hhigh, Hlow; done.
Qed.

(** ** Sessions *)

(** C4, as the code has it. [create_session] checks nothing and cannot
    fail: whatever [max_players] is, below 2 included, it returns the
    identifier and the session exists with status ['waiting'], the host as
    its only player and that [max_players]; the host's name is mapped to
    it; every other session and every other name is as before. *)
Theorem create_session_never_fails host max_pl sid now sys :
  let r := Multiplayer.create_session host max_pl sid now sys in
  r.1 = sid ∧
  Multiplayer.get_session sid r.2
  = Some {| Multiplayer.session_id := sid;
            Multiplayer.host_player := Character.name host;
            Multiplayer.players := [host];
            Multiplayer.max_players := max_pl;
            Multiplayer.status := "waiting";
            Multiplayer.created_at := now |} ∧
  Multiplayer.player_sessions r.2 !! Character.name host = Some sid ∧
  (∀ sid', sid' ≠ sid →
     Multiplayer.active_sessions r.2 !! sid'
     = Multiplayer.active_sessions sys !! sid') ∧
  (∀ nm, nm ≠ Character.name host →
     Multiplayer.player_sessions r.2 !! nm
     = Multiplayer.player_sessions sys !! nm).
Proof.
  simpl. unfold Multiplayer.get_session. simpl.
  rewrite !lookup_insert_eq. repeat split; try done.
  - intros sid' Hne. by rewrite lookup_insert_ne.
  - intros nm Hne. by rewrite lookup_insert_ne.
Qed.

(** C4, as stated, fails: [create_session] with [max_players = 1] on the
    empty manager is not rejected; the manager changes and holds a session
    of capacity 1. *)
Lemma create_session_accepts_max_players_1 :
  let host := Sample.magician "Rin" 1 80 in
  let r := Multiplayer.create_session host 1 "A1B2C3D4" 0
             Multiplayer.empty in
  1 < 2 ∧ r.2 ≠ Multiplayer.empty ∧
  ∃ s, Multiplayer.get_session r.1 r.2 = Some s ∧
       Multiplayer.max_players s = 1 ∧
       Multiplayer.status s = "waiting" ∧
       Multiplayer.players s = [host].
Proof.
  simpl. split; [lia|]. split.
  - intros H. apply (f_equal (λ s, Multiplayer.active_sessions s
                                    !! "A1B2C3D4")) in H.
    simpl in H. by rewrite lookup_insert_eq in H.
  - eexists. unfold Multiplayer.get_session. simpl.
    rewrite lookup_insert_eq. done.
Qed.

(** C3, as the code has it. [join_session] returns [False] exactly when
    the session id is unknown, or the roster has at least [max_players]
    entries, or the status is not ['waiting'], or the player's name is
    already in the index; a failed join changes nothing, and a successful
    one appends the player to the roster and records the name. *)
Theorem join_session_fails_iff sid player sys :
  let r := Multiplayer.join_session sid player sys in
  (r.1 = false ↔
     Multiplayer.active_sessions sys !! sid = None ∨
     (∃ s, Multiplayer.active_sessions sys !! sid = Some s ∧
           (Multiplayer.max_players s
              ≤ Z.of_nat (length (Multiplayer.players s)) ∨
            Multiplayer.status s ≠ "waiting")) ∨
     is_Some (Multiplayer.player_sessions sys !! Character.name player)) ∧
  (r.1 = false → r.2 = sys) ∧
  (r.1 = true →
     ∃ s, Multiplayer.active_sessions sys !! sid = Some s ∧
          Multiplayer.active_sessions r.2 !! sid
          = Some (Multiplayer.with_players
                    (Multiplayer.players s ++ [player]) s) ∧
          Multiplayer.player_sessions r.2 !! Character.name player
          = Some sid).
Proof.
  simpl. unfold Multiplayer.join_session.
  destruct (Multiplayer.active_sessions sys !! sid) as [s|] eqn:Hs;
    [|split; [naive_solver|done]].
  destruct (Z.leb_spec (Multiplayer.max_players s)
              (Z.of_nat (length (Multiplayer.players s)))) as [Hfull|Hroom];
    [split; [naive_solver|done]|].
  destruct (String.eqb_spec (Multiplayer.status s) "waiting") as [Hw|Hw];
    simpl; [|split; [naive_solver|done]].
  case_bool_decide as Hin; [split; [naive_solver|done]|].
  simpl. split; [|split; [done|]].
  - split; [done|]. intros [?|[(s' & [= <-] & [?|?])|?]]; try done. lia.
  - intros _. exists s. by rewrite !lookup_insert_eq.
Qed.

(** C3, as stated, fails: a session made with [max_players = 0] holds its
    host, so its roster size 1 differs from [max_players]; it is known and
    ['waiting'], and ['Ann'] is in no session: none of the four listed
    conditions holds, and yet she is refused. *)
Lemma join_session_refused_above_capacity :
  let host := Sample.magician "Rin" 1 80 in
  let ann := Sample.sniper "Ann" 1 90 in
  let sys := (Multiplayer.create_session host 0 "A1B2C3D4" 0
                Multiplayer.empty).2 in
  (Multiplayer.join_session "A1B2C3D4" ann sys).1 = false ∧
  ¬ (Multiplayer.active_sessions sys !! "A1B2C3D4" = None ∨
     (∃ s, Multiplayer.active_sessions sys !! "A1B2C3D4" = Some s ∧
           (Z.of_nat (length (Multiplayer.players s))
              = Multiplayer.max_players s ∨
            Multiplayer.status s ≠ "waiting")) ∨
     is_Some (Multiplayer.player_sessions sys !! Character.name ann)).
Proof.
  simpl. split; [by vm_compute|].
  rewrite lookup_insert_eq, lookup_insert_ne, lookup_empty by done.
  intros [?|[(s & [= <-] & [?|?])|[? ?]]]; done.
Qed.

(** C10. Starting from the empty manager, the same player creates two
    sessions. Both exist and both have the player on their roster, while
    the index knows only the second: the manager is not consistent.
    [create_session] lacks the "already in a session" test that
    [join_session] makes. *)
Theorem create_session_twice_inconsistent :
  let rin := Sample.magician "Rin" 1 80 in
  ∃ sys,
    Multiplayer.run Multiplayer.empty
      [Multiplayer.CreateSession rin 4 "AAAA0001" 0;
       Multiplayer.CreateSession rin 4 "BBBB0002" 1] = Some sys ∧
    (∃ s1 s2,
       Multiplayer.active_sessions sys !! "AAAA0001" = Some s1 ∧
       Multiplayer.active_sessions sys !! "BBBB0002" = Some s2 ∧
       Multiplayer.on_roster "Rin" s1 ∧ Multiplayer.on_roster "Rin" s2) ∧
    Multiplayer.player_sessions sys !! "Rin" = Some "BBBB0002" ∧
    ¬ Multiplayer.consistent sys.
Proof.
  simpl. eexists. split; [done|]. simpl.
  assert (∀ now sid,
    Multiplayer.on_roster "Rin"
      {| Multiplayer.session_id := sid; Multiplayer.host_player := "Rin";
         Multiplayer.players := [Sample.magician "Rin" 1 80];
         Multiplayer.max_players := 4; Multiplayer.status := "waiting";
         Multiplayer.created_at := now |}) as Hon.
  { intros. unfold Multiplayer.on_roster. simpl. set_solver. }
  split; [|split].
  - eexists _, _. rewrite lookup_insert_ne, !lookup_insert_eq by done.
    split; [done|]. split; [done|]. split; apply Hon.
  - by rewrite lookup_insert_eq.
  - intros [Hone _].
    enough ("AAAA0001" = "BBBB0002") by done.
    eapply (Hone "Rin"); simpl;
      [by rewrite lookup_insert_ne, lookup_insert_eq
      |by rewrite lookup_insert_eq
      |apply Hon..].
Qed.

(** On a session whose roster does not exceed its capacity, "at least
    [max_players]" and "exactly [max_players]" are the same test. *)
Lemma join_session_fails_iff_within_capacity sid player sys :
  (∀ s, Multiplayer.active_sessions sys !! sid = Some s →
        Z.of_nat (length (Multiplayer.players s))
          ≤ Multiplayer.max_players s) →
  (Multiplayer.join_session sid player sys).1 = false ↔
  Multiplayer.active_sessions sys !! sid = None ∨
  (∃ s, Multiplayer.active_sessions sys !! sid = Some s ∧
        (Z.of_nat (length (Multiplayer.players s))
           = Multiplayer.max_players s ∨
         Multiplayer.status s ≠ "waiting")) ∨
  is_Some (Multiplayer.player_sessions sys !! Character.name player).
Proof.
  intros Hcap. unfold Multiplayer.join_session.
  destruct (Multiplayer.active_sessions sys !! sid) as [s|] eqn:Hs;
    [|naive_solver].
  specialize (Hcap s eq_refl).
  destruct (Z.leb_spec (Multiplayer.max_players s)
              (Z.of_nat (length (Multiplayer.players s)))) as [Hfull|Hroom].
  { split; [|done]. intros _. right. left. exists s. split; [done|].
    left. lia. }
  destruct (String.eqb_spec (Multiplayer.status s) "waiting") as [Hw|Hw];
    simpl; [|naive_solver].
  case_bool_decide as Hin; [naive_solver|]. simpl.
  split; [done|]. intros [?|[(s' & [= <-] & [?|?])|?]]; try done. lia.
Qed.

(** ** Consistency of the session manager under a guarded caller *)

Lemma consistent_of_index sys :
  (∀ nm sid,
     Multiplayer.player_sessions sys !! nm = Some sid ↔
     ∃ s, Multiplayer.active_sessions sys !! sid = Some s ∧
          Multiplayer.on_roster nm s) →
  Multiplayer.consistent sys.
Proof.
  intros Hidx. split; [|done].
  intros nm sid1 sid2 s1 s2 H1 H2 Hr1 Hr2.
  assert (Multiplayer.player_sessions sys !! nm = Some sid1) as E1
    by (apply Hidx; eauto).
  assert (Multiplayer.player_sessions sys !! nm = Some sid2) as E2
    by (apply Hidx; eauto).
  congruence.
Qed.

Lemma empty_consistent : Multiplayer.consistent Multiplayer.empty.
Proof.
  apply consistent_of_index. intros nm sid. simpl.
  rewrite lookup_empty. split; [done|]. intros (s & Hs & _).
  by rewrite lookup_empty in Hs.
Qed.

Lemma create_session_consistent host max_pl sid now sys :
  Multiplayer.consistent sys →
  Multiplayer.player_sessions sys !! Character.name host = None →
  Multiplayer.active_sessions sys !! sid = None →
  Multiplayer.consistent
    (Multiplayer.create_session host max_pl sid now sys).2.
Proof.
  intros [_ Hidx] Hhost Hsid. apply consistent_of_index.
  intros nm sid'. simpl. split.
  - intros H. apply lookup_insert_Some in H as [[<- <-]|[Hne H]].
    + eexists. rewrite lookup_insert_eq. split; [done|].
      unfold Multiplayer.on_roster. simpl. by constructor.
    + apply Hidx in H as (s & Hs & Hr). exists s. split; [|done].
      rewrite lookup_insert_ne; [done|]. congruence.
  - intros (s & Hs & Hr). apply lookup_insert_Some in Hs as [[<- <-]|[Hne Hs]].
    + unfold Multiplayer.on_roster in Hr. simpl in Hr.
      apply list_elem_of_singleton in Hr as ->. by rewrite lookup_insert_eq.
    + assert (Multiplayer.player_sessions sys !! nm = Some sid') as E
        by (apply Hidx; eauto).
      rewrite lookup_insert_ne; [done|]. congruence.
Qed.

Lemma join_session_consistent sid player sys :
  Multiplayer.consistent sys →
  Multiplayer.consistent (Multiplayer.join_session sid player sys).2.
Proof.
  intros Hc. unfold Multiplayer.join_session.
  destruct (Multiplayer.active_sessions sys !! sid) as [s|] eqn:Hs; [|done].
  destruct (Z.leb _ _); [done|].
  destruct (negb _); [done|].
  case_bool_decide as Hin; [done|]. simpl.
  assert (Multiplayer.player_sessions sys !! Character.name player = None)
    as Hnone by (by apply eq_None_not_Some).
  destruct Hc as [_ Hidx]. apply consistent_of_index.
  intros nm sid'. simpl. split.
  - intros H. apply lookup_insert_Some in H as [[<- <-]|[Hne H]].
    + eexists. rewrite lookup_insert_eq. split; [done|].
      unfold Multiplayer.on_roster. simpl. rewrite fmap_app.
      apply elem_of_app. right. by constructor.
    + apply Hidx in H as (s1 & Hs1 & Hr).
      destruct (decide (sid' = sid)) as [->|Hsid].
      * rewrite Hs in Hs1. injection Hs1 as <-.
        eexists. rewrite lookup_insert_eq. split; [done|].
        unfold Multiplayer.on_roster in *. simpl. rewrite fmap_app.
        apply elem_of_app. by left.
      * exists s1. by rewrite lookup_insert_ne.
  - intros (s1 & Hs1 & Hr).
    apply lookup_insert_Some in Hs1 as [[<- <-]|[Hne Hs1]].
    + unfold Multiplayer.on_roster in Hr. simpl in Hr.
      rewrite fmap_app in Hr. apply elem_of_app in Hr as [Hr|Hr].
      * assert (Multiplayer.player_sessions sys !! nm = Some sid) as E
          by (apply Hidx; eauto).
        rewrite lookup_insert_ne; [done|]. congruence.
      * apply list_elem_of_singleton in Hr as ->.
        by rewrite lookup_insert_eq.
    + assert (Multiplayer.player_sessions sys !! nm = Some sid') as E
        by (apply Hidx; eauto).
      rewrite lookup_insert_ne; [done|]. congruence.
Qed.

Lemma start_session_consistent sid sys :
  Multiplayer.consistent sys →
  Multiplayer.consistent (Multiplayer.start_session sid sys).2.
Proof.
  intros Hc. unfold Multiplayer.start_session.
  destruct (Multiplayer.active_sessions sys !! sid) as [s|] eqn:Hs; [|done].
  destruct (negb _); [done|]. destruct (Z.ltb _ _); [done|]. simpl.
  destruct Hc as [_ Hidx]. apply consistent_of_index.
  intros nm sid'. simpl. rewrite Hidx. split.
  - intros (s1 & Hs1 & Hr). destruct (decide (sid' = sid)) as [->|Hne].
    + rewrite Hs in Hs1. injection Hs1 as <-.
      eexists. by rewrite lookup_insert_eq.
    + exists s1. by rewrite lookup_insert_ne.
  - intros (s1 & Hs1 & Hr).
    apply lookup_insert_Some in Hs1 as [[<- <-]|[Hne Hs1]]; eauto.
Qed.

Lemma on_roster_filter nm gone (ps : list Character.character) :
  nm ∈ Character.name <$> filter (λ p, Character.name p ≠ gone) ps ↔
  nm ≠ gone ∧ nm ∈ Character.name <$> ps.
Proof.
  rewrite !list_elem_of_fmap. split.
  - intros (p & -> & [Hp Hin]%list_elem_of_filter). eauto.
  - intros (Hne & p & -> & Hin). exists p. split; [done|].
    by apply list_elem_of_filter.
Qed.

(** Under consistency the index never names a missing session, so
    [leave_session] does not raise, and it keeps the manager consistent. *)
Lemma leave_session_consistent player_name sys :
  Multiplayer.consistent sys →
  ∃ b sys', Multiplayer.leave_session player_name sys = Some (b, sys') ∧
             Multiplayer.consistent sys'.
Proof.
  intros Hc. unfold Multiplayer.leave_session.
  destruct (Multiplayer.player_sessions sys !! player_name) as [sid|] eqn:Hp;
    [|by eauto].
  destruct Hc as [_ Hidx].
  destruct (proj1 (Hidx _ _) Hp) as (s & Hs & Hon). rewrite Hs. simpl.
  remember (filter (λ p, Character.name p ≠ player_name)
                   (Multiplayer.players s)) as remaining eqn:Hrem.
  (* every outcome either drops the session, when nobody remains, or keeps
     it with the remaining players *)
  assert (∀ act',
    (remaining = [] ∧ act' = delete sid (Multiplayer.active_sessions sys) ∨
     ∃ s', remaining ≠ [] ∧ Multiplayer.players s' = remaining ∧
           act' = <[sid := s']> (Multiplayer.active_sessions sys)) →
    Multiplayer.consistent
      {| Multiplayer.active_sessions := act';
         Multiplayer.player_sessions :=
           delete player_name (Multiplayer.player_sessions sys) |}) as Hkeep.
  { intros act' Hact. apply consistent_of_index. intros nm sid'. simpl.
    rewrite lookup_delete_Some, Hidx. split.
    - intros (Hne & s1 & Hs1 & Hr).
      destruct (decide (sid' = sid)) as [->|Hsid].
      + rewrite Hs in Hs1. injection Hs1 as <-.
        assert (nm ∈ Character.name <$> remaining) as Hnm
          by (rewrite Hrem; apply on_roster_filter; auto).
        destruct Hact as [[Hnil _]|(s' & _ & Hpl & ->)].
        * rewrite Hnil in Hnm. by apply elem_of_nil in Hnm.
        * exists s'. rewrite lookup_insert_eq. split; [done|].
          unfold Multiplayer.on_roster. by rewrite Hpl.
      + exists s1. split; [|done].
        destruct Hact as [[_ ->]|(s' & _ & _ & ->)].
        * by rewrite lookup_delete_ne.
        * by rewrite lookup_insert_ne.
    - intros (s1 & Hs1 & Hr).
      destruct (decide (sid' = sid)) as [->|Hsid].
      + destruct Hact as [[_ ->]|(s' & _ & Hpl & ->)].
        * by rewrite lookup_delete_eq in Hs1.
        * rewrite lookup_insert_eq in Hs1. injection Hs1 as <-.
          unfold Multiplayer.on_roster in Hr. rewrite Hpl, Hrem in Hr.
          apply on_roster_filter in Hr as [Hne Hr]. eauto.
      + assert (Multiplayer.active_sessions sys !! sid' = Some s1) as Hs1'.
        { destruct Hact as [[_ ->]|(s' & _ & _ & ->)].
          - by rewrite lookup_delete_ne in Hs1.
          - by rewrite lookup_insert_ne in Hs1. }
        split; [|eauto]. intros Heq.
        assert (Multiplayer.player_sessions sys !! nm = Some sid')
          as E by (apply Hidx; eauto).
        rewrite <-Heq in E. congruence. }
  clear Hrem.
  destruct (String.eqb _ _); destruct remaining as [|p rest];
    eexists _, _; (split; [done|]); apply Hkeep.
  1, 3: by left.
  all: right; eexists; split; [done|]; split; [|done]; done.
Qed.

Lemma foldl_delete_names (ps : list Character.character) :
  ∀ (index : gmap string string) nm,
    foldl (λ index p, delete (Character.name p) index) index ps !! nm
    = if decide (nm ∈ Character.name <$> ps) then None else index !! nm.
Proof.
  induction ps as [|p ps IH]; intros index nm.
  { rewrite decide_False; [done|]. rewrite fmap_nil. apply not_elem_of_nil. }
  rewrite fmap_cons. cbn [foldl]. rewrite IH.
  destruct (decide (nm ∈ Character.name <$> ps)) as [Hin|Hnin].
  { rewrite decide_True; [done|by right]. }
  destruct (decide (nm = Character.name p)) as [->|Hne].
  - rewrite decide_True by left. by rewrite lookup_delete_eq.
  - rewrite decide_False; [by rewrite lookup_delete_ne|].
    by intros [?|?]%elem_of_cons.
Qed.

Lemma remove_expired_consistent sys sid s :
  Multiplayer.consistent sys →
  Multiplayer.active_sessions sys !! sid = Some s →
  ∃ sys', Multiplayer.remove_expired sys sid = Some sys' ∧
          Multiplayer.consistent sys' ∧
          Multiplayer.active_sessions sys'
          = delete sid (Multiplayer.active_sessions sys).
Proof.
  intros [_ Hidx] Hs. unfold Multiplayer.remove_expired. rewrite Hs. simpl.
  eexists. split; [done|]. split; [|done].
  apply consistent_of_index. intros nm sid'. simpl.
  rewrite foldl_delete_names. split.
  - case_decide as Hin; [done|]. intros H.
    destruct (proj1 (Hidx _ _) H) as (s1 & Hs1 & Hr).
    exists s1. split; [|done]. rewrite lookup_delete_ne; [done|].
    intros <-. rewrite Hs in Hs1. by injection Hs1 as <-.
  - intros (s1 & [Hne Hs1]%lookup_delete_Some & Hr).
    assert (Multiplayer.player_sessions sys !! nm = Some sid') as E
      by (apply Hidx; eauto).
    case_decide as Hin; [|done].
    assert (Multiplayer.player_sessions sys !! nm = Some sid) as E'
      by (apply Hidx; eauto).
    congruence.
Qed.

Lemma remove_all_expired_consistent expired : ∀ sys,
  NoDup expired →
  (∀ sid, sid ∈ expired →
     is_Some (Multiplayer.active_sessions sys !! sid)) →
  Multiplayer.consistent sys →
  ∃ sys', Multiplayer.remove_all_expired sys expired = Some sys' ∧
          Multiplayer.consistent sys'.
Proof.
  induction expired as [|sid rest IH]; intros sys Hnd Hall Hc; simpl.
  { eauto. }
  apply NoDup_cons in Hnd as [Hnotin Hnd].
  destruct (Hall sid) as [s Hs]; [by left|].
  destruct (remove_expired_consistent sys sid s Hc Hs)
    as (sys1 & -> & Hc1 & Hact). simpl.
  apply IH; [done| |done]. intros sid' Hin. rewrite Hact.
  rewrite lookup_delete_ne; [|by intros ->]. apply Hall. by right.
Qed.

(** The sweep never raises on a consistent manager and keeps it
    consistent. *)
Lemma cleanup_expired_sessions_consistent max_age_hours now sys :
  Multiplayer.consistent sys →
  ∃ n sys',
    Multiplayer.cleanup_expired_sessions max_age_hours now sys
    = Some (n, sys') ∧
    Multiplayer.consistent sys'.
Proof.
  intros Hc. unfold Multiplayer.cleanup_expired_sessions.
  edestruct remove_all_expired_consistent as (sys' & -> & Hc');
    [| |exact Hc|by simpl; eauto].
  - apply NoDup_fst_map_to_list.
  - intros sid (kv & -> & Hin)%list_elem_of_fmap.
    destruct kv as [k v]. apply elem_of_map_to_list in Hin.
    apply map_lookup_filter_Some in Hin as [Hin _]. simpl. eauto.
Qed.

Lemma step_consistent sys o :
  Multiplayer.consistent sys → Multiplayer.guarded sys o →
  ∃ sys', Multiplayer.step sys o = Some sys' ∧ Multiplayer.consistent sys'.
Proof.
  intros Hc Hg. destruct o as [host mp sid now|sid p|nm|sid|age now]; simpl.
  - destruct Hg as [Hh Hs]. eexists. split; [done|].
    by apply (create_session_consistent host mp sid now).
  - eexists. split; [done|]. by apply join_session_consistent.
  - destruct (leave_session_consistent nm sys Hc) as (b & sys' & -> & Hc').
    simpl. eauto.
  - eexists. split; [done|]. by apply start_session_consistent.
  - destruct (cleanup_expired_sessions_consistent age now sys Hc)
      as (n & sys' & -> & Hc').
    simpl. eauto.
Qed.

(** What does hold of the invariant of C10: from the empty manager, every
    sequence of operations in which sessions are created only for hosts
    who are in no session, under unused identifiers, runs to the end
    without raising and ends in a consistent manager. *)
Lemma guarded_run_consistent ops : ∀ sys,
  Multiplayer.consistent sys → Multiplayer.guarded_run sys ops →
  ∃ sys', Multiplayer.run sys ops = Some sys' ∧ Multiplayer.consistent sys'.
Proof.
  induction ops as [|o ops IH]; intros sys Hc Hg; simpl.
  { eauto. }
  destruct Hg as [Hg Hrest].
  destruct (step_consistent sys o Hc Hg) as (sys1 & Hstep & Hc1).
  rewrite Hstep. simpl. apply IH; auto.
Qed.

(** ** Quest rewards *)

Lemma generate_reward_items_total c g :
  ∃ its g', Quest._generate_reward_items c g = Some (its, g').
Proof.
  unfold Quest._generate_reward_items.
  destruct (randint_range 1 2 g) as (n & g1 & Hn & Hrange); [lia|].
  rewrite (bindM_Some _ _ _ _ _ Hn). apply sample_total. simpl. lia.
Qed.

(** Once gold and experience have a value, the rewards are returned with
    exactly these two figures, whatever the random source holds; only the
    items depend on it. *)
Lemma calculate_rewards_returns player c tm g e rng :
  let m := PyFloat.mul (default PyFloat.f1_0
                          (Quest.difficulty_multipliers !! Quest.difficulty c))
                       tm in
  Quest.scale (50 + Character.level player * 25) m = Some g →
  Quest.scale (40 + Character.level player * 20) m = Some e →
  ∃ its rng',
    Quest._calculate_rewards player c tm rng
    = Some ({| Quest.gold := g; Quest.experience := e; Quest.items := its |},
            rng').
Proof.
  intros m Hg He. unfold Quest._calculate_rewards. fold m.
  rewrite (bindM_Some _ _ _ _ _ (liftM_Some _ _ _ Hg)).
  rewrite (bindM_Some _ _ _ _ _ (liftM_Some _ _ _ He)).
  destruct (random_total rng) as (r & g1 & Hr).
  rewrite (bindM_Some _ _ _ _ _ Hr).
  destruct (PyFloat.ltb r PyFloat.f0_3); [|unfold Random.ret; eauto].
  destruct (generate_reward_items_total c g1) as (its & g2 & Hits).
  rewrite (bindM_Some _ _ _ _ _ Hits). unfold Random.ret; eauto.
Qed.

(** [int(x)] is the truncation of the value of [x]. *)
Lemma to_int_spec_truncate x : PyFloat.to_int x = Quest.spec_truncate x.
Proof.
  destruct x as [s|s| |s m e]; try done.
  unfold PyFloat.to_int, Quest.spec_truncate. f_equal.
  destruct e as [|p|p].
  - change (Z.max 0 0) with 0. change (Z.max 0 (- 0)) with 0.
    change (2 ^ 0) with 1. rewrite Z.quot_1_r. destruct s; lia.
  - rewrite Z.max_r, Z.max_l by lia. change (2 ^ 0) with 1.
    rewrite Z.quot_1_r. destruct s; lia.
  - rewrite Z.max_l, Z.max_r by lia. change (2 ^ 0) with 1.
    rewrite Z.mul_1_r. change (- Z.neg p) with (Z.pos p).
    assert (0 < 2 ^ Z.pos p) by (apply Z.pow_pos_nonneg; lia).
    destruct s.
    + rewrite Z.quot_opp_l by lia. by rewrite Z.quot_div_nonneg by lia.
    + by rewrite Z.quot_div_nonneg by lia.
Qed.

(** The figure that the code computes is the one the specification
    words, overflow included. *)
Lemma scale_spec_reward_amount base k tm :
  Quest.scale base (PyFloat.mul k tm) = Quest.spec_reward_amount base k tm.
Proof.
  unfold Quest.scale, PyFloat.int_mul, PyFloat.of_int,
    Quest.spec_reward_amount.
  change (binary_normalize 53 1024 base 0 false)
    with (PyFloat.round_int base).
  change (SFmul 53 1024) with PyFloat.mul.
  destruct (PyFloat.round_int base) as [s|s| |s m e]; simpl;
    try apply to_int_spec_truncate.
  - by destruct (PyFloat.mul k tm).
  - by destruct (PyFloat.mul k tm).
Qed.

(** Without a value for the gold or for the experience there is no
    reward. *)
Lemma calculate_rewards_raises player c tm rng :
  let m := PyFloat.mul (default PyFloat.f1_0
                          (Quest.difficulty_multipliers !! Quest.difficulty c))
                       tm in
  Quest.scale (50 + Character.level player * 25) m = None ∨
  Quest.scale (40 + Character.level player * 20) m = None →
  Quest._calculate_rewards player c tm rng = None.
Proof.
  intros m H. unfold Quest._calculate_rewards. fold m.
  destruct (Quest.scale (50 + Character.level player * 25) m) as [g|] eqn:Hg;
    [|done].
  rewrite (bindM_Some _ _ _ _ _ (liftM_Some _ _ _ eq_refl)).
  destruct H as [H|H]; [done|]. by rewrite H.
Qed.

(** C5. For a creature whose difficulty is in the multiplier table, with
    multiplier [k], and a template modifier [tm]: the gold and the
    experience of the reward are the base amounts [50 + level*25] and
    [40 + level*20], multiplied in binary64 arithmetic by the product
    [k * tm] and truncated toward zero, for every state of the random
    source; [_calculate_rewards] returns exactly when both figures exist
    (no overflow). The table holds 0.8, 1.0, 1.3 and 1.6 for easy,
    medium, hard and legendary. A level-3 player, a medium creature and
    the modifier 1.0 give gold 125 and experience 100; level 1, easy and
    1.2 give 72 and 57; level 1, hard and 1.0 give 97 and 78; level 2,
    legendary and 1.5 give 240 and 192; level 4, hard and 0.9 give 175
    and 140. *)
Theorem calculate_rewards_formula player c tm k :
  Quest.difficulty_multipliers !! Quest.difficulty c = Some k →
  (∀ rng,
     match Quest.spec_reward_amount (50 + Character.level player * 25) k tm,
           Quest.spec_reward_amount (40 + Character.level player * 20) k tm
     with
     | Some g, Some e =>
         ∃ its rng',
           Quest._calculate_rewards player c tm rng
           = Some ({| Quest.gold := g; Quest.experience := e;
                      Quest.items := its |}, rng')
     | _, _ => Quest._calculate_rewards player c tm rng = None
     end) ∧
  (Quest.difficulty_multipliers !! "easy" = Some (PyFloat.lit 8 10) ∧
   Quest.difficulty_multipliers !! "medium" = Some (PyFloat.lit 10 10) ∧
   Quest.difficulty_multipliers !! "hard" = Some (PyFloat.lit 13 10) ∧
   Quest.difficulty_multipliers !! "legendary" = Some (PyFloat.lit 16 10)) ∧
  (∀ level difficulty modifier gold experience,
     (level, difficulty, modifier, gold, experience)
       ∈ [ (3, "medium", PyFloat.lit 10 10, 125, 100);
           (1, "easy", PyFloat.lit 12 10, 72, 57);
           (1, "hard", PyFloat.lit 10 10, 97, 78);
           (2, "legendary", PyFloat.lit 15 10, 240, 192);
           (4, "hard", PyFloat.lit 9 10, 175, 140) ] →
     Character.level player = level → Quest.difficulty c = difficulty →
     tm = modifier →
     ∀ rng, ∃ its rng',
       Quest._calculate_rewards player c tm rng
       = Some ({| Quest.gold := gold; Quest.experience := experience;
                  Quest.items := its |}, rng')).
Proof.
  intros Hk. split; [|split].
  - intros rng. rewrite <-!scale_spec_reward_amount.
    destruct (Quest.scale (50 + _) _) as [g|] eqn:Hg.
    + destruct (Quest.scale (40 + _) _) as [e|] eqn:He.
      * apply calculate_rewards_returns; simpl; by rewrite Hk.
      * apply calculate_rewards_raises. right. simpl. by rewrite Hk.
    + apply calculate_rewards_raises. left. simpl. by rewrite Hk.
  - by vm_compute.
  - intros level difficulty modifier gold experience Hin Hlvl Hdiff -> rng.
    apply calculate_rewards_returns; simpl; rewrite Hlvl, Hdiff;
      repeat (apply elem_of_cons in Hin as [[= -> -> -> -> ->]|Hin];
              [by vm_compute|]);
      by apply elem_of_nil in Hin.
Qed.

Lemma difficulty_multiplier_bound d :
  PyFloat.magnitude_le 1
    (default PyFloat.f1_0 (Quest.difficulty_multipliers !! d)).
Proof.
  destruct (Quest.difficulty_multipliers !! d) as [k|] eqn:Hk; simpl;
    [|vm_compute; discriminate].
  apply elem_of_list_to_map_2 in Hk.
  repeat (apply elem_of_cons in Hk as [[= _ ->]|Hk];
          [vm_compute; discriminate|]).
  by apply elem_of_nil in Hk.
Qed.

(** The rewards are computed for every level below [2^53] in magnitude and
    every finite modifier below [2^8]. *)
Lemma calculate_rewards_total player c tm rng :
  Z.abs (Character.level player) < 2 ^ 53 → PyFloat.magnitude_le 8 tm →
  ∃ r rng', Quest._calculate_rewards player c tm rng = Some (r, rng').
Proof.
  intros Hlvl Htm.
  pose proof (mul_bound 1 8 _ _ (difficulty_multiplier_bound
                (Quest.difficulty c)) Htm ltac:(lia) ltac:(lia)) as Hm.
  edestruct (int_mul_to_int_total (50 + Character.level player * 25))
    as [g Hg]; [| | | |exact Hm|]; [instantiate (1 := 60); lia|lia..|].
  edestruct (int_mul_to_int_total (40 + Character.level player * 20))
    as [e He]; [| | | |exact Hm|]; [instantiate (1 := 60); lia|lia..|].
  destruct (calculate_rewards_returns player c tm g e rng Hg He)
    as (its & rng' & H).
  eauto.
Qed.

(** ** Creature instantiation *)



(** C2. A team quest is generated for three players on an empty store.
    The bestiary built for the call holds the Saber-tooth Tiger at
    position 2, with the abilities Pounce and Saber Strike. After the call
    the tiger's dict is the same record and the quest's target is a new
    dict, number 8, with scaled stats; but both refer to list number 2,
    and that list now ends with Area Attack: the bestiary entry's ability
    sequence has been changed in place. *)
Theorem team_quest_extends_template_abilities :
  let built := Quest.new_quest_system Quest.empty_store in
  ∃ quest st' target,
    Multiplayer.generate_multiplayer_quest Sample.team_session
      Quest.empty_store Sample.team_draws = Some ((quest, st'), []) ∧
    Quest.ancient_creatures built.1 !! 2%nat = Some 2%nat ∧
    Quest.dicts built.2 !! 2%nat = Some Sample.saber_tooth_tiger ∧
    Quest.lists built.2 !! 2%nat = Some ["Pounce"; "Saber Strike"] ∧
    Quest.dicts st' !! 2%nat = Some Sample.saber_tooth_tiger ∧
    Quest.lists st' !! 2%nat
      = Some ["Pounce"; "Saber Strike"; "Area Attack"] ∧
    Multiplayer.target quest = 8%nat ∧
    Quest.dicts st' !! 8%nat = Some target ∧
    Quest.special_abilities target = 2%nat ∧
    Quest.hp target = 388 ∧ Quest.max_hp target = Some 388.
Proof.
  simpl. eexists _, _, _. split; [by vm_compute|]. by vm_compute.
Qed.

(** ** The theorems at work on the sample data *)

(** A magician strikes a Tyrannosaurus Rex that has one hit point left:
    victory, and the turn stays with the player. *)
Lemma player_attack_outcome_witness :
  let cs := Sample.combat (Sample.magician "Rin" 1 80)
              (Combat.set_enemy_hp 1 Sample.tyrannosaurus) "player" in
  Combat.status cs = "ongoing" ∧ Combat.turn cs = "player" ∧
  ∃ cs', Combat.player_attack cs [3%N; (2 ^ 52)%N] = Some (cs', []) ∧
         Combat.current_hp (Combat.enemy cs') = 0 ∧
         Combat.status cs' = "victory" ∧ Combat.turn cs' = "player".
Proof.
  intros cs. split; [reflexivity|]. split; [reflexivity|].
  destruct (player_attack_outcome cs [3%N; (2 ^ 52)%N] eq_refl eq_refl)
    as [Hinv Htotal].
  destruct (Htotal 8 10) as (cs' & g' & Hrun);
    [vm_compute; reflexivity..|].
  assert (g' = []) as -> by (vm_compute in Hrun; congruence).
  exists cs'. split; [exact Hrun|].
  destruct (Hinv cs' [] Hrun) as (_ & _ & _ & _ & Hvictory & _).
  assert (Combat.current_hp (Combat.enemy cs') = 0) as Hzero
    by (vm_compute in Hrun; injection Hrun as <-; reflexivity).
  split; [exact Hzero|]. exact (Hvictory Hzero).
Defined.

(** A first-level magician levels up. *)
Lemma level_up_effects_witness :
  let c := Sample.magician "Rin" 1 80 in
  ∃ c' g' hp_increase,
    Character.level_up c [0; 1; 2; 0; 1; 3]%N = Some (c', g') ∧
    Character.level c' = 2 ∧ Character.experience c' = 0 ∧
    Character.experience_to_next c' = 200 ∧
    8 ≤ hp_increase ≤ 15 ∧
    Character.max_hp c' = 80 + hp_increase ∧
    Character.current_hp c' = Character.max_hp c' ∧
    Character.max_hp c < Character.max_hp c'.
Proof.
  intros c.
  destruct (level_up_effects c [0; 1; 2; 0; 1; 3]%N
              {| Character.base_stats := Character.mk_stats 8 10 20 8 18 80;
                 Character.class_abilities :=
                   ["Fireball"; "Magic Shield"; "Arcane Blast"] |} 80)
    as (c' & g' & inc & Hrun & Hl & He & Hn & Hi & _ & Hm & Hc & Hlt).
  - vm_compute. reflexivity.
  - repeat constructor; eexists; vm_compute; reflexivity.
  - vm_compute. reflexivity.
  - exists c', g', inc. rewrite Hl in Hn.
    repeat split; try assumption; try lia. apply Hlt. reflexivity.
Defined.

(** A magician of agility 10 listed before a sniper of agility 20. *)
Lemma determine_turn_order_sorted_witness :
  Multiplayer._determine_turn_order
    [Sample.magician "Rin" 1 80; Sample.sniper "Ann" 1 90]
  = Some ["Ann"; "enemy"; "Rin"; "enemy"].
Proof.
  refine (proj2 (determine_turn_order_sorted
                   [Sample.magician "Rin" 1 80; Sample.sniper "Ann" 1 90] _)
                (Sample.sniper "Ann" 1 90) (Sample.magician "Rin" 1 80)
                _ _ _).
  - repeat constructor; eexists; vm_compute; reflexivity.
  - right. reflexivity.
  - vm_compute. reflexivity.
  - vm_compute. reflexivity.
Defined.

(** A level-3 magician, the medium Saber-tooth Tiger and the hunt
    template: 125 gold. A level-1 magician, the easy Dire Wolf and the
    protect template (modifier 1.2): [int(75 * 0.96) = 72] gold and
    [int(60 * 0.96) = 57] experience. *)
Lemma calculate_rewards_formula_witness :
  Quest.difficulty_multipliers !! "medium" = Some PyFloat.f1_0 ∧
  Quest.difficulty_multipliers !! "easy" = Some PyFloat.f0_8 ∧
  (∀ rng, ∃ its rng',
     Quest._calculate_rewards (Sample.magician "Rin" 3 80)
       Sample.saber_tooth_tiger PyFloat.f1_0 rng
     = Some ({| Quest.gold := 125; Quest.experience := 100;
                Quest.items := its |}, rng')) ∧
  (∀ rng, ∃ its rng',
     Quest._calculate_rewards (Sample.magician "Rin" 1 80)
       Sample.dire_wolf PyFloat.f1_2 rng
     = Some ({| Quest.gold := 72; Quest.experience := 57;
                Quest.items := its |}, rng')).
Proof.
  assert (Quest.difficulty_multipliers
            !! Quest.difficulty Sample.saber_tooth_tiger
          = Some PyFloat.f1_0) as Hmedium by (vm_compute; reflexivity).
  assert (Quest.difficulty_multipliers !! Quest.difficulty Sample.dire_wolf
          = Some PyFloat.f0_8) as Heasy by (vm_compute; reflexivity).
  split; [exact Hmedium|]. split; [exact Heasy|]. split.
  - refine (proj2 (proj2 (calculate_rewards_formula
                            (Sample.magician "Rin" 3 80)
                            Sample.saber_tooth_tiger PyFloat.f1_0
                            PyFloat.f1_0 Hmedium))
                  3 "medium" PyFloat.f1_0 125 100 _ eq_refl eq_refl eq_refl).
    left.
  - intros rng.
    exact (proj1 (calculate_rewards_formula (Sample.magician "Rin" 1 80)
                    Sample.dire_wolf PyFloat.f1_2 PyFloat.f0_8 Heasy) rng).
Defined.


(** * Further properties of the session manager *)

Lemma system_eta sys :
  {| Multiplayer.active_sessions := Multiplayer.active_sessions sys;
     Multiplayer.player_sessions := Multiplayer.player_sessions sys |} = sys.
Proof. by destruct sys. Qed.

Lemma filter_other_names nm (ps : list Character.character) :
  nm ∉ Character.name <$> ps →
  filter (λ p, Character.name p ≠ nm) ps = ps.
Proof.
  induction ps as [|p ps IH]; [done|]. rewrite fmap_cons.
  intros [Hne Hps]%not_elem_of_cons.
  rewrite filter_cons_True by done. by rewrite IH.
Qed.

(** X1. A host who is in no session creates one under an unused
    identifier and leaves at once: [leave_session] answers [True] and the
    manager is exactly what it was before the creation. *)
Theorem create_then_leave_restores host max_pl sid now sys :
  Multiplayer.player_sessions sys !! Character.name host = None →
  Multiplayer.active_sessions sys !! sid = None →
  Multiplayer.leave_session (Character.name host)
    (Multiplayer.create_session host max_pl sid now sys).2
  = Some (true, sys).
Proof.
  intros Hhost Hsid. unfold Multiplayer.leave_session. simpl.
  rewrite !lookup_insert_eq. simpl.
  rewrite String.eqb_refl, filter_cons_False by (by intros H; apply H).
  rewrite filter_nil, !delete_insert_id by done.
  by rewrite system_eta.
Qed.

(** X2. A player who joins a session and leaves it again puts the manager
    back as it was, provided the session had someone on its roster, none
    of them under the player's name, and another host. *)
Theorem join_then_leave_restores sid player sys s :
  Multiplayer.active_sessions sys !! sid = Some s →
  (Multiplayer.join_session sid player sys).1 = true →
  Multiplayer.players s ≠ [] →
  Character.name player ∉ Character.name <$> Multiplayer.players s →
  Multiplayer.host_player s ≠ Character.name player →
  Multiplayer.leave_session (Character.name player)
    (Multiplayer.join_session sid player sys).2
  = Some (true, sys).
Proof.
  intros Hs. unfold Multiplayer.join_session. rewrite Hs.
  destruct (Z.leb _ _); [done|]. destruct (negb _); [done|].
  case_bool_decide as Hin; [done|]. simpl. intros _ Hne Hnot Hhost.
  assert (Multiplayer.player_sessions sys !! Character.name player = None)
    as Hnone by (by apply eq_None_not_Some).
  unfold Multiplayer.leave_session. simpl.
  rewrite !lookup_insert_eq. simpl.
  rewrite filter_app, filter_other_names, filter_cons_False, filter_nil,
    app_nil_r by (done || by intros H; apply H).
  destruct (String.eqb_spec (Multiplayer.host_player s)
              (Character.name player)) as [?|_]; [done|].
  destruct (Multiplayer.players s) as [|p ps] eqn:Hps; [done|].
  rewrite insert_insert_eq, delete_insert_id by done.
  rewrite insert_id; [by rewrite system_eta|].
  rewrite Hs. f_equal. destruct s. simpl in *. by rewrite Hps.
Qed.


(** X3. [leave_session]: [False], and nothing changes, for a name the
    index does not know; a [KeyError] when the index names a session that
    does not exist; otherwise [True], the name leaves the index, every
    other session is untouched, and the session either disappears, when no
    player of another name remains, or keeps the remaining players in
    order, with the first of them as host if the host was the leaver. *)
Theorem leave_session_outcome player_name sys :
  (Multiplayer.player_sessions sys !! player_name = None →
   Multiplayer.leave_session player_name sys = Some (false, sys)) ∧
  (∀ sid,
     Multiplayer.player_sessions sys !! player_name = Some sid →
     Multiplayer.active_sessions sys !! sid = None →
     Multiplayer.leave_session player_name sys = None) ∧
  (∀ sid s,
     Multiplayer.player_sessions sys !! player_name = Some sid →
     Multiplayer.active_sessions sys !! sid = Some s →
     ∃ sys',
       Multiplayer.leave_session player_name sys = Some (true, sys') ∧
       Multiplayer.player_sessions sys'
       = delete player_name (Multiplayer.player_sessions sys) ∧
       (∀ sid', sid' ≠ sid →
          Multiplayer.active_sessions sys' !! sid'
          = Multiplayer.active_sessions sys !! sid') ∧
       Multiplayer.active_sessions sys' !! sid
       = match filter (λ p, Character.name p ≠ player_name)
                      (Multiplayer.players s) with
         | [] => None
         | p :: rest =>
             Some {| Multiplayer.session_id := Multiplayer.session_id s;
                     Multiplayer.host_player :=
                       if String.eqb (Multiplayer.host_player s) player_name
                       then Character.name p
                       else Multiplayer.host_player s;
                     Multiplayer.players := p :: rest;
                     Multiplayer.max_players := Multiplayer.max_players s;
                     Multiplayer.status := Multiplayer.status s;
                     Multiplayer.created_at := Multiplayer.created_at s |}
         end).
Proof.
  unfold Multiplayer.leave_session. split; [|split].
  - by intros ->.
  - by intros sid -> ->.
  - intros sid s -> ->. simpl.
    destruct (String.eqb _ _);
      destruct (filter _ (Multiplayer.players s)) as [|p rest];
      eexists; (split; [done|]); simpl; (split; [done|]); split;
      try (by intros sid' Hne; rewrite ?lookup_delete_ne, ?lookup_insert_ne);
      by rewrite ?lookup_delete_eq, ?lookup_insert_eq.
Qed.

(** X4. [start_session] answers [True] exactly for a known session that is
    ['waiting'] with at least two players; a refusal changes nothing. A
    start turns the status to ['in_progress'] and keeps roster and index,
    and from then on every join of that session and every further start
    is refused. *)
Theorem start_session_outcome sid sys :
  let r := Multiplayer.start_session sid sys in
  (r.1 = true ↔
     ∃ s, Multiplayer.active_sessions sys !! sid = Some s ∧
          Multiplayer.status s = "waiting" ∧
          (2 ≤ length (Multiplayer.players s))%nat) ∧
  (r.1 = false → r.2 = sys) ∧
  (r.1 = true →
     (∃ s, Multiplayer.active_sessions sys !! sid = Some s ∧
           Multiplayer.get_session sid r.2
           = Some (Multiplayer.with_status "in_progress" s)) ∧
     Multiplayer.player_sessions r.2 = Multiplayer.player_sessions sys ∧
     (∀ player, Multiplayer.join_session sid player r.2 = (false, r.2)) ∧
     Multiplayer.start_session sid r.2 = (false, r.2)).
Proof.
  simpl.
  destruct (Multiplayer.active_sessions sys !! sid) as [s|] eqn:Hs.
  2: { unfold Multiplayer.start_session. rewrite Hs. simpl.
       split; [|done]. split; [done|]. by intros (s' & ? & _). }
  destruct (String.eqb_spec (Multiplayer.status s) "waiting") as [Hw|Hw].
  2: { unfold Multiplayer.start_session. rewrite Hs.
       destruct (String.eqb_spec (Multiplayer.status s) "waiting");
         [done|]. simpl.
       split; [|done]. split; [done|]. by intros (s' & [= <-] & ? & _). }
  destruct (Z.ltb_spec (Z.of_nat (length (Multiplayer.players s))) 2)
    as [Hfew|Hmany].
  { unfold Multiplayer.start_session. rewrite Hs, Hw. simpl.
    destruct (Z.ltb_spec (Z.of_nat (length (Multiplayer.players s))) 2);
      [|lia]. simpl.
    split; [|done]. split; [done|]. intros (s' & [= <-] & _ & ?). lia. }
  assert (Multiplayer.start_session sid sys
          = (true,
             {| Multiplayer.active_sessions :=
                  <[sid := Multiplayer.with_status "in_progress" s]>
                    (Multiplayer.active_sessions sys);
                Multiplayer.player_sessions :=
                  Multiplayer.player_sessions sys |})) as ->.
  { unfold Multiplayer.start_session. rewrite Hs, Hw. simpl.
    by destruct (Z.ltb_spec (Z.of_nat (length (Multiplayer.players s))) 2);
      [lia|]. }
  simpl. split; [|split; [done|]].
  - split; [|done]. intros _. exists s. split; [done|]. split; [done|lia].
  - intros _. split; [|split; [|split]].
    + exists s. split; [done|]. unfold Multiplayer.get_session. simpl.
      by rewrite lookup_insert_eq.
    + done.
    + intros player. unfold Multiplayer.join_session. simpl.
      rewrite lookup_insert_eq. simpl. by destruct (Z.leb _ _).
    + unfold Multiplayer.start_session. simpl.
      by rewrite lookup_insert_eq.
Qed.


Lemma remove_all_expired_outcome expired : ∀ sys,
  NoDup expired →
  (∀ sid, sid ∈ expired →
     is_Some (Multiplayer.active_sessions sys !! sid)) →
  ∃ sys',
    Multiplayer.remove_all_expired sys expired = Some sys' ∧
    (∀ sid, sid ∈ expired →
       Multiplayer.active_sessions sys' !! sid = None) ∧
    (∀ sid, sid ∉ expired →
       Multiplayer.active_sessions sys' !! sid
       = Multiplayer.active_sessions sys !! sid) ∧
    (∀ nm, Multiplayer.player_sessions sys !! nm = None →
       Multiplayer.player_sessions sys' !! nm = None) ∧
    (∀ nm sid s, sid ∈ expired →
       Multiplayer.active_sessions sys !! sid = Some s →
       Multiplayer.on_roster nm s →
       Multiplayer.player_sessions sys' !! nm = None) ∧
    (∀ nm,
       (∀ sid s, sid ∈ expired →
          Multiplayer.active_sessions sys !! sid = Some s →
          ¬ Multiplayer.on_roster nm s) →
       Multiplayer.player_sessions sys' !! nm
       = Multiplayer.player_sessions sys !! nm).
Proof.
  induction expired as [|sid rest IH]; intros sys Hnd Hall; simpl.
  { exists sys. split; [done|]. repeat split; try done.
    intros sid Hin. by apply elem_of_nil in Hin.
    intros nm sid s Hin. by apply elem_of_nil in Hin. }
  apply NoDup_cons in Hnd as [Hnotin Hnd].
  destruct (Hall sid) as [s Hs]; [by left|].
  unfold Multiplayer.remove_expired. rewrite Hs. simpl.
  set (sys1 := {| Multiplayer.active_sessions :=
                    delete sid (Multiplayer.active_sessions sys);
                  Multiplayer.player_sessions :=
                    foldl (λ index p, delete (Character.name p) index)
                          (Multiplayer.player_sessions sys)
                          (Multiplayer.players s) |}).
  destruct (IH sys1 Hnd) as (sys' & Hrun & P1 & P2 & P5 & P3 & P4).
  { intros sid' Hin. simpl. rewrite lookup_delete_ne; [|by intros ->].
    apply Hall. by right. }
  assert (∀ nm, Multiplayer.player_sessions sys1 !! nm
                = if decide (nm ∈ Character.name <$> Multiplayer.players s)
                  then None
                  else Multiplayer.player_sessions sys !! nm) as Hidx
    by (intros nm; apply foldl_delete_names).
  exists sys'. split; [done|]. split; [|split; [|split; [|split]]].
  - intros sid0 [->|Hin]%elem_of_cons; [|by apply P1].
    rewrite (P2 _ Hnotin). simpl. apply lookup_delete_eq.
  - intros sid0 [Hne Hnin]%not_elem_of_cons. rewrite (P2 _ Hnin). simpl.
    by rewrite lookup_delete_ne.
  - intros nm Hnone. apply P5. rewrite Hidx. by case_decide.
  - intros nm sid0 s0 [->|Hin]%elem_of_cons Hs0 Hon.
    + rewrite Hs in Hs0. injection Hs0 as <-.
      apply P5. rewrite Hidx. by rewrite decide_True.
    + apply (P3 nm sid0 s0); [done| |done]. simpl.
      rewrite lookup_delete_ne; [done|]. by intros ->.
  - intros nm Hno. rewrite P4.
    + rewrite Hidx, decide_False; [done|]. apply (Hno sid s); [by left|done].
    + intros sid0 s0 Hin Hs0. simpl in Hs0.
      apply lookup_delete_Some in Hs0 as [_ Hs0].
      apply (Hno sid0 s0); [by right|done].
Qed.

(** X5. The sweep runs on every manager, consistent or not. Its result is
    the number of sessions older than the limit; exactly these are gone
    and the others are untouched. The name of every player of a removed
    session leaves the index, whichever session it was mapped to; the
    other names keep their entry. *)
Theorem cleanup_expired_sessions_outcome max_age_hours now sys :
  ∃ sys',
    Multiplayer.cleanup_expired_sessions max_age_hours now sys
    = Some (Z.of_nat
              (size (filter
                       (λ kv, max_age_hours * 3600
                              < now - Multiplayer.created_at kv.2)
                       (Multiplayer.active_sessions sys))), sys') ∧
    Multiplayer.active_sessions sys'
    = filter (λ kv, ¬ max_age_hours * 3600
                      < now - Multiplayer.created_at kv.2)
             (Multiplayer.active_sessions sys) ∧
    (∀ nm sid s,
       Multiplayer.active_sessions sys !! sid = Some s →
       max_age_hours * 3600 < now - Multiplayer.created_at s →
       Multiplayer.on_roster nm s →
       Multiplayer.player_sessions sys' !! nm = None) ∧
    (∀ nm,
       (∀ sid s,
          Multiplayer.active_sessions sys !! sid = Some s →
          max_age_hours * 3600 < now - Multiplayer.created_at s →
          ¬ Multiplayer.on_roster nm s) →
       Multiplayer.player_sessions sys' !! nm
       = Multiplayer.player_sessions sys !! nm).
Proof.
  unfold Multiplayer.cleanup_expired_sessions.
  set (old := filter (λ kv, max_age_hours * 3600
                            < now - Multiplayer.created_at kv.2)
                     (Multiplayer.active_sessions sys)).
  assert (∀ sid, sid ∈ (map_to_list old).*1 ↔
            ∃ s, Multiplayer.active_sessions sys !! sid = Some s ∧
                 max_age_hours * 3600 < now - Multiplayer.created_at s)
    as Hmem.
  { intros sid. rewrite list_elem_of_fmap. split.
    - intros ([k s] & -> & Hin). apply elem_of_map_to_list in Hin.
      apply map_lookup_filter_Some in Hin as [? ?]. eauto.
    - intros (s & Hs & Hold). exists (sid, s). split; [done|].
      apply elem_of_map_to_list. by apply map_lookup_filter_Some. }
  destruct (remove_all_expired_outcome (map_to_list old).*1 sys)
    as (sys' & -> & P1 & P2 & _ & P3 & P4).
  { apply NoDup_fst_map_to_list. }
  { intros sid (s & Hs & _)%Hmem. eauto. }
  exists sys'. simpl. rewrite length_fmap, length_map_to_list.
  split; [done|]. split; [|split].
  - apply map_eq. intros sid.
    destruct (decide (sid ∈ (map_to_list old).*1)) as [Hin|Hnin].
    + rewrite (P1 _ Hin). symmetry. apply map_lookup_filter_None.
      apply Hmem in Hin as (s & Hs & Hold). right. intros s' Hs'. simpl.
      rewrite Hs in Hs'. injection Hs' as <-. by intros H; apply H.
    + rewrite (P2 _ Hnin).
      destruct (Multiplayer.active_sessions sys !! sid) as [s|] eqn:Hs.
      * symmetry. apply map_lookup_filter_Some. split; [done|]. simpl.
        intros Hold. apply Hnin, Hmem. eauto.
      * symmetry. apply map_lookup_filter_None. by left.
  - intros nm sid s Hs Hold Hon. apply (P3 nm sid s); [|done..].
    apply Hmem. eauto.
  - intros nm Hno. apply P4. intros sid s (s' & Hs' & Hold)%Hmem Hs.
    rewrite Hs in Hs'. injection Hs' as <-. by apply (Hno sid s).
Qed.


(** X6. From the empty manager, a caller that creates sessions only for
    hosts who are in no session, and under unused identifiers, can issue
    any sequence of creates, joins, leaves, starts and sweeps: no
    operation raises, and at the end every name is on at most one roster
    and the index is exact. *)
Theorem guarded_callers_keep_consistency ops :
  Multiplayer.guarded_run Multiplayer.empty ops →
  ∃ sys, Multiplayer.run Multiplayer.empty ops = Some sys ∧
         Multiplayer.consistent sys.
Proof. apply guarded_run_consistent, empty_consistent. Qed.

Lemma suitable_quests_cases n :
  (n < 2 ∨ 6 < n) ∧ Multiplayer.suitable_quests n = [] ∨
  2 ≤ n ≤ 6 ∧ Multiplayer.suitable_quests n ≠ [] ∧
  Forall (λ q, ∃ lo hi, Quest.min_players q = Some lo ∧
                        Quest.max_players q = Some hi ∧
                        2 ≤ lo ≤ n ∧ n ≤ hi ∧
                        Quest.type q ∈ ["raid"; "siege"; "rescue"; "defense"])
         (Multiplayer.suitable_quests n).
Proof.
  unfold Multiplayer.suitable_quests, Multiplayer.multiplayer_quests. simpl.
  destruct (Z.leb_spec 2 n), (Z.leb_spec 3 n), (Z.leb_spec n 4),
    (Z.leb_spec n 5), (Z.leb_spec n 6); simpl; try lia;
    first [ left; split; [lia|done]
          | right; split; [lia|]; split; [done|];
            repeat constructor; simpl; eexists _, _;
            (split; [done|]); (split; [done|]);
            (split; [lia|]); (split; [lia|]);
            by repeat constructor ].
Qed.


Lemma new_quest_system_templates st :
  Quest.quest_templates (Quest.new_quest_system st).1
  = Quest._initialize_quest_templates ∧
  Quest.quest_givers (Quest.new_quest_system st).1
  = Quest._initialize_quest_givers.
Proof.
  unfold Quest.new_quest_system.
  by destruct (Quest._initialize_ancient_creatures st).
Qed.

(** X7. A team quest is always flagged as multiplayer. For a roster of 2
    to 6 players its template is one of the four team templates and
    admits the roster size; for any other size the generator falls back
    to a solo template, and the quest then asks for 2 players. On an
    empty roster the generator raises (a division by zero), and so does
    the team reward computation. *)
Theorem generate_multiplayer_quest_template session st g :
  let n := Z.of_nat (length (Multiplayer.players session)) in
  (∀ q st' g',
     Multiplayer.generate_multiplayer_quest session st g
     = Some ((q, st'), g') →
     Multiplayer.multiplayer q = true ∧
     (2 ≤ n ≤ 6 ∧
      Multiplayer.quest_type q ∈ ["raid"; "siege"; "rescue"; "defense"] ∧
      2 ≤ Multiplayer.required_players q ≤ n
      ∨
      (n = 1 ∨ 6 < n) ∧
      Multiplayer.quest_type q
        ∈ ["hunt"; "protect"; "investigate"; "urgent"] ∧
      Multiplayer.required_players q = 2)) ∧
  (Multiplayer.players session = [] →
   Multiplayer.generate_multiplayer_quest session st g = None ∧
   ∀ c m, Multiplayer._calculate_multiplayer_rewards [] c m g = None).
Proof.
  intros n. split.
  - intros q st' g'. unfold Multiplayer.generate_multiplayer_quest.
    intros (template & g1 & Htpl%choice_inv & H)%bindM_inv.
    apply bindM_inv in H as (made & g2 & Hmade & H).
    apply bindM_inv in H as (giver & g3 & _ & H).
    apply bindM_inv in H as (loc & g4 & _ & H).
    apply bindM_inv in H as (creature & g5 & _ & H).
    apply bindM_inv in H as (rw & g6 & _ & H).
    injection H as <- _ _. simpl. split; [done|].
    assert (n ≠ 0) as Hn0.
    { intros Hz. unfold Multiplayer.team_creature in Hmade.
      apply bindM_inv in Hmade as (lvl & g7 & [Hl _]%liftM_inv & _).
      destruct (Multiplayer.players session); [done|]. subst n.
      simpl in Hz. lia. }
    fold n in Htpl.
    destruct (suitable_quests_cases n) as [[Hout Hnil]|(Hin & Hne & Hall)].
    + right. split; [lia|]. rewrite Hnil in Htpl.
      rewrite (proj1 (new_quest_system_templates st)) in Htpl.
      unfold Quest._initialize_quest_templates in Htpl.
      repeat (apply elem_of_cons in Htpl as [->|Htpl];
              [simpl; split; [by repeat constructor|done]|]).
      by apply elem_of_nil in Htpl.
    + left. split; [done|].
      destruct (Multiplayer.suitable_quests n) as [|t ts] eqn:Hs; [done|].
      rewrite Forall_forall in Hall.
      destruct (Hall _ Htpl) as (lo & hi & Hlo & Hhi & ? & ? & Hty).
      rewrite Hlo. simpl. split; [done|lia].
  - intros Hempty. split.
    + unfold Multiplayer.generate_multiplayer_quest. rewrite Hempty.
      unfold Random.bind at 1.
      by destruct (Random.choice _ g) as [[template g1]|].
    + done.
Qed.



(** * Further properties of the session manager's readers *)

(** X23. In a manager whose rosters and index agree, [get_player_session]
    finds the session that has the player on its roster, and answers
    [None] exactly for a name that is on no roster. The session it finds
    is the one [get_session] gives for the indexed identifier. *)
Theorem get_player_session_finds_roster sys nm :
  Multiplayer.consistent sys →
  (∀ s, Multiplayer.get_player_session nm sys = Some s ↔
        ∃ sid, Multiplayer.get_session sid sys = Some s ∧
               Multiplayer.on_roster nm s) ∧
  (Multiplayer.get_player_session nm sys = None ↔
   ∀ sid s, Multiplayer.get_session sid sys = Some s →
            ¬ Multiplayer.on_roster nm s).
Proof.
  intros [Huniq Hidx].
  unfold Multiplayer.get_player_session, Multiplayer.get_session.
  assert (∀ s, (Multiplayer.player_sessions sys !! nm
                 ≫= λ sid, Multiplayer.active_sessions sys !! sid) = Some s ↔
               ∃ sid, Multiplayer.active_sessions sys !! sid = Some s ∧
                      Multiplayer.on_roster nm s) as Hsome.
  { intros s. rewrite bind_Some. split.
    - intros (sid & Hsid & Hs). exists sid. split; [done|].
      apply Hidx in Hsid as (s' & Hs' & Hr). congruence.
    - intros (sid & Hs & Hr). exists sid. split; [|done].
      apply Hidx. eauto. }
  split; [exact Hsome|]. split.
  - intros Hnone sid s Hs Hr.
    assert ((Multiplayer.player_sessions sys !! nm
              ≫= λ sid, Multiplayer.active_sessions sys !! sid) = Some s)
      as Hfound by (apply Hsome; eauto).
    congruence.
  - intros Hno. apply eq_None_not_Some. intros [s Hget].
    apply Hsome in Hget as (sid & Hs & Hr). by destruct (Hno sid s).
Qed.

(** After Rin has created a session, it is the one found under her name. *)
Lemma get_player_session_finds_roster_witness :
  let sys := (Multiplayer.create_session (Sample.magician "Rin" 1 80) 4
                "AAAA0001" 0 Multiplayer.empty).2 in
  ∃ s, Multiplayer.get_player_session "Rin" sys = Some s ∧
       Multiplayer.on_roster "Rin" s.
Proof.
  intros sys.
  assert (Multiplayer.consistent sys) as Hc.
  { apply create_session_consistent;
      [apply empty_consistent|reflexivity|reflexivity]. }
  destruct (Multiplayer.get_player_session "Rin" sys) as [s|] eqn:Hs;
    [|vm_compute in Hs; discriminate].
  exists s. split; [reflexivity|].
  destruct (proj1 (proj1 (get_player_session_finds_roster sys "Rin" Hc) s)
              Hs) as (sid & _ & Hr).
  exact Hr.
Defined.

Lemma length_sort_by_agility l :
  length (Multiplayer.sort_by_agility l) = length l.
Proof. by rewrite sort_by_agility_perm. Qed.

Lemma interleave_enemy (names : list string) :
  length (names ≫= λ player_name, [player_name; "enemy"])
  = (2 * length names)%nat ∧
  ∀ i, (i < length names)%nat →
       (names ≫= λ player_name, [player_name; "enemy"]) !! (2 * i)%nat
         = names !! i ∧
       (names ≫= λ player_name, [player_name; "enemy"]) !! (2 * i + 1)%nat
         = Some "enemy".
Proof.
  induction names as [|n names [IHl IHi]].
  { split; [done|]. intros i Hi. simpl in Hi. lia. }
  rewrite bind_cons. split.
  { rewrite length_app, IHl. simpl. lia. }
  intros [|i] Hi; [done|].
  replace (2 * S i)%nat with (S (S (2 * i))) by lia.
  replace (S (S (2 * i)) + 1)%nat with (S (S (2 * i + 1))) by lia.
  cbn [app lookup list_lookup]. apply IHi. simpl in Hi. lia.
Qed.

(** X24. Team combat cannot be set up for a player without an
    ['agility'] stat: for an enemy dict that carries its name and hit
    points, [create_team_combat_state] raises exactly then.
    Otherwise the round is 1, the turn index 0, the roster the session's,
    and the turn order twice as long as the roster, with a player at each
    even position and the enemy at each odd one: the enemy acts once
    after every single player. *)
Theorem create_team_combat_state_outcome session enemy :
  (Multiplayer.create_team_combat_state session enemy = None ↔
   Exists (λ p, Character.stats p !! "agility" = None)
          (Multiplayer.players session)) ∧
  ∀ tc,
    Multiplayer.create_team_combat_state session enemy = Some tc →
    Multiplayer.tc_players tc = Multiplayer.players session ∧
    Multiplayer.tc_enemy tc = enemy ∧
    Multiplayer.current_turn tc = 0 ∧ Multiplayer.tc_round tc = 1 ∧
    Multiplayer.tc_status tc = "ongoing" ∧
    length (Multiplayer.turn_order tc)
      = (2 * length (Multiplayer.players session))%nat ∧
    ∀ i, (i < length (Multiplayer.players session))%nat →
         (∃ p, p ∈ Multiplayer.players session ∧
               Multiplayer.turn_order tc !! (2 * i)%nat
                 = Some (Character.name p)) ∧
         Multiplayer.turn_order tc !! (2 * i + 1)%nat = Some "enemy".
Proof.
  unfold Multiplayer.create_team_combat_state,
    Multiplayer._determine_turn_order. split.
  - rewrite bind_None. split.
    + intros [H|(order & _ & ?)]; [|done].
      apply bind_None in H as [H|(keyed & _ & ?)]; [|done].
      apply mapM_None in H. eapply Exists_impl; [exact H|]. simpl.
      intros p Hp. by destruct (Character.stats p !! "agility").
    + intros Hex. left. apply bind_None. left. apply mapM_None.
      eapply Exists_impl; [exact Hex|]. simpl. by intros p ->.
  - intros tc (order & (keyed & Hkeyed & [= <-])%bind_Some & [= <-])%bind_Some.
    assert (length (Character.name <$> (Multiplayer.sort_by_agility keyed).*2)
            = length (Multiplayer.players session)) as Hlen.
    { rewrite !length_fmap, length_sort_by_agility.
      by rewrite <-(length_mapM _ _ _ Hkeyed). }
    destruct (interleave_enemy
                (Character.name <$> (Multiplayer.sort_by_agility keyed).*2))
      as [Hl Hi].
    cbn [Multiplayer.tc_players Multiplayer.tc_enemy Multiplayer.current_turn
         Multiplayer.tc_round Multiplayer.tc_status Multiplayer.turn_order].
    repeat split; try done.
    + by rewrite Hl, Hlen.
    + destruct (Hi i) as [-> _]; [by rewrite Hlen|].
      destruct (lookup_lt_is_Some_2
                  (Multiplayer.sort_by_agility keyed) i) as [[a p] Hp].
      { rewrite length_sort_by_agility, <-(length_mapM _ _ _ Hkeyed). lia. }
      exists p. split.
      * apply list_elem_of_lookup_2 in Hp.
        rewrite sort_by_agility_perm in Hp.
        apply mapM_Some in Hkeyed.
        apply list_elem_of_lookup in Hp as [j Hj].
        destruct (Forall2_lookup_r _ _ _ _ _ Hkeyed Hj) as (q & Hq & Hqp).
        destruct (Character.stats q !! "agility"); [|done].
        injection Hqp as _ <-. by eapply list_elem_of_lookup_2.
      * by rewrite !list_lookup_fmap, Hp.
    + destruct (Hi i) as [_ ->]; [by rewrite Hlen|done].
Qed.


(** * Further properties of solo combat *)

Lemma set_player_hp_same p :
  Combat.set_player_hp (Character.current_hp p) p = p.
Proof. by destruct p. Qed.

Lemma set_enemy_attack_same e :
  Combat.set_enemy_attack (Combat.attack e) e = e.
Proof. by destruct e. Qed.

Lemma hit_loop_le n sd def : ∀ acc,
  (Combat.hit_loop n sd def acc).2 ≤ acc.2 ∨
  (Combat.hit_loop n sd def acc).2 = 0.
Proof.
  induction n as [|n IH]; intros acc; simpl; [lia|].
  pose proof (hit_loop_nonneg n sd def
                (acc.1 + Z.max 1 (sd - def),
                 Z.max 0 (acc.2 - Z.max 1 (sd - def)))) as Hnn.
  destruct (IH (acc.1 + Z.max 1 (sd - def),
                Z.max 0 (acc.2 - Z.max 1 (sd - def)))) as [H|H];
    simpl in *; lia.
Qed.

(** What a special ability can do to the combat state: lower the player's
    hit points, change the enemy's attack, and add lines to the log. *)
Lemma execute_enemy_special_ability_shape cs g cs' g' :
  Combat._execute_enemy_special_ability cs g = Some (cs', g') →
  Combat.special_abilities (Combat.enemy cs) ≠ [] →
  ∃ hp atk extra,
    cs' = {| Combat.player := Combat.set_player_hp hp (Combat.player cs);
             Combat.enemy := Combat.set_enemy_attack atk (Combat.enemy cs);
             Combat.turn := Combat.turn cs; Combat.round := Combat.round cs;
             Combat.status := Combat.status cs;
             Combat.log := Combat.log cs ++ extra;
             Combat.player_defending := Combat.player_defending cs |} ∧
    extra ≠ [] ∧
    (hp ≤ Character.current_hp (Combat.player cs) ∨ hp = 0) ∧
    (0 ≤ Character.current_hp (Combat.player cs) → 0 ≤ hp).
Proof.
  unfold Combat._execute_enemy_special_ability.
  destruct (Combat.special_abilities (Combat.enemy cs)) as [|a0 abs];
    [done|]. intros H _.
  apply bindM_inv in H as (ability & g1 & _ & H).
  destruct (Combat.damage_multiplier _) as [mult|].
  - apply bindM_inv in H as (bd & g2 & _ & H).
    apply bindM_inv in H as (sd & g3 & _ & H).
    pose proof (hit_loop_nonneg
                  (Z.to_nat (default 1 (Combat.hits
                     (Combat.lookup_effect (Combat.name (Combat.enemy cs))
                        ability))))
                  sd (Combat.player_defense (Combat.player cs))
                  (0, Character.current_hp (Combat.player cs))) as Hnn.
    pose proof (hit_loop_le
                  (Z.to_nat (default 1 (Combat.hits
                     (Combat.lookup_effect (Combat.name (Combat.enemy cs))
                        ability))))
                  sd (Combat.player_defense (Combat.player cs))
                  (0, Character.current_hp (Combat.player cs))) as Hle.
    destruct (Combat.hit_loop _ _ _ _) as [total hp].
    injection H as <- _. simpl in *.
    eexists hp, (Combat.attack (Combat.enemy cs)), _.
    unfold Combat.with_player_enemy_log.
    rewrite set_enemy_attack_same, <-app_assoc. split; [done|].
    split; [done|]. auto.
  - repeat case_bool_decide.
    + injection H as <- _.
      eexists (Character.current_hp (Combat.player cs)),
              (Combat.attack (Combat.enemy cs)), _.
      unfold Combat.with_player_enemy_log.
      rewrite set_enemy_attack_same, set_player_hp_same, <-app_assoc.
      split; [done|]. split; [done|]. split; [lia|done].
    + apply bindM_inv in H as (b & g2 & _ & H). injection H as <- _.
      eexists (Character.current_hp (Combat.player cs)), b, _.
      unfold Combat.with_player_enemy_log.
      rewrite set_player_hp_same, <-app_assoc.
      split; [done|]. split; [done|]. split; [lia|done].
    + injection H as <- _.
      eexists _, (Combat.attack (Combat.enemy cs)), _.
      unfold Combat.with_player_enemy_log.
      rewrite set_enemy_attack_same, <-app_assoc.
      split; [done|]. split; [done|]. split; lia.
    + injection H as <- _.
      eexists (Character.current_hp (Combat.player cs)),
              (Combat.attack (Combat.enemy cs)), _.
      unfold Combat.with_player_enemy_log.
      rewrite set_enemy_attack_same, set_player_hp_same.
      split; [done|]. split; [done|]. split; [lia|done].
Qed.

Lemma determine_enemy_action_special e p g g1 :
  Combat._determine_enemy_action e p g = Some (Combat.Special, g1) →
  Combat.special_abilities e ≠ [].
Proof.
  unfold Combat._determine_enemy_action.
  intros (ratio & g2 & _ & H)%bindM_inv.
  destruct (Combat.special_abilities e) as [|a abs]; [|done].
  rewrite andb_false_r in H. simpl in H. done.
Qed.

(** The whole of what [enemy_turn] can change. *)
Lemma enemy_turn_shape cs g cs' g' :
  Combat.enemy_turn cs g = Some (cs', g') →
  ∃ hp atk extra,
    Combat.player cs' = Combat.set_player_hp hp (Combat.player cs) ∧
    Combat.enemy cs' = Combat.set_enemy_attack atk (Combat.enemy cs) ∧
    Combat.log cs' = Combat.log cs ++ extra ∧ extra ≠ [] ∧
    (hp ≤ Character.current_hp (Combat.player cs) ∨ hp = 0) ∧
    (0 ≤ Character.current_hp (Combat.player cs) → 0 ≤ hp) ∧
    (Combat.round cs' = Combat.round cs ∨
     Combat.round cs' = Combat.round cs + 1).
Proof.
  unfold Combat.enemy_turn.
  intros (act & g1 & Hact & H)%bindM_inv. destruct act.
  - apply bindM_inv in H as (d & g2 & _ & H). simpl in H.
    destruct (Combat.player_defending cs); destruct (Z.leb _ _);
      injection H as <- _; simpl;
      eexists _, (Combat.attack (Combat.enemy cs)), _;
      (split; [reflexivity|]);
      (split; [by rewrite set_enemy_attack_same|]);
      (split; [rewrite <-?app_assoc; reflexivity|]);
      (split; [done|]); (split; [lia|]); (split; [lia|]); auto.
  - apply bindM_inv in H as (cs1 & g2 & H1 & H).
    apply determine_enemy_action_special in Hact.
    apply execute_enemy_special_ability_shape in H1
      as (hp & atk & extra & -> & Hextra & Hle & Hnn); [|done].
    injection H as <- _. simpl. exists hp, atk, extra. auto 10.
Qed.


Lemma player_attack_shape cs g cs' g' :
  Combat.player_attack cs g = Some (cs', g') →
  ∃ damage extra,
    1 ≤ damage ∧
    Combat.player cs' = Combat.player cs ∧
    Combat.enemy cs'
    = Combat.set_enemy_hp
        (Z.max 0 (Combat.current_hp (Combat.enemy cs) - damage))
        (Combat.enemy cs) ∧
    Combat.log cs' = Combat.log cs ++ extra ∧ extra ≠ [] ∧
    Combat.round cs' = Combat.round cs ∧
    Combat.player_defending cs' = Combat.player_defending cs.
Proof.
  unfold Combat.player_attack. intros (d & g1 & _ & H)%bindM_inv.
  simpl in H.
  destruct (Z.leb _ _); injection H as <- _; simpl;
    eexists _, _; (split; [|split; [done|split; [done|]]]);
    [|rewrite <-?app_assoc; split; [reflexivity|done]
     |
     |split; [reflexivity|done]]; lia.
Qed.

Lemma player_defend_shape cs g cs' g' :
  Combat.player_defend cs g = Some (cs', g') →
  ∃ heal_amount,
    5 ≤ heal_amount ≤ 15 ∧
    cs' = {| Combat.player :=
               Combat.set_player_hp
                 (Z.min (Character.max_hp (Combat.player cs))
                        (Character.current_hp (Combat.player cs)
                         + heal_amount))
                 (Combat.player cs);
             Combat.enemy := Combat.enemy cs; Combat.turn := "enemy";
             Combat.round := Combat.round cs;
             Combat.status := Combat.status cs;
             Combat.log := Combat.log cs ++
               [Character.name (Combat.player cs)
                  +:+ " takes a defensive stance and recovers "
                  +:+ pretty heal_amount +:+ " HP!"];
             Combat.player_defending := true |}.
Proof.
  unfold Combat.player_defend.
  intros (heal & g1 & Hheal%randint_inv & H)%bindM_inv.
  injection H as <- _. by exists heal.
Qed.

(** X9. Each of the three combat actions keeps the hit points of both
    combatants between 0 and their maximum, and none of them changes a
    maximum. *)
Theorem combat_actions_keep_hp_in_range cs g cs' g' :
  Combat.hp_in_range cs →
  Combat.player_attack cs g = Some (cs', g') ∨
  Combat.player_defend cs g = Some (cs', g') ∨
  Combat.enemy_turn cs g = Some (cs', g') →
  Combat.hp_in_range cs' ∧
  Character.max_hp (Combat.player cs') = Character.max_hp (Combat.player cs) ∧
  Combat.max_hp (Combat.enemy cs') = Combat.max_hp (Combat.enemy cs).
Proof.
  unfold Combat.hp_in_range. intros [Hp He] [H|[H|H]].
  - apply player_attack_shape
      in H as (damage & extra & Hd & -> & -> & _). simpl.
    repeat split; try done; lia.
  - apply player_defend_shape in H as (heal & Hheal & ->). simpl.
    repeat split; try done; lia.
  - apply enemy_turn_shape
      in H as (hp & atk & extra & -> & -> & _ & _ & Hle & Hnn & _). simpl.
    repeat split; try done; lia.
Qed.

(** X10. The combat log is append-only: each action returns the old log
    followed by at least one new line. The round counter never goes back:
    the player's actions leave it alone and the enemy's turn adds at most
    one. *)
Theorem combat_log_only_grows cs g cs' g' :
  (Combat.player_attack cs g = Some (cs', g') ∨
   Combat.player_defend cs g = Some (cs', g') →
   Combat.round cs' = Combat.round cs ∧
   ∃ extra, extra ≠ [] ∧ Combat.log cs' = Combat.log cs ++ extra) ∧
  (Combat.enemy_turn cs g = Some (cs', g') →
   (Combat.round cs' = Combat.round cs ∨
    Combat.round cs' = Combat.round cs + 1) ∧
   ∃ extra, extra ≠ [] ∧ Combat.log cs' = Combat.log cs ++ extra).
Proof.
  split.
  - intros [H|H].
    + apply player_attack_shape
        in H as (damage & extra & _ & _ & _ & Hlog & Hne & Hr & _). eauto.
    + apply player_defend_shape in H as (heal & _ & ->). simpl.
      split; [done|]. eexists. split; [|done]. done.
  - intros H. apply enemy_turn_shape
      in H as (hp & atk & extra & _ & _ & Hlog & Hne & _ & _ & Hr). eauto.
Qed.


Lemma calculate_enemy_damage_inv e g d g' :
  Combat._calculate_enemy_damage e g = Some (d, g') →
  ∃ variance, -2 ≤ variance ≤ 2 ∧
              Random.randint (-2) 2 g = Some (variance, g') ∧
              d = Z.max 1 (Combat.attack e + variance).
Proof.
  unfold Combat._calculate_enemy_damage.
  intros (v & g1 & Hv & H)%bindM_inv. injection H as <- <-.
  exists v. split; [by eapply randint_inv|done].
Qed.


Lemma truediv_by_zero a : PyFloat.truediv a 0 = None.
Proof. reflexivity. Qed.

Lemma determine_enemy_action_no_abilities e p g :
  Combat.special_abilities e = [] →
  Combat._determine_enemy_action e p g
  = (if Combat.max_hp e =? 0 then None
     else (λ _, (Combat.Attack, g))
            <$> PyFloat.truediv (Combat.current_hp e) (Combat.max_hp e)).
Proof.
  intros He. unfold Combat._determine_enemy_action, Random.bind, Random.lift.
  rewrite He. unfold PyFloat.truediv at 2.
  destruct (Z.eqb_spec (Combat.max_hp e) 0) as [->|Hne]; [done|].
  destruct (PyFloat.truediv _ _) as [ratio|] eqn:Hr.
  - unfold PyFloat.truediv in Hr.
    destruct (Z.eqb_spec (Combat.max_hp e) 0); [done|]. rewrite Hr.
    by rewrite andb_false_r.
  - unfold PyFloat.truediv in Hr.
    destruct (Z.eqb_spec (Combat.max_hp e) 0); [done|]. by rewrite Hr.
Qed.

(** X13. Two edges of the enemy's choice of action. An enemy whose
    ['max_hp'] is 0 makes [enemy_turn] raise for every state of the random
    source (the ratio [current_hp / max_hp] divides by zero). An enemy with
    no special abilities always makes a plain attack, and its turn consumes
    exactly one draw, the damage variance, which fixes the damage dealt. *)
Theorem enemy_turn_action_edges cs g :
  (Combat.max_hp (Combat.enemy cs) = 0 → Combat.enemy_turn cs g = None) ∧
  (Combat.special_abilities (Combat.enemy cs) = [] →
   ∀ cs' g', Combat.enemy_turn cs g = Some (cs', g') →
   ∃ variance,
     Random.randint (-2) 2 g = Some (variance, g') ∧
     let damage := Z.max 1 (Combat.attack (Combat.enemy cs) + variance) in
     let damage :=
       if Combat.player_defending cs then Z.max 1 (damage `div` 2)
       else damage in
     Character.current_hp (Combat.player cs')
     = Z.max 0 (Character.current_hp (Combat.player cs)
                - Z.max 1 (damage - Combat.player_defense (Combat.player cs)))
     ∧ Combat.enemy cs' = Combat.enemy cs
     ∧ Combat.player_defending cs' = false).
Proof.
  split.
  - intros Hmax. unfold Combat.enemy_turn. apply bindM_None.
    unfold Combat._determine_enemy_action. apply bindM_None.
    by rewrite Hmax.
  - intros He cs' g'. unfold Combat.enemy_turn.
    intros (act & g0 & Hact & H)%bindM_inv.
    rewrite (determine_enemy_action_no_abilities _ _ _ He) in Hact.
    destruct (Combat.max_hp (Combat.enemy cs) =? 0); [done|].
    destruct (PyFloat.truediv _ _); [|done]. injection Hact as <- <-.
    apply bindM_inv in H as (d & g1 & Hd & H).
    apply calculate_enemy_damage_inv in Hd as (v & _ & Hv & ->).
    exists v. cbv zeta in *.
    destruct (Z.leb _ _); injection H as <- <-; done.
Qed.

Lemma execute_enemy_special_ability_status cs g a g1 k d :
  Random.choice (Combat.special_abilities (Combat.enemy cs)) g
    = Some (a, g1) →
  Combat.ability_effects (Combat.name (Combat.enemy cs)) !! a
    = Some (Combat.status_only k d) →
  k ≠ "buff" → k ≠ "poison" →
  Combat._execute_enemy_special_ability cs g
  = Some (Combat.with_player_enemy_log (Combat.player cs) (Combat.enemy cs)
            (Combat.log cs ++
               d :: (if bool_decide (k = "stun")
                     then [Character.name (Combat.player cs)
                             +:+ " is intimidated and loses next turn!"]
                     else []))
            cs, g1).
Proof.
  intros Hch Heff Hb Hp. unfold Combat._execute_enemy_special_ability.
  destruct (Combat.special_abilities (Combat.enemy cs)) as [|a0 abs];
    [done|].
  rewrite (bindM_Some _ _ _ _ _ Hch). unfold Combat.lookup_effect.
  rewrite Heff. simpl. case_bool_decide as Hstun.
  - injection Hstun as ->. rewrite bool_decide_eq_true_2 by done.
    by rewrite <-app_assoc.
  - rewrite (bool_decide_eq_false_2 (k = "stun")) by congruence.
    rewrite !bool_decide_eq_false_2 by congruence. done.
Qed.

(** X14. The stun and the grapple do nothing. When the enemy's turn uses
    'Intimidating Roar' or 'Bear Hug', the player and the enemy come out
    as they went in, the status is unchanged, and the turn goes to the
    player as after any other enemy turn: the line "loses next turn" is
    only written to the log. *)
Theorem stun_and_grapple_change_nothing cs g g0 a g1 :
  Combat._determine_enemy_action (Combat.enemy cs) (Combat.player cs) g
    = Some (Combat.Special, g0) →
  Random.choice (Combat.special_abilities (Combat.enemy cs)) g0
    = Some (a, g1) →
  a = "Intimidating Roar" ∨ a = "Bear Hug" →
  ∃ cs' extra,
    Combat.enemy_turn cs g = Some (cs', g1) ∧
    Combat.player cs' = Combat.player cs ∧
    Combat.enemy cs' = Combat.enemy cs ∧
    Combat.status cs' = Combat.status cs ∧
    Combat.turn cs' = "player" ∧
    Combat.round cs' = Combat.round cs + 1 ∧
    Combat.player_defending cs' = Combat.player_defending cs ∧
    Combat.log cs' = Combat.log cs ++ extra ∧
    (a = "Intimidating Roar" →
     extra = [Combat.name (Combat.enemy cs)
                +:+ " lets out an intimidating roar!";
              Character.name (Combat.player cs)
                +:+ " is intimidated and loses next turn!"]).
Proof.
  intros Hact Hch Ha. unfold Combat.enemy_turn.
  rewrite (bindM_Some _ _ _ _ _ Hact).
  destruct Ha as [->| ->].
  - rewrite (bindM_Some _ _ _ _ _
               (execute_enemy_special_ability_status cs g0
                  "Intimidating Roar" g1 "stun" _ Hch eq_refl
                  ltac:(done) ltac:(done))).
    eexists _, _. split; [reflexivity|]. simpl. repeat split; done.
  - rewrite (bindM_Some _ _ _ _ _
               (execute_enemy_special_ability_status cs g0 "Bear Hug" g1
                  "grapple" _ Hch eq_refl ltac:(done) ltac:(done))).
    eexists _, _. split; [reflexivity|]. simpl. repeat split; done.
Qed.

(** X15. An ability without an entry in the effect table is a single hit
    at 1.2 times the enemy's damage, whatever its name says. This is so
    for 'Area Attack' and 'Regeneration', which team scaling appends, and
    for the bestiary's 'Trumpet Call', 'Thick Hide' and 'Bite and Hold'. *)
Theorem unlisted_ability_is_a_plain_hit cs g a g1 base_damage g2 sd :
  Combat.ability_effects (Combat.name (Combat.enemy cs)) !! a = None →
  Random.choice (Combat.special_abilities (Combat.enemy cs)) g
    = Some (a, g1) →
  Combat._calculate_enemy_damage (Combat.enemy cs) g1
    = Some (base_damage, g2) →
  PyFloat.int_mul base_damage PyFloat.f1_2 ≫= PyFloat.to_int = Some sd →
  let damage := Z.max 1 (sd - Combat.player_defense (Combat.player cs)) in
  Combat._execute_enemy_special_ability cs g
  = Some (Combat.with_player_enemy_log
            (Combat.set_player_hp
               (Z.max 0 (Character.current_hp (Combat.player cs) - damage))
               (Combat.player cs))
            (Combat.enemy cs)
            (Combat.log cs ++
               [Combat.name (Combat.enemy cs) +:+ " uses " +:+ a +:+ "!";
                Character.name (Combat.player cs) +:+ " takes "
                  +:+ pretty damage +:+ " damage from " +:+ a +:+ "!"])
            cs, g2)
  ∧ ∀ enemy_name b,
      b ∈ ["Area Attack"; "Regeneration"; "Trumpet Call"; "Thick Hide";
           "Bite and Hold"] →
      Combat.ability_effects enemy_name !! b = None.
Proof.
  intros Hnone Hch Hbd Hsd damage. split.
  - unfold Combat._execute_enemy_special_ability.
    destruct (Combat.special_abilities (Combat.enemy cs)) as [|a0 abs];
      [done|].
    rewrite (bindM_Some _ _ _ _ _ Hch). unfold Combat.lookup_effect.
    rewrite Hnone. cbn [default Combat.damaging Combat.damage_multiplier
                        Combat.hits Combat.description].
    rewrite (bindM_Some _ _ _ _ _ Hbd).
    rewrite (bindM_Some _ _ _ _ _ (liftM_Some _ _ _ Hsd)).
    change (Z.to_nat 1) with 1%nat. cbn [Combat.hit_loop fst snd].
    unfold Random.ret. rewrite Z.add_0_l, <-app_assoc. done.
  - intros enemy_name b Hb.
    repeat (apply elem_of_cons in Hb as [->|Hb]; [reflexivity|]).
    by apply elem_of_nil in Hb.
Qed.

(** * Further properties of characters *)

(** The growth roll, read backwards: one entry per stat of the class
    other than ['max_hp'], in the class's order, each inside the range
    that the base value selects. *)
Lemma calculate_stat_growth_items_inv base : ∀ g growth g',
  Character._calculate_stat_growth_items base g = Some (growth, g') →
  Forall2 (λ kv bv : string * Z,
             kv.1 = bv.1 ∧ 1 ≤ kv.2 ≤ 4 ∧
             (16 ≤ bv.2 → 2 ≤ kv.2) ∧ (bv.2 < 16 → kv.2 ≤ 3) ∧
             (bv.2 < 12 → kv.2 ≤ 2))
          growth
          (List.filter (λ bv, negb (String.eqb bv.1 "max_hp")) base).
Proof.
  induction base as [|[stat v] base IH]; intros g growth g'; simpl.
  { intros [= <- _]. constructor. }
  destruct (String.eqb_spec stat "max_hp") as [->|Hne]; simpl.
  { apply IH. }
  intros (r & g1 & Hr & H)%bindM_inv.
  apply bindM_inv in H as (rest & g2 & Hrest & [= <- _]).
  constructor; [|by eapply IH]. simpl. split; [done|].
  destruct (Z.leb_spec 16 v); [|destruct (Z.leb_spec 12 v)];
    apply randint_inv in Hr; lia.
Qed.

Lemma apply_growth_frame growth : ∀ (st st' : gmap string Z) k,
  Character.apply_growth growth st = Some st' →
  k ∉ growth.*1 → st' !! k = st !! k.
Proof.
  induction growth as [|[stat v] growth IH]; intros st st' k; simpl.
  { by intros [= <-]. }
  intros (old & Hold & H)%bind_Some [Hne Hk]%not_elem_of_cons.
  rewrite (IH _ _ _ H Hk). by rewrite lookup_insert_ne.
Qed.

Lemma apply_growth_lookup growth : ∀ (st st' : gmap string Z),
  NoDup growth.*1 →
  Character.apply_growth growth st = Some st' →
  ∀ k v, (k, v) ∈ growth →
         ∃ old, st !! k = Some old ∧ st' !! k = Some (old + v).
Proof.
  induction growth as [|[stat x] growth IH]; intros st st' Hnd; simpl.
  { intros _ k v Hin. by apply elem_of_nil in Hin. }
  simpl in Hnd. apply NoDup_cons in Hnd as [Hfresh Hnd].
  intros (old & Hold & H)%bind_Some k v [[= -> ->]|Hin]%elem_of_cons.
  - exists old. split; [done|].
    rewrite (apply_growth_frame _ _ _ _ H Hfresh).
    by rewrite lookup_insert_eq.
  - destruct (IH _ _ Hnd H k v Hin) as (o & Ho & Hst').
    assert (k ≠ stat) as Hne.
    { intros ->. apply Hfresh, list_elem_of_fmap. by exists (stat, v). }
    rewrite lookup_insert_ne in Ho by done. eauto.
Qed.

(** Every class of the table lists each stat once, ['max_hp'] among
    them. *)
Lemma character_classes_keys cls cd :
  Character.character_classes !! cls = Some cd →
  (Character.base_stats cd).*1
  = ["strength"; "agility"; "intelligence"; "defense"; "magic_power";
     "max_hp"].
Proof.
  intros Hin%elem_of_list_to_map_2.
  repeat (apply elem_of_cons in Hin as [[= -> ->]|Hin]; [reflexivity|]).
  by apply elem_of_nil in Hin.
Qed.

Lemma filter_keys (base : list (string * Z)) :
  (List.filter (λ bv, negb (String.eqb bv.1 "max_hp")) base).*1
  = List.filter (λ k, negb (String.eqb k "max_hp")) base.*1.
Proof.
  induction base as [|[k v] base IH]; [done|]. simpl.
  destruct (String.eqb k "max_hp"); simpl; [exact IH|f_equal; exact IH].
Qed.

Lemma Forall2_keys (growth base : list (string * Z)) P :
  Forall2 (λ kv bv : string * Z, kv.1 = bv.1 ∧ P kv bv) growth base →
  growth.*1 = base.*1.
Proof.
  induction 1 as [|kv bv growth base [Hk _] _ IH]; [done|].
  rewrite !fmap_cons. by f_equal.
Qed.

(** What a successful [level_up] went through. *)
Lemma level_up_inv c g c' g' :
  Character.level_up c g = Some (c', g') →
  ∃ cd growth g1 st inc hp,
    Character.character_classes !! Character.class c = Some cd ∧
    Character._calculate_stat_growth_items (Character.base_stats cd) g
      = Some (growth, g1) ∧
    Character.apply_growth growth (Character.stats c) = Some st ∧
    Random.randint 8 15 g1 = Some (inc, g') ∧
    st !! "max_hp" = Some hp ∧
    c' = {| Character.name := Character.name c;
            Character.class := Character.class c;
            Character.level := Character.level c + 1;
            Character.experience := 0;
            Character.experience_to_next := (Character.level c + 1) * 100;
            Character.gold := Character.gold c;
            Character.stats := <["max_hp" := hp + inc]> st;
            Character.current_hp := hp + inc;
            Character.max_hp := hp + inc;
            Character.abilities := Character.abilities c;
            Character.inventory := Character.inventory c;
            Character.quests_completed := Character.quests_completed c;
            Character.monsters_defeated := Character.monsters_defeated c |}.
Proof.
  unfold Character.level_up, Character._calculate_stat_growth.
  intros (cd & g0 & [Hcd ->]%liftM_inv & H)%bindM_inv.
  apply bindM_inv in H as (growth & g1 & Hgrowth & H).
  apply bindM_inv in H as (st & g2 & [Hst ->]%liftM_inv & H).
  apply bindM_inv in H as (inc & g3 & Hinc & H).
  apply bindM_inv in H as (hp & g4 & [Hhp ->]%liftM_inv & [= <- <-]).
  by exists cd, growth, g1, st, inc, hp.
Qed.

(** [level_up] returns on a character of a class of the table that has
    the six stats. *)
Lemma level_up_total c g cd :
  Character.character_classes !! Character.class c = Some cd →
  (∀ k, k ∈ (Character.base_stats cd).*1 →
        is_Some (Character.stats c !! k)) →
  ∃ c' g', Character.level_up c g = Some (c', g').
Proof.
  intros Hcd Hstats. unfold Character.level_up.
  rewrite (bindM_Some _ _ _ _ _ (liftM_Some _ _ _ Hcd)).
  unfold Character._calculate_stat_growth.
  destruct (calculate_stat_growth_items_total (Character.base_stats cd) g)
    as (growth & g1 & Hgrowth & Hkeys).
  rewrite (bindM_Some _ _ _ _ _ Hgrowth).
  destruct (apply_growth_total growth (Character.stats c))
    as (st & Hst & Hframe).
  { eapply Forall_impl; [exact Hkeys|]. simpl. intros kv [_ Hin].
    by apply Hstats. }
  rewrite (bindM_Some _ _ _ _ _ (liftM_Some _ _ _ Hst)).
  destruct (randint_range 8 15 g1) as (inc & g2 & Hinc & _); [lia|].
  rewrite (bindM_Some _ _ _ _ _ Hinc).
  destruct (Hstats "max_hp") as [hp Hhp].
  { rewrite (character_classes_keys _ _ Hcd). repeat constructor. }
  assert (st !! "max_hp" = Some hp) as Hhp'.
  { rewrite Hframe; [done|]. intros Hin.
    apply list_elem_of_fmap in Hin as (kv & Hk & Hin).
    rewrite Forall_forall in Hkeys. destruct (Hkeys kv Hin) as [Hne _].
    by rewrite <-Hk in Hne. }
  rewrite (bindM_Some _ _ _ _ _ (liftM_Some _ _ _ Hhp')).
  unfold Random.ret. eauto.
Qed.

(** X16. Stat growth at a level-up. Whenever [level_up] returns, each of
    the five stats other than ['max_hp'] has grown by an amount that the
    class's base value selects (2..4 from a base of 16, 1..3 from 12,
    1..2 below), the stats outside the class table are untouched, the
    ['max_hp'] stat equals the character's new [max_hp], and name, class,
    gold, abilities, inventory and counters are unchanged. The character
    that comes out can level up again: a [level_up] that has returned once
    never raises afterwards. *)
Theorem level_up_growth c g c' g' :
  Character.level_up c g = Some (c', g') →
  (∃ cd,
    Character.character_classes !! Character.class c = Some cd ∧
    (∀ stat base_value,
       (stat, base_value) ∈ Character.base_stats cd → stat ≠ "max_hp" →
       ∃ old growth,
         Character.stats c !! stat = Some old ∧
         Character.stats c' !! stat = Some (old + growth) ∧
         (if 16 <=? base_value then 2 ≤ growth ≤ 4
          else if 12 <=? base_value then 1 ≤ growth ≤ 3
          else 1 ≤ growth ≤ 2)) ∧
    (∀ k, k ∉ (Character.base_stats cd).*1 →
          Character.stats c' !! k = Character.stats c !! k)) ∧
  Character.stats c' !! "max_hp" = Some (Character.max_hp c') ∧
  (Character.name c', Character.class c', Character.gold c',
   Character.abilities c', Character.inventory c',
   Character.quests_completed c', Character.monsters_defeated c')
  = (Character.name c, Character.class c, Character.gold c,
     Character.abilities c, Character.inventory c,
     Character.quests_completed c, Character.monsters_defeated c) ∧
  ∀ h, ∃ c'' h', Character.level_up c' h = Some (c'', h').
Proof.
  intros (cd & growth & g1 & st & inc & hp & Hcd & Hgrowth & Hst & Hinc
          & Hhp & ->)%level_up_inv.
  pose proof (character_classes_keys _ _ Hcd) as Hkeys.
  pose proof (calculate_stat_growth_items_inv _ _ _ _ Hgrowth) as Hinv.
  assert (growth.*1 = ["strength"; "agility"; "intelligence"; "defense";
                       "magic_power"]) as Hgk.
  { rewrite (Forall2_keys _ _ _ Hinv), filter_keys, Hkeys. reflexivity. }
  assert (NoDup growth.*1) as Hnd.
  { rewrite Hgk. apply (bool_decide_unpack _). by vm_compute. }
  assert (∀ k, k ∈ (Character.base_stats cd).*1 →
               is_Some ((<["max_hp" := hp + inc]> st) !! k)) as Hready.
  { intros k Hk. destruct (decide (k = "max_hp")) as [->|Hne].
    { rewrite lookup_insert_eq. eauto. }
    rewrite lookup_insert_ne by done.
    assert (k ∈ growth.*1) as (kv & -> & Hin)%list_elem_of_fmap.
    { rewrite Hgk. rewrite Hkeys in Hk.
      repeat (apply elem_of_cons in Hk as [->|Hk];
              [by repeat constructor|]).
      by apply elem_of_nil in Hk. }
    destruct kv as [k v]. simpl in *.
    destruct (apply_growth_lookup _ _ _ Hnd Hst k v Hin) as (o & _ & ->).
    eauto. }
  split; [|split; [|split]].
  - exists cd. split; [done|]. split.
    + intros stat bv Hin Hne.
      assert ((stat, bv) ∈ List.filter
                (λ bv, negb (String.eqb bv.1 "max_hp"))
                (Character.base_stats cd)) as Hin'.
      { apply list_elem_of_In, filter_In. split; [by apply list_elem_of_In|].
        simpl. by destruct (String.eqb_spec stat "max_hp"). }
      apply list_elem_of_lookup in Hin' as [i Hi].
      destruct (Forall2_lookup_r _ _ _ _ _ Hinv Hi)
        as ([k v] & Hgi & Hk & Hrange & H16 & H12 & Hlow).
      simpl in *. subst k.
      destruct (apply_growth_lookup _ _ _ Hnd Hst stat v)
        as (old & Hold & Hnew); [by eapply list_elem_of_lookup_2|].
      exists old, v. split; [done|]. split.
      * by rewrite lookup_insert_ne.
      * destruct (Z.leb_spec 16 bv); [|destruct (Z.leb_spec 12 bv)]; lia.
    + intros k Hk. simpl.
      assert (k ≠ "max_hp") as Hne.
      { intros ->. apply Hk. rewrite Hkeys. repeat constructor. }
      rewrite lookup_insert_ne by done.
      apply (apply_growth_frame _ _ _ _ Hst). rewrite Hgk.
      rewrite Hkeys in Hk. intros Hin. apply Hk.
      repeat (apply elem_of_cons in Hin as [->|Hin];
              [by repeat constructor|]).
      by apply elem_of_nil in Hin.
  - simpl. by rewrite lookup_insert_eq.
  - done.
  - intros h. by eapply level_up_total.
Qed.

(** A first-level magician levels up. *)
Lemma level_up_growth_witness :
  ∃ c' g',
    Character.level_up (Sample.magician "Rin" 1 80) [0; 1; 2; 0; 1; 3]%N
      = Some (c', g') ∧
    Character.stats c' !! "max_hp" = Some (Character.max_hp c') ∧
    ∃ c'' h', Character.level_up c' [] = Some (c'', h').
Proof.
  destruct (Character.level_up (Sample.magician "Rin" 1 80)
              [0; 1; 2; 0; 1; 3]%N) as [[c' g']|] eqn:Hrun;
    [|vm_compute in Hrun; discriminate].
  exists c', g'. split; [reflexivity|].
  destruct (level_up_growth _ _ _ _ Hrun) as (_ & Hmax & _ & Hagain).
  split; [exact Hmax|]. exact (Hagain []).
Defined.

Lemma with_inventory_same c :
  Character.with_inventory (Character.inventory c) c = c.
Proof. by destruct c. Qed.

(** The loop of [remove_item] takes out the first item of that name and
    nothing else. *)
Lemma pop_first_Some nm items : ∀ items',
  Character.pop_first nm items = Some items' ↔
  ∃ l1 it l2, items = l1 ++ it :: l2 ∧ Character.item_name it = nm ∧
              Forall (λ x, Character.item_name x ≠ nm) l1 ∧
              items' = l1 ++ l2.
Proof.
  induction items as [|x items IH]; intros items'; simpl.
  { split; [done|]. intros (l1 & it & l2 & H & _). by destruct l1. }
  destruct (String.eqb_spec (Character.item_name x) nm) as [Hx|Hx].
  - split.
    + intros [= <-]. by exists [], x, items.
    + intros (l1 & it & l2 & H & Hit & Hl1 & ->).
      destruct l1 as [|y l1]; simpl in H.
      * by injection H as _ <-.
      * injection H as <- _. by apply Forall_cons in Hl1 as [? _].
  - rewrite fmap_Some. split.
    + intros (rest & (l1 & it & l2 & -> & Hit & Hl1 & ->)%IH & ->).
      exists (x :: l1), it, l2. repeat split; try done. by constructor.
    + intros (l1 & it & l2 & H & Hit & Hl1 & ->).
      destruct l1 as [|y l1]; simpl in H.
      * injection H as -> _. done.
      * injection H as <- ->. apply Forall_cons in Hl1 as [_ Hl1].
        exists (l1 ++ l2). split; [|done]. apply IH. by exists l1, it, l2.
Qed.

Lemma pop_first_None nm items :
  Character.pop_first nm items = None ↔
  Forall (λ x, Character.item_name x ≠ nm) items.
Proof.
  induction items as [|x items IH]; simpl; [done|].
  destruct (String.eqb_spec (Character.item_name x) nm) as [Hx|Hx].
  - split; [done|]. by intros [? _]%Forall_cons.
  - rewrite fmap_None, IH. split; [by constructor|].
    by intros [_ ?]%Forall_cons.
Qed.

(** X17. [remove_item] answers [True] exactly when the category exists and
    holds an item of that name; it then takes out the first such item of
    that category and leaves the order of the others, and every other
    category, as they were. When it answers [False] the character is
    unchanged. *)
Theorem remove_item_outcome c nm ty :
  match Character.inventory c !! ty with
  | None => Character.remove_item c nm ty = (false, c)
  | Some items =>
      (Forall (λ x, Character.item_name x ≠ nm) items ∧
       Character.remove_item c nm ty = (false, c)) ∨
      (∃ l1 it l2,
         items = l1 ++ it :: l2 ∧ Character.item_name it = nm ∧
         Forall (λ x, Character.item_name x ≠ nm) l1 ∧
         Character.remove_item c nm ty
         = (true, Character.with_inventory
                    (<[ty := l1 ++ l2]> (Character.inventory c)) c))
  end.
Proof.
  unfold Character.remove_item.
  destruct (Character.inventory c !! ty) as [items|]; [|done].
  destruct (Character.pop_first nm items) as [items'|] eqn:Hpop.
  - right. apply pop_first_Some in Hpop as (l1 & it & l2 & ? & ? & ? & ->).
    by exists l1, it, l2.
  - left. by apply pop_first_None in Hpop.
Qed.

(** X18. [add_item] answers [False] and changes nothing when the
    inventory has no category of the item's type; otherwise the item goes
    to the end of that category. Removing by the name just added succeeds
    and gives the character back as it was, provided the category held no
    item of that name; if it did, the older item is the one taken out and
    the new one stays last. *)
Theorem add_then_remove_item c it :
  (Character.inventory c !! Character.item_type it = None →
   Character.add_item c it = (false, c)) ∧
  ∀ items,
    Character.inventory c !! Character.item_type it = Some items →
    ∃ c1 c2,
      Character.add_item c it = (true, c1) ∧
      Character.inventory c1
      = <[Character.item_type it := items ++ [it]]> (Character.inventory c) ∧
      Character.remove_item c1 (Character.item_name it)
        (Character.item_type it) = (true, c2) ∧
      (Forall (λ x, Character.item_name x ≠ Character.item_name it) items →
       c2 = c) ∧
      (∀ l1 old l2,
         items = l1 ++ old :: l2 →
         Character.item_name old = Character.item_name it →
         Forall (λ x, Character.item_name x ≠ Character.item_name it) l1 →
         Character.inventory c2 !! Character.item_type it
         = Some (l1 ++ l2 ++ [it])).
Proof.
  unfold Character.add_item. split; [by intros ->|].
  intros items Hitems. rewrite Hitems.
  destruct (Character.pop_first (Character.item_name it) (items ++ [it]))
    as [items'|] eqn:Hpop.
  2:{ apply pop_first_None, Forall_app in Hpop as [_ Hpop].
      by apply Forall_cons in Hpop as [? _]. }
  eexists _, _. split; [reflexivity|]. split; [reflexivity|].
  unfold Character.remove_item. cbn [Character.with_inventory
    Character.inventory]. rewrite lookup_insert_eq, Hpop.
  split; [reflexivity|].
  apply pop_first_Some in Hpop as (l1 & x & l2 & Heq & Hx & Hl1 & ->).
  split.
  - intros Hfresh.
    assert (l1 = items ∧ l2 = []) as [-> ->].
    { destruct (decide (length l1 < length items)%nat) as [Hlt|Hge].
      - exfalso. apply (f_equal (λ l, l !! length l1)) in Heq.
        rewrite lookup_app_l in Heq by done.
        rewrite list_lookup_middle in Heq by done.
        rewrite Forall_forall in Hfresh. apply (Hfresh x); [|done].
        by eapply list_elem_of_lookup_2.
      - pose proof (f_equal length Heq) as Hlen.
        rewrite !length_app in Hlen. simpl in Hlen.
        assert (length l1 = length items ∧ l2 = []) as [Hl ->]
          by (destruct l2; simpl in *; [split; [lia|done]|lia]).
        apply app_inj_1 in Heq as [? _]; done. }
    rewrite app_nil_r. unfold Character.with_inventory. simpl.
    rewrite insert_insert_eq, (insert_id _ _ _ Hitems). by destruct c.
  - intros k1 old k2 -> Hold Hk1. simpl. rewrite lookup_insert_eq.
    f_equal. rewrite <-!app_assoc in Heq. simpl in Heq.
    assert (l1 = k1) as ->.
    { destruct (Nat.lt_total (length l1) (length k1)) as [Hlt|[Hl|Hgt]].
      - exfalso. apply (f_equal (λ l, l !! length l1)) in Heq.
        rewrite lookup_app_l in Heq by done.
        rewrite list_lookup_middle in Heq by done.
        rewrite Forall_forall in Hk1. apply (Hk1 x); [|done].
        by eapply list_elem_of_lookup_2.
      - by apply app_inj_1 in Heq as [? _].
      - exfalso. symmetry in Heq.
        apply (f_equal (λ l, l !! length k1)) in Heq.
        rewrite lookup_app_l in Heq by done.
        rewrite list_lookup_middle in Heq by done.
        rewrite Forall_forall in Hl1. apply (Hl1 old); [|done].
        by eapply list_elem_of_lookup_2. }
    apply app_inv_head in Heq. by injection Heq as _ <-.
Qed.

(** A potion goes into a fresh magician's pack and comes out again. *)
Lemma add_then_remove_item_witness :
  ∃ c, Character.create_character "Rin" "magician" = Some c ∧
       Character.inventory c !! "items" = Some [] ∧
       ∃ c1,
         Character.add_item c
           {| Character.item_name := "Health Potion";
              Character.item_type := "items" |} = (true, c1) ∧
         Character.remove_item c1 "Health Potion" "items" = (true, c).
Proof.
  destruct (Character.create_character "Rin" "magician") as [c|] eqn:Hc;
    [|vm_compute in Hc; discriminate].
  assert (Character.inventory c !! "items" = Some []) as Hitems
    by (vm_compute in Hc; injection Hc as <-; vm_compute; reflexivity).
  exists c. split; [reflexivity|]. split; [exact Hitems|].
  destruct (proj2 (add_then_remove_item c
                     {| Character.item_name := "Health Potion";
                        Character.item_type := "items" |}) [] Hitems)
    as (c1 & c2 & Hadd & _ & Hrem & Hsame & _).
  exists c1. split; [exact Hadd|].
  rewrite (Hsame (Forall_nil_2 _)) in Hrem. exact Hrem.
Defined.

(** X19. [calculate_damage] without an ability (the default [None], or
    the empty string, which the test [if ability] also passes over): it
    raises exactly when the character has no ['strength'] stat, spends one
    draw, and answers the strength plus a variance of -5..5, floored at 1.
    With any ability the answer, when there is one, is at least 1. *)
Theorem calculate_damage_outcome c ability g :
  (ability = None ∨ ability = Some "" →
   match Character.stats c !! "strength" with
   | None => Character.calculate_damage c ability g = None
   | Some strength =>
       ∃ variance g',
         Random.randint (-5) 5 g = Some (variance, g') ∧
         -5 ≤ variance ≤ 5 ∧
         Character.calculate_damage c ability g
         = Some (Z.max 1 (strength + variance), g')
   end) ∧
  (∀ d g', Character.calculate_damage c ability g = Some (d, g') → 1 ≤ d).
Proof.
  split.
  - intros Hab. unfold Character.calculate_damage.
    destruct (Character.stats c !! "strength") as [s|]; [|done].
    destruct (randint_range (-5) 5 g) as (v & g' & Hv & Hr); [lia|].
    exists v, g'. split; [done|]. split; [done|].
    rewrite (bindM_Some _ _ _ _ _ (liftM_Some _ _ _ eq_refl)).
    destruct Hab as [->| ->]; simpl;
      rewrite (bindM_Some _ _ _ _ _ (eq_refl : Random.ret s g = Some (s, g)));
      by rewrite (bindM_Some _ _ _ _ _ Hv).
  - unfold Character.calculate_damage. intros d g'.
    intros (s & g1 & _ & H)%bindM_inv.
    apply bindM_inv in H as (b & g2 & _ & H).
    apply bindM_inv in H as (v & g3 & _ & [= <- _]). lia.
Qed.

(** The reward loop appends one item of type 'items' per name, in the
    order of the names. *)
Lemma add_reward_items_Some names : ∀ inv held,
  inv !! "items" = Some held →
  Quest.add_reward_items names inv
  = Some (<["items" :=
             held ++ ((λ n, {| Character.item_name := n;
                               Character.item_type := "items" |})
                      <$> names)]> inv).
Proof.
  induction names as [|n names IH]; intros inv held Hheld; simpl.
  { by rewrite app_nil_r, insert_id. }
  rewrite Hheld. simpl.
  rewrite (IH _ (held ++ [{| Character.item_name := n;
                            Character.item_type := "items" |}]))
    by apply lookup_insert_eq.
  by rewrite insert_insert_eq, <-app_assoc.
Qed.

(** X20. [complete_quest] adds the reward's gold and experience, counts one
    quest and one monster, and appends the reward's items, in order and
    with the type 'items', to the 'items' category. It never levels the
    character up: level and threshold stay, whatever the experience
    reaches. It raises exactly when the reward has items and the
    inventory has no 'items' category. *)
Theorem complete_quest_outcome reward player :
  (Quest.complete_quest reward player = None ↔
   Quest.items reward ≠ [] ∧
   Character.inventory player !! "items" = None) ∧
  ∀ player',
    Quest.complete_quest reward player = Some player' →
    Character.gold player' = Character.gold player + Quest.gold reward ∧
    Character.experience player'
      = Character.experience player + Quest.experience reward ∧
    Character.quests_completed player'
      = Character.quests_completed player + 1 ∧
    Character.monsters_defeated player'
      = Character.monsters_defeated player + 1 ∧
    Character.level player' = Character.level player ∧
    Character.experience_to_next player'
      = Character.experience_to_next player ∧
    (Character.current_hp player', Character.max_hp player',
     Character.stats player')
      = (Character.current_hp player, Character.max_hp player,
         Character.stats player) ∧
    (Quest.items reward = [] →
     Character.inventory player' = Character.inventory player) ∧
    (∀ held, Character.inventory player !! "items" = Some held →
       Character.inventory player'
       = <["items" :=
             held ++ ((λ n, {| Character.item_name := n;
                               Character.item_type := "items" |})
                      <$> Quest.items reward)]>
           (Character.inventory player)).
Proof.
  unfold Quest.complete_quest. split.
  - rewrite bind_None. split.
    + intros [H|(inv & _ & ?)]; [|done].
      destruct (Quest.items reward) as [|n names]; [done|].
      split; [done|]. simpl in H.
      destruct (Character.inventory player !! "items") as [held|] eqn:Hh;
        [|done].
      simpl in H. by rewrite (add_reward_items_Some _ _ _
                                (lookup_insert_eq _ _ _)) in H.
    + intros [Hne Hnone]. left.
      destruct (Quest.items reward); [done|]. simpl. by rewrite Hnone.
  - intros player' (inv & Hinv & [= <-])%bind_Some. simpl.
    repeat split; try done.
    + intros Hnil. rewrite Hnil in Hinv. by injection Hinv as <-.
    + intros held Hheld.
      rewrite (add_reward_items_Some _ _ _ Hheld) in Hinv.
      by injection Hinv as <-.
Qed.

(** * Further properties of quest generation *)



(** [random.sample] answers [k] elements taken from distinct positions
    of the population. *)
Lemma sample_spec {A} (k : nat) : ∀ (l xs : list A) g g',
  Random.sample l k g = Some (xs, g') → length xs = k ∧ xs ⊆+ l.
Proof.
  induction k as [|k IH]; intros l xs g g'; simpl.
  { intros [= <- _]. split; [done|]. apply submseteq_nil_l. }
  destruct l as [|y l]; [done|].
  intros (w & g1 & _ & H)%bindM_inv.
  apply bindM_inv in H as (x & g2 & [Hx ->]%liftM_inv & H).
  apply bindM_inv in H as (xs' & g3 & Hxs & [= <- _]).
  destruct (IH _ _ _ _ Hxs) as [Hlen Hsub]. split; [simpl; lia|].
  rewrite (delete_Permutation _ _ _ Hx). by apply submseteq_skip.
Qed.

(** Different endings after the same beginning give different strings. *)
Lemma append_suffix_neq (s t u : string) :
  t ≠ u → s +:+ t ≠ s +:+ u.
Proof.
  intros Hne. induction s as [|a s IH]; simpl; [done|].
  intros [= H]. by apply IH.
Qed.

Lemma submseteq_NoDup {A} (l k : list A) : l ⊆+ k → NoDup k → NoDup l.
Proof.
  intros [k' Hk]%submseteq_Permutation Hnd. rewrite Hk in Hnd.
  by apply NoDup_app in Hnd as [? _].
Qed.

(** A string that ends in [t] differs from a literal that does not. *)
Ltac suffix_neq :=
  let s := fresh "s" in
  let H := fresh "H" in
  intros s H;
  repeat (destruct s as [|? s]; simpl in H; [discriminate H|];
          try discriminate H; injection H as _ H).

(** The eight names of the reward pool differ from one another, whatever
    the creature is called. *)
Lemma reward_pool_NoDup nm :
  NoDup [ nm +:+ " Fang"; nm +:+ " Hide"; nm +:+ " Claw";
          "Ancient Bone Fragment"; "Prehistoric Essence"; "Monster Trophy";
          "Health Potion"; "Strength Elixir" ].
Proof.
  assert (∀ s, s +:+ " Fang" ≠ "Ancient Bone Fragment") by suffix_neq.
  assert (∀ s, s +:+ " Fang" ≠ "Prehistoric Essence") by suffix_neq.
  assert (∀ s, s +:+ " Fang" ≠ "Monster Trophy") by suffix_neq.
  assert (∀ s, s +:+ " Fang" ≠ "Health Potion") by suffix_neq.
  assert (∀ s, s +:+ " Fang" ≠ "Strength Elixir") by suffix_neq.
  assert (∀ s, s +:+ " Hide" ≠ "Ancient Bone Fragment") by suffix_neq.
  assert (∀ s, s +:+ " Hide" ≠ "Prehistoric Essence") by suffix_neq.
  assert (∀ s, s +:+ " Hide" ≠ "Monster Trophy") by suffix_neq.
  assert (∀ s, s +:+ " Hide" ≠ "Health Potion") by suffix_neq.
  assert (∀ s, s +:+ " Hide" ≠ "Strength Elixir") by suffix_neq.
  assert (∀ s, s +:+ " Claw" ≠ "Ancient Bone Fragment") by suffix_neq.
  assert (∀ s, s +:+ " Claw" ≠ "Prehistoric Essence") by suffix_neq.
  assert (∀ s, s +:+ " Claw" ≠ "Monster Trophy") by suffix_neq.
  assert (∀ s, s +:+ " Claw" ≠ "Health Potion") by suffix_neq.
  assert (∀ s, s +:+ " Claw" ≠ "Strength Elixir") by suffix_neq.
  pose proof (append_suffix_neq nm " Fang" " Hide" ltac:(done)).
  pose proof (append_suffix_neq nm " Fang" " Claw" ltac:(done)).
  pose proof (append_suffix_neq nm " Hide" " Claw" ltac:(done)).
  repeat (apply NoDup_cons; split;
          [rewrite ?not_elem_of_cons; repeat split;
           first [done | apply not_elem_of_nil]|]).
  apply NoDup_nil_2.
Qed.

(** X22. The bonus items of a reward are one or two entries of the
    creature's pool of eight names, and never the same item twice. When
    [_calculate_rewards] returns, the reward's items are such a draw or
    the empty list. *)
Theorem reward_items_distinct c :
  let possible_items :=
    [ Quest.name c +:+ " Fang"; Quest.name c +:+ " Hide";
      Quest.name c +:+ " Claw"; "Ancient Bone Fragment";
      "Prehistoric Essence"; "Monster Trophy"; "Health Potion";
      "Strength Elixir" ] in
  (∀ g its g',
     Quest._generate_reward_items c g = Some (its, g') →
     (1 ≤ length its ≤ 2)%nat ∧ its ⊆+ possible_items ∧ NoDup its) ∧
  (∀ player tm g reward g',
     Quest._calculate_rewards player c tm g = Some (reward, g') →
     (length (Quest.items reward) ≤ 2)%nat ∧
     Quest.items reward ⊆+ possible_items ∧
     NoDup (Quest.items reward)).
Proof.
  intros possible_items.
  assert (∀ g its g',
            Quest._generate_reward_items c g = Some (its, g') →
            (1 ≤ length its ≤ 2)%nat ∧ its ⊆+ possible_items ∧ NoDup its)
    as Hitems.
  { intros g its g'. unfold Quest._generate_reward_items.
    intros (n & g1 & Hn%randint_inv & H)%bindM_inv.
    apply sample_spec in H as [Hlen Hsub].
    split; [|split; [done|]].
    - rewrite Hlen. simpl. lia.
    - eapply submseteq_NoDup; [exact Hsub|]. apply reward_pool_NoDup. }
  split; [exact Hitems|].
  intros player tm g reward g'. unfold Quest._calculate_rewards.
  intros (gold & g1 & _ & H)%bindM_inv.
  apply bindM_inv in H as (e & g2 & _ & H).
  apply bindM_inv in H as (r & g3 & _ & H).
  destruct (PyFloat.ltb r PyFloat.f0_3).
  - apply bindM_inv in H as (its & g4 & Hits & [= <- _]). simpl.
    destruct (Hitems _ _ _ Hits) as (? & ? & ?). repeat split; try done; lia.
  - injection H as <- _. simpl.
    split; [lia|]. split; [apply submseteq_nil_l|constructor].
Qed.

(** X25. The bonus items of a team reward are, when there are any, one or
    two of the four team tokens, and never the same token twice. *)
Theorem multiplayer_bonus_items_distinct ps c m g reward g' :
  Multiplayer._calculate_multiplayer_rewards ps c m g = Some (reward, g') →
  (length (Quest.items reward) ≤ 2)%nat ∧
  Quest.items reward ⊆+ [ "Teamwork Medal"; "Cooperation Token";
                          "Guild Honor Badge"; "Multiplayer Achievement" ] ∧
  NoDup (Quest.items reward).
Proof.
  unfold Multiplayer._calculate_multiplayer_rewards.
  intros (avg & g1 & _ & H)%bindM_inv.
  apply bindM_inv in H as (bg & g2 & _ & H).
  apply bindM_inv in H as (be & g3 & _ & H).
  apply bindM_inv in H as (gold & g4 & _ & H).
  apply bindM_inv in H as (e & g5 & _ & H).
  apply bindM_inv in H as (r & g6 & _ & H).
  destruct (PyFloat.ltb r PyFloat.f0_5).
  - apply bindM_inv in H as (k & g7 & Hk%randint_inv & H).
    apply bindM_inv in H as (bonus & g8 & [Hlen Hsub]%sample_spec & H).
    injection H as <- _. simpl. split; [lia|]. split; [done|].
    eapply submseteq_NoDup; [exact Hsub|].
    apply (bool_decide_unpack _). by vm_compute.
  - injection H as <- _. simpl.
    split; [lia|]. split; [apply submseteq_nil_l|constructor].
Qed.

(** The party of three earns two tokens. *)
Lemma multiplayer_bonus_items_distinct_witness :
  ∃ reward g',
    Multiplayer._calculate_multiplayer_rewards Sample.party
      Sample.saber_tooth_tiger PyFloat.f1_5 [0; 1; 0; 0]%N
      = Some (reward, g') ∧
    length (Quest.items reward) = 2%nat ∧
    NoDup (Quest.items reward).
Proof.
  destruct (Multiplayer._calculate_multiplayer_rewards Sample.party
              Sample.saber_tooth_tiger PyFloat.f1_5 [0; 1; 0; 0]%N)
    as [[reward g']|] eqn:Hrun; [|vm_compute in Hrun; discriminate].
  exists reward, g'. split; [reflexivity|].
  destruct (multiplayer_bonus_items_distinct _ _ _ _ _ _ Hrun)
    as (_ & _ & Hnd).
  split; [|exact Hnd].
  vm_compute in Hrun. injection Hrun as <- _. reflexivity.
Defined.

(** ** The further properties at work on the sample data *)

(** Rin opens a session and leaves it. *)
Lemma create_then_leave_restores_witness :
  Multiplayer.leave_session "Rin"
    (Multiplayer.create_session (Sample.magician "Rin" 1 80) 4 "AAAA0001" 0
       Multiplayer.empty).2
  = Some (true, Multiplayer.empty).
Proof.
  exact (create_then_leave_restores (Sample.magician "Rin" 1 80) 4
           "AAAA0001" 0 Multiplayer.empty eq_refl eq_refl).
Defined.

(** Ann joins Rin's session and leaves it. *)
Lemma join_then_leave_restores_witness :
  let sys := (Multiplayer.create_session (Sample.magician "Rin" 1 80) 4
                "AAAA0001" 0 Multiplayer.empty).2 in
  (Multiplayer.join_session "AAAA0001" (Sample.sniper "Ann" 1 90) sys).1
    = true ∧
  Multiplayer.leave_session "Ann"
    (Multiplayer.join_session "AAAA0001" (Sample.sniper "Ann" 1 90) sys).2
  = Some (true, sys).
Proof.
  intros sys. split; [vm_compute; reflexivity|].
  eapply (join_then_leave_restores "AAAA0001" (Sample.sniper "Ann" 1 90) sys).
  - vm_compute. reflexivity.
  - vm_compute. reflexivity.
  - discriminate.
  - simpl. intros [H|H]%elem_of_cons; [discriminate H|].
    by apply elem_of_nil in H.
  - discriminate.
Defined.

(** Rin opens a session, Ann joins, the session starts, Rin leaves. *)
Lemma guarded_callers_keep_consistency_witness :
  ∃ sys,
    Multiplayer.run Multiplayer.empty
      [ Multiplayer.CreateSession (Sample.magician "Rin" 1 80) 4
          "AAAA0001" 0;
        Multiplayer.JoinSession "AAAA0001" (Sample.sniper "Ann" 1 90);
        Multiplayer.StartSession "AAAA0001";
        Multiplayer.LeaveSession "Rin" ] = Some sys ∧
    Multiplayer.consistent sys.
Proof.
  apply guarded_callers_keep_consistency. simpl.
  split; [split; reflexivity|]. intros sys1 _.
  split; [exact I|]. intros sys2 _.
  split; [exact I|]. intros sys3 _.
  split; [exact I|]. intros sys4 _. exact I.
Defined.


(** The Tyrannosaurus Rex bites a magician at full health. *)
Lemma combat_actions_keep_hp_in_range_witness :
  let cs := Sample.combat (Sample.magician "Rin" 1 80) Sample.tyrannosaurus
              "enemy" in
  Combat.hp_in_range cs ∧
  ∃ cs' g', Combat.enemy_turn cs Sample.special_draws = Some (cs', g') ∧
            Combat.hp_in_range cs'.
Proof.
  intros cs.
  assert (Combat.hp_in_range cs) as Hrange
    by (unfold Combat.hp_in_range; simpl; lia).
  split; [exact Hrange|].
  destruct (Combat.enemy_turn cs Sample.special_draws)
    as [[cs' g']|] eqn:Hrun; [|vm_compute in Hrun; discriminate].
  exists cs', g'. split; [reflexivity|].
  exact (proj1 (combat_actions_keep_hp_in_range cs Sample.special_draws
                  cs' g' Hrange (or_intror (or_intror Hrun)))).
Defined.


(** The Tyrannosaurus Rex roars at a magician: nothing happens, and the
    magician moves next. *)
Lemma stun_and_grapple_change_nothing_witness :
  let cs := Sample.combat (Sample.magician "Rin" 1 80) Sample.tyrannosaurus
              "enemy" in
  ∃ cs', Combat.enemy_turn cs [0%N; 1%N] = Some (cs', []) ∧
         Combat.player cs' = Combat.player cs ∧
         Combat.enemy cs' = Combat.enemy cs ∧
         Combat.turn cs' = "player".
Proof.
  intros cs.
  destruct (stun_and_grapple_change_nothing cs [0%N; 1%N] [1%N]
              "Intimidating Roar" [])
    as (cs' & extra & Hrun & Hp & He & _ & Ht & _).
  - vm_compute. reflexivity.
  - vm_compute. reflexivity.
  - left. reflexivity.
  - exists cs'. split; [exact Hrun|]. split; [exact Hp|].
    split; [exact He|exact Ht].
Defined.

(** A Woolly Mammoth uses its Trumpet Call on a magician: 16 damage. *)
Lemma unlisted_ability_is_a_plain_hit_witness :
  let mammoth :=
    {| Combat.name := "Woolly Mammoth"; Combat.attack := 20;
       Combat.defense := Some 18; Combat.current_hp := 180;
       Combat.max_hp := 180;
       Combat.special_abilities := ["Tusk Charge"; "Trumpet Call"] |} in
  let cs := Sample.combat (Sample.magician "Rin" 1 80) mammoth "enemy" in
  ∃ cs', Combat._execute_enemy_special_ability cs [1%N; 2%N]
           = Some (cs', []) ∧
         Character.current_hp (Combat.player cs') = 64.
Proof.
  intros mammoth cs.
  destruct (unlisted_ability_is_a_plain_hit cs [1%N; 2%N] "Trumpet Call"
              [2%N] 20 [] 24) as [Hrun _].
  - vm_compute. reflexivity.
  - vm_compute. reflexivity.
  - vm_compute. reflexivity.
  - vm_compute. reflexivity.
  - eexists. split; [exact Hrun|]. vm_compute. reflexivity.
Defined.
